(** * Body ranges of Signal-Desktop: a shallow embedding of [ts/types/BodyRange.ts]

    The development follows the source file from top to bottom: the data
    model ([BodyRange], [RangeNode], [DisplayNode]), the range filter
    ([filterAndClean]), the range tree builder ([insertRange]), the tree
    collapser ([collapseRangeTree]), the snippet mapper
    ([processBodyRangesForSearchResult]) and the plain-text applier
    ([applyRangesForText]); the theorems come after the definitions.
    [hydrateRanges] and [groupContiguousSpoilers] come in a second part of
    the definitions, with the notions that the further properties need.

    Numbers are modelled as integers ([Z]): the [start] and [length] fields
    are integral offsets into UTF-16 strings.  Strings are lists of UTF-16
    code units, so [String.prototype.slice] and [.length] count what
    JavaScript counts. *)

From Stdlib Require Import ZArith List Bool Lia String Ascii.
Import ListNotations.

Local Open Scope Z_scope.
Set Implicit Arguments.

(** ** JavaScript strings *)

Module JS.

Definition CodeUnit := N.
Definition JSString := list CodeUnit.

(** An ASCII literal as a JavaScript string. *)
Definition js (s : string) : JSString :=
  map N_of_ascii (list_ascii_of_string s).

Definition strlen (s : JSString) : Z := Z.of_nat (List.length s).

(** Relative index of [String.prototype.slice]: a negative index counts
    from the end, and both ends are clamped to the string. *)
Definition relIndex (len i : Z) : Z :=
  if i <? 0 then Z.max (len + i) 0 else Z.min i len.

(** [s.slice(from, to)] *)
Definition slice (s : JSString) (from to : Z) : JSString :=
  let len := strlen s in
  let a := relIndex len from in
  let b := relIndex len to in
  firstn (Z.to_nat (Z.max (b - a) 0)) (skipn (Z.to_nat a) s).

(** [s.slice(from)] *)
Definition sliceFrom (s : JSString) (from : Z) : JSString :=
  slice s from (strlen s).

Definition codeUnit_eqb : CodeUnit -> CodeUnit -> bool := N.eqb.

Fixpoint startsWith (pat s : JSString) : bool :=
  match pat, s with
  | [], _ => true
  | _ :: _, [] => false
  | p :: pat', c :: s' => codeUnit_eqb p c && startsWith pat' s'
  end.

Definition endsWith (pat s : JSString) : bool :=
  startsWith (rev pat) (rev s).

End JS.
Import JS.

(** ** Exceptions

    A JavaScript call either returns a value or throws. *)

Inductive Completion (A : Type) : Type :=
| Return (a : A)
| Throw (message : JSString).
Arguments Return {A} a.
Arguments Throw {A} message.

Definition bind {A B} (c : Completion A) (k : A -> Completion B) : Completion B :=
  match c with
  | Return a => k a
  | Throw m => Throw m
  end.

Notation "x <- c ;; k" := (bind c (fun x => k))
  (at level 61, c at next level, right associativity).

(** ** Cold storage of body ranges *)

(** Modelled from the spec: the enumeration [Proto.DataMessage.BodyRange.Style]
    is declared by the generated protobuf module [ts/protobuf], of which
    [BodyRange.ts] only has the import; section 6 of the specification gives
    its members and their wire values.  This is the type that [BodyRange.ts]
    declares for the [style] of a formatting range; what a range off the
    wire holds in this field is any number, see [Proto.IBodyRange]. *)
Inductive Style := NONE | BOLD | ITALIC | STRIKETHROUGH | MONOSPACE | SPOILER.

Definition Style_value (s : Style) : Z :=
  match s with
  | NONE => 0
  | BOLD => 1
  | ITALIC => 2
  | STRIKETHROUGH => 3
  | MONOSPACE => 4
  | SPOILER => 5
  end.

Definition Style_eqb (a b : Style) : bool := Style_value a =? Style_value b.

Inductive DisplayStyle := SearchKeywordHighlight.

(** [BodyRange<T>]: a start, a length and the fields of [T]. *)
Record BodyRange (T : Type) : Type := mkBodyRange {
  start : Z;
  length : Z;
  data : T;
}.
Arguments mkBodyRange {T} start length data.

Record HydratedMention := mkHydratedMention {
  mentionUuid : JSString;
  replacementText : JSString;
  conversationID : JSString;
}.

Record Link := mkLink { url : JSString }.

Record Formatting := mkFormatting {
  style : Style;
  spoilerId : option Z;
}.

Record DisplayOnly := mkDisplayOnly { displayStyle : DisplayStyle }.

(** The union [HydratedMention | Link | Formatting | DisplayOnly]; the
    guards [isMention], [isFormatting], [isLink] and [isDisplayOnly] test
    which member's key the object has. *)
Inductive RangeData :=
| IsMention (m : HydratedMention)
| IsLink (l : Link)
| IsFormatting (f : Formatting)
| IsDisplayOnly (d : DisplayOnly).

Definition isMention (d : RangeData) : bool :=
  match d with IsMention _ => true | _ => false end.
Definition isFormatting (d : RangeData) : bool :=
  match d with IsFormatting _ => true | _ => false end.
Definition isLink (d : RangeData) : bool :=
  match d with IsLink _ => true | _ => false end.
Definition isDisplayOnly (d : RangeData) : bool :=
  match d with IsDisplayOnly _ => true | _ => false end.

Definition HydratedBodyRangeMention := BodyRange HydratedMention.
Definition DisplayBodyRangeType := BodyRange RangeData.

(** A range that can contain other nested ranges; inner [start] fields are
    relative to the start of the containing range. *)
Unset Elimination Schemes.
Inductive RangeNode : Type :=
| mkRangeNode (range : BodyRange RangeData) (ranges : list RangeNode).
Set Elimination Schemes.

Definition nodeRange (n : RangeNode) : BodyRange RangeData :=
  match n with mkRangeNode r _ => r end.
Definition ranges (n : RangeNode) : list RangeNode :=
  match n with mkRangeNode _ rs => rs end.
Definition nodeStart (n : RangeNode) : Z := start (nodeRange n).
Definition nodeLength (n : RangeNode) : Z := length (nodeRange n).
Definition nodeData (n : RangeNode) : RangeData := data (nodeRange n).

(** Induction over range trees: the property may be assumed of every child. *)
Section RangeNode_induction.
Variable P : RangeNode -> Prop.
Hypothesis P_node :
  forall r rs, Forall P rs -> P (mkRangeNode r rs).

Fixpoint RangeNode_ind (n : RangeNode) : P n :=
  match n with
  | mkRangeNode r rs =>
      P_node r
        ((fix children (l : list RangeNode) : Forall P l :=
            match l with
            | [] => Forall_nil P
            | c :: l' => Forall_cons c (RangeNode_ind c) (children l')
            end) rs)
  end.
End RangeNode_induction.

(** ** The range tree builder *)

Definition unhandled_range : JSString := js "unhandled range".

(** The body of [insertRange] once the tree is known to have a first node.
    [intoCurrent r] stands for the call [insertRange(r, current.ranges)]
    and [intoRest r] for [insertRange(r, rest)]. *)
Definition insertRange_cases
    (intoCurrent intoRest : BodyRange RangeData -> Completion (list RangeNode))
    (range : BodyRange RangeData) (current : RangeNode) (rest : list RangeNode)
  : Completion (list RangeNode) :=
  let rangeEnd := start range + length range in
  let currentEnd := nodeStart current + nodeLength current in
  (* ends before current starts *)
  if rangeEnd <=? nodeStart current then
    Return (mkRangeNode range [] :: current :: rest)
  (* starts after current one ends *)
  else if start range >=? currentEnd then
    rest' <- intoRest range ;;
    Return (current :: rest')
  (* range is contained by first *)
  else if (start range >=? nodeStart current) && (rangeEnd <=? currentEnd) then
    inner <- intoCurrent
               (mkBodyRange (start range - nodeStart current) (length range)
                  (data range)) ;;
    Return (mkRangeNode (nodeRange current) inner :: rest)
  (* range contains first (but might contain more): split range into 3 *)
  else if (start range <? nodeStart current) && (rangeEnd >? currentEnd) then
    inner <- intoCurrent
               (mkBodyRange 0 (nodeLength current) (data range)) ;;
    rest' <- intoRest
               (mkBodyRange currentEnd (rangeEnd - currentEnd) (data range)) ;;
    Return (mkRangeNode
              (mkBodyRange (start range) (nodeStart current - start range)
                 (data range)) []
            :: mkRangeNode (nodeRange current) inner
            :: rest')
  (* range intersects beginning: split range into 2 *)
  else if (start range <? nodeStart current) && (rangeEnd <=? currentEnd) then
    inner <- intoCurrent
               (mkBodyRange 0
                  (length range - (nodeStart current - start range))
                  (data range)) ;;
    Return (mkRangeNode
              (mkBodyRange (start range) (nodeStart current - start range)
                 (data range)) []
            :: mkRangeNode (nodeRange current) inner
            :: rest)
  (* range intersects ending: split range into 2 *)
  else if (start range >=? nodeStart current) && (rangeEnd >? currentEnd) then
    inner <- intoCurrent
               (mkBodyRange (start range - nodeStart current)
                  (currentEnd - start range) (data range)) ;;
    rest' <- intoRest
               (mkBodyRange currentEnd
                  (length range - (currentEnd - start range))
                  (data range)) ;;
    Return (mkRangeNode (nodeRange current) inner :: rest')
  else
    Throw unhandled_range.

(** [insertChildren current r] is [insertRange(r, current.ranges)]: the
    recursion of [insertRange] descends into the children of the first
    node and along the rest of the list, which this pair of nested
    fixpoints makes structural. *)
Fixpoint insertChildren (current : RangeNode) {struct current}
  : BodyRange RangeData -> Completion (list RangeNode) :=
  match current with
  | mkRangeNode _ children =>
      (fix insertList (tree : list RangeNode) {struct tree}
         : BodyRange RangeData -> Completion (list RangeNode) :=
         fun range =>
           match tree with
           | [] => Return [mkRangeNode range []]
           | c :: rest =>
               insertRange_cases (insertChildren c) (insertList rest)
                 range c rest
           end) children
  end.

Fixpoint insertRange (range : BodyRange RangeData) (rangeTree : list RangeNode)
  {struct rangeTree} : Completion (list RangeNode) :=
  match rangeTree with
  | [] => Return [mkRangeNode range []]
  | current :: rest =>
      insertRange_cases (insertChildren current)
        (fun r => insertRange r rest) range current rest
  end.


(** Inserting a sequence of ranges one at a time, starting from a tree. *)
Definition insertRanges (rs : list (BodyRange RangeData)) (tree : list RangeNode)
  : Completion (list RangeNode) :=
  fold_left (fun acc r => t <- acc ;; insertRange r t) rs (Return tree).

(** ** The range filter *)

(** Modelled from the spec: [Proto.DataMessage.IBodyRange] is declared by the
    generated protobuf module [ts/protobuf], of which [BodyRange.ts] only
    has the import; section 6 of the specification lists its fields, each of
    which may be absent.  The filter reads these objects as they come off
    the wire, where the style is a number that need not be the value of a
    member of [Style]: the field holds the number itself. *)
Module Proto.
Record IBodyRange := mkIBodyRange {
  start : option Z;
  length : option Z;
  mentionUuid : option JSString;
  style : option Z;
}.
End Proto.

Definition MAX_PER_TYPE : Z := 250.

(** The property names that [countByTypeRecord] is indexed with:
    [MENTION_NAME] and the number found in the [style] of a range. *)
Inductive CountKey := MENTION_NAME | StyleKey (s : Z).

Definition CountKey_eqb (a b : CountKey) : bool :=
  match a, b with
  | MENTION_NAME, MENTION_NAME => true
  | StyleKey s, StyleKey s' => s =? s'
  | _, _ => false
  end.

(** What [countByTypeRecord[key]] evaluates to: a number, [NaN], or
    [undefined] when the record has no property [key]. *)
Inductive Counter := undefined | NaN | number (n : Z).

(** [counter + 1]: [undefined + 1] and [NaN + 1] are [NaN]. *)
Definition plusOne (counter : Counter) : Counter :=
  match counter with
  | number n => number (n + 1)
  | undefined | NaN => NaN
  end.

(** [counter > max]: every comparison with [NaN] is false. *)
Definition greaterThan (counter : Counter) (max : Z) : bool :=
  match counter with
  | number n => n >? max
  | undefined | NaN => false
  end.

Definition CountRecord := CountKey -> Counter.

(** The record literal: a property for [MENTION_NAME] and one for each of
    the six members of [Style], all 0; it has no other property. *)
Definition countByTypeRecord_init : CountRecord :=
  fun key =>
    match key with
    | MENTION_NAME => number 0
    | StyleKey s =>
        if existsb (fun member => Style_value member =? s)
             [BOLD; ITALIC; MONOSPACE; SPOILER; STRIKETHROUGH; NONE]
        then number 0
        else undefined
    end.

(** [record[key] += 1] *)
Definition increment (key : CountKey) (record : CountRecord) : CountRecord :=
  fun k => if CountKey_eqb k key then plusOne (record k) else record k.

(** lodash's [isNumber] on an optional numeric field. *)
Definition isNumber (x : option Z) : bool :=
  match x with Some _ => true | None => false end.

(** Truthiness of an optional string: absent and empty strings are falsy. *)
Definition truthyString (x : option JSString) : bool :=
  match x with Some (_ :: _) => true | _ => false end.

(** Truthiness of an optional style: absent is falsy, and so is the
    number 0. *)
Definition truthyStyle (x : option Z) : bool :=
  match x with Some s => negb (s =? 0) | None => false end.

(** The callback given to [filter]; it reads and updates the counters.  The
    warnings it logs are not modelled. *)
Definition filterAndClean_callback (counts : CountRecord) (range : Proto.IBodyRange)
  : bool * CountRecord :=
  if negb (isNumber (Proto.start range)) then (false, counts)
  else if negb (isNumber (Proto.length range)) then (false, counts)
  else if truthyString (Proto.mentionUuid range) then
    let counts' := increment MENTION_NAME counts in
    if greaterThan (counts' MENTION_NAME) MAX_PER_TYPE then (false, counts')
    else (true, counts')
  else if truthyStyle (Proto.style range) then
    match Proto.style range with
    | Some s =>
        let counts' := increment (StyleKey s) counts in
        if greaterThan (counts' (StyleKey s)) MAX_PER_TYPE then (false, counts')
        else (true, counts')
    | None => (false, counts)
    end
  else (false, counts).

(** [ranges.filter(callback)], the counters threaded from left to right. *)
Fixpoint filterWithCounts (counts : CountRecord) (ranges : list Proto.IBodyRange)
  : list Proto.IBodyRange :=
  match ranges with
  | [] => []
  | range :: rest =>
      let '(keep, counts') := filterAndClean_callback counts range in
      if keep then range :: filterWithCounts counts' rest
      else filterWithCounts counts' rest
  end.

(** [filterAndClean]; the final [.map(range => ({ ...range }))] copies each
    object, which leaves its value unchanged. *)
Definition filterAndClean (ranges : option (list Proto.IBodyRange))
  : option (list Proto.IBodyRange) :=
  match ranges with
  | None => None
  | Some ranges =>
      Some (map (fun range => range)
              (filterWithCounts countByTypeRecord_init ranges))
  end.

(** ** A flat list, ready for display *)

Module Display.

(** [PartialDisplayNode]: every key is optional.  [spoilerId] distinguishes a
    missing key ([None]) from a key holding [undefined] ([Some None]), which
    matters when objects are spread one over the other.  [spoilerChildren]
    is only ever set by [groupContiguousSpoilers] and is left out. *)
Record PartialDisplayNode := mkPartial {
  isBold : option bool;
  isItalic : option bool;
  isMonospace : option bool;
  isSpoiler : option bool;
  isStrikethrough : option bool;
  url : option JSString;
  isKeywordHighlight : option bool;
  spoilerId : option (option Z);
}.

(** [DisplayNode]: the four keys of its own and those of the partial node. *)
Record DisplayNode := mkDisplayNode {
  partial : PartialDisplayNode;
  text : JSString;
  start : Z;
  length : Z;
  mentions : list HydratedBodyRangeMention;
}.

End Display.

Definition PartialDisplayNode := Display.PartialDisplayNode.
Definition DisplayNode := Display.DisplayNode.

(** The empty object [{}], also what spreading [undefined] contributes. *)
Definition emptyPartial : PartialDisplayNode :=
  Display.mkPartial None None None None None None None None.

Definition override {A} (a b : option A) : option A :=
  match b with Some _ => b | None => a end.

(** [{ ...a, ...b }] *)
Definition spread (a b : PartialDisplayNode) : PartialDisplayNode :=
  Display.mkPartial
    (override (Display.isBold a) (Display.isBold b))
    (override (Display.isItalic a) (Display.isItalic b))
    (override (Display.isMonospace a) (Display.isMonospace b))
    (override (Display.isSpoiler a) (Display.isSpoiler b))
    (override (Display.isStrikethrough a) (Display.isStrikethrough b))
    (override (Display.url a) (Display.url b))
    (override (Display.isKeywordHighlight a) (Display.isKeywordHighlight b))
    (override (Display.spoilerId a) (Display.spoilerId b)).

Definition missingCaseError : JSString := js "Unhandled case".

Definition rangeToPartialNode (range : RangeData) : Completion PartialDisplayNode :=
  match range with
  | IsFormatting f =>
      if Style_eqb (style f) BOLD then
        Return (Display.mkPartial (Some true) None None None None None None None)
      else if Style_eqb (style f) ITALIC then
        Return (Display.mkPartial None (Some true) None None None None None None)
      else if Style_eqb (style f) MONOSPACE then
        Return (Display.mkPartial None None (Some true) None None None None None)
      else if Style_eqb (style f) SPOILER then
        Return (Display.mkPartial None None None (Some true) None None None
                  (Some (spoilerId f)))
      else if Style_eqb (style f) STRIKETHROUGH then
        Return (Display.mkPartial None None None None (Some true) None None None)
      else if Style_eqb (style f) NONE then
        Return emptyPartial
      else Throw missingCaseError
  | IsLink l =>
      Return (Display.mkPartial None None None None None (Some (url l)) None None)
  | IsDisplayOnly d =>
      match displayStyle d with
      | SearchKeywordHighlight =>
          Return (Display.mkPartial None None None None None None (Some true) None)
      end
  | IsMention _ => Throw missingCaseError
  end.

(** ** The tree collapser *)

(** The three variables of [collapseRangeTree] that its loop updates. *)
Record CollapseState := mkCollapseState {
  collapsed : list DisplayNode;
  offset : Z;
  mentions : list HydratedBodyRangeMention;
}.

(** A segment of plain text from the cursor up to [upto], carrying the
    formatting of the parent and the mentions pending so far. *)
Definition plainSegment (parentData : PartialDisplayNode) (parentOffset : Z)
    (text : JSString) (st : CollapseState) (upto : Z) : DisplayNode :=
  Display.mkDisplayNode parentData
    (slice text (offset st) upto)
    (offset st + parentOffset)
    (upto - offset st)
    (mentions st).

(** The callback of [tree.forEach].  [recur] stands for the recursive call
    of [collapseRangeTree] on [range.ranges]. *)
Definition collapseStep
    (recur : PartialDisplayNode -> Z -> JSString -> Completion (list DisplayNode))
    (parentData : PartialDisplayNode) (parentOffset : Z) (text : JSString)
    (st : CollapseState) (range : RangeNode) : Completion CollapseState :=
  match nodeData range with
  | IsMention m =>
      Return (mkCollapseState (collapsed st) (offset st)
                (mentions st
                   ++ [mkBodyRange (nodeStart range - offset st)
                         (nodeLength range) m]))
  | other =>
      (* Empty space between start of current *)
      let st1 :=
        if nodeStart range >? offset st then
          mkCollapseState
            (collapsed st
               ++ [plainSegment parentData parentOffset text st (nodeStart range)])
            (offset st) []
        else st in
      (* What sub-breaks can we make within this node? *)
      own <- rangeToPartialNode other ;;
      let partialNode := spread parentData own in
      inner <- recur partialNode (nodeStart range + parentOffset)
                 (slice text (nodeStart range)
                    (nodeStart range + nodeLength range)) ;;
      Return (mkCollapseState (collapsed st1 ++ inner)
                (nodeStart range + nodeLength range) (mentions st1))
  end.

Definition collapseInit : CollapseState := mkCollapseState [] 0 [].

(** Empty space after the last range *)
Definition collapseFinish (parentData : PartialDisplayNode) (parentOffset : Z)
    (text : JSString) (st : CollapseState) : list DisplayNode :=
  if strlen text >? offset st then
    collapsed st ++ [plainSegment parentData parentOffset text st (strlen text)]
  else collapsed st.

(** [collapseChildren range pd po text] is
    [collapseRangeTree({parentData: pd, parentOffset: po, text, tree: range.ranges})];
    as for [insertRange], the nested fixpoint makes the recursion through
    the children structural. *)
Fixpoint collapseChildren (range : RangeNode) {struct range}
  : PartialDisplayNode -> Z -> JSString -> Completion (list DisplayNode) :=
  match range with
  | mkRangeNode _ children =>
      fun parentData parentOffset text =>
        st <- (fix loop (tree : list RangeNode) (st : Completion CollapseState)
                 {struct tree} : Completion CollapseState :=
                 match tree with
                 | [] => st
                 | child :: tree' =>
                     loop tree'
                       (s <- st ;;
                        collapseStep (collapseChildren child)
                          parentData parentOffset text s child)
                 end) children (Return collapseInit) ;;
        Return (collapseFinish parentData parentOffset text st)
  end.

(** The loop of [collapseRangeTree] from a given state. *)
Definition collapseLoop (parentData : PartialDisplayNode) (parentOffset : Z)
    (text : JSString) (tree : list RangeNode) (st : Completion CollapseState)
  : Completion CollapseState :=
  fold_left
    (fun acc range =>
       s <- acc ;;
       collapseStep (collapseChildren range) parentData parentOffset text s range)
    tree st.

Definition collapseRangeTree (parentData : PartialDisplayNode) (parentOffset : Z)
    (text : JSString) (tree : list RangeNode) : Completion (list DisplayNode) :=
  st <- collapseLoop parentData parentOffset text tree (Return collapseInit) ;;
  Return (collapseFinish parentData parentOffset text st).

(** ** The snippet mapper *)

(** The patterns that [processBodyRangesForSearchResult] builds are all made
    of fixed marker strings or of an escaped string, so each of them matches
    literally; the functions below are [replace], [exec] and [matchAll] for
    such patterns. *)
Module RegExp.

(** [s.replace(new RegExp(pat, 'g'), '')]: every occurrence found from left
    to right is dropped; [skip] counts the code units of the current
    occurrence that remain to be dropped. *)
Fixpoint removeAll_from (pat : JSString) (skip : nat) (s : JSString) : JSString :=
  match s with
  | [] => []
  | c :: s' =>
      match skip with
      | S k => removeAll_from pat k s'
      | O =>
          if negb (Nat.eqb (List.length pat) 0) && startsWith pat s
          then removeAll_from pat (pred (List.length pat)) s'
          else c :: removeAll_from pat O s'
      end
  end.

Definition removeAll (pat s : JSString) : JSString := removeAll_from pat 0 s.

(** [s.replace(new RegExp(`^${pat}`), by)] *)
Definition replaceStart (pat by_ s : JSString) : JSString :=
  if startsWith pat s then by_ ++ skipn (List.length pat) s else s.

(** [s.replace(new RegExp(`${pat}$`), by)] *)
Definition replaceEnd (pat by_ s : JSString) : JSString :=
  if endsWith pat s
  then firstn (List.length s - List.length pat) s ++ by_
  else s.

(** [new RegExp(escapeRegExp(pat)).exec(s)]: the index of the first
    occurrence of [pat] in [s], if any. *)
Fixpoint exec_from (pat s : JSString) (pos : Z) : option Z :=
  if startsWith pat s then Some pos
  else match s with
       | [] => None
       | _ :: s' => exec_from pat s' (pos + 1)
       end.

Definition exec (pat s : JSString) : option Z := exec_from pat s 0.

(** The code units that [.] does not match. *)
Definition isLineTerminator (c : CodeUnit) : bool :=
  (N.eqb c 10 || N.eqb c 13 || N.eqb c 8232 || N.eqb c 8233)%bool.

(** The lazy group [(.*?)] followed by [right]: the least number of code
    units, none of them a line terminator, after which [right] occurs. *)
Fixpoint lazyGroup (right s : JSString) : option nat :=
  if startsWith right s then Some O
  else match s with
       | [] => None
       | c :: s' =>
           if isLineTerminator c then None
           else option_map S (lazyGroup right s')
       end.

(** A match of [`${left}(.*?)${right}`] at the start of [s]: where the
    group begins and ends. *)
Definition matchAt (left right s : JSString) : option (nat * nat) :=
  if startsWith left s then
    match lazyGroup right (skipn (List.length left) s) with
    | Some k => Some (List.length left, (List.length left + k)%nat)
    | None => None
    end
  else None.

(** [s.matchAll(new RegExp(`${left}(.*?)${right}`, 'dg'))]: for every match
    the index of the whole match and the two indices of the group.  [skip]
    counts the code units up to the position where the search resumes. *)
Fixpoint matchAll_from (left right : JSString) (pos : Z) (skip : nat)
    (s : JSString) : list (Z * Z * Z) :=
  match skip with
  | S k =>
      match s with
      | [] => []
      | _ :: s' => matchAll_from left right (pos + 1) k s'
      end
  | O =>
      match matchAt left right s with
      | Some (gs, ge) =>
          (pos, pos + Z.of_nat gs, pos + Z.of_nat ge)
          :: match s with
             | [] => []
             | _ :: s' =>
                 matchAll_from left right (pos + 1)
                   (pred (ge + List.length right)) s'
             end
      | None =>
          match s with
          | [] => []
          | _ :: s' => matchAll_from left right (pos + 1) O s'
          end
      end
  end.

Definition matchAll (left right s : JSString) : list (Z * Z * Z) :=
  matchAll_from left right 0 O s.

End RegExp.

(** Modelled from the spec: [assertDev] is defined in [ts/util/assert.ts],
    of which [BodyRange.ts] only has the import.  The specification calls
    it a soft assertion that fails loudly in development builds and that
    production survives; a failure that does not throw is logged. *)
Inductive Environment := Development | Production.

Definition assertDev (env : Environment) (condition : bool) (message : JSString)
  : Completion (list JSString) :=
  if condition then Return []
  else match env with
       | Development => Throw message
       | Production => Return [message]
       end.

Record SearchResult := mkSearchResult {
  cleanedSnippet : JSString;
  bodyRanges : list DisplayBodyRangeType;
}.

Definition quote : JSString := [34%N].

Section SnippetMapper.

(** The three markers are constants of [ts/util/search.ts], of which
    [BodyRange.ts] only has the import; they are plain strings without any
    character that is special in a regular expression. *)
Variables SNIPPET_LEFT_PLACEHOLDER SNIPPET_RIGHT_PLACEHOLDER
          SNIPPET_TRUNCATION_PLACEHOLDER : JSString.

Definition TRUNCATION_CHAR : JSString := js "...".

Definition cleanSnippet (snippet : JSString) : JSString :=
  RegExp.removeAll SNIPPET_RIGHT_PLACEHOLDER
    (RegExp.removeAll SNIPPET_LEFT_PLACEHOLDER snippet).

Definition withNoStartTruncation (snippet : JSString) : JSString :=
  RegExp.replaceStart SNIPPET_TRUNCATION_PLACEHOLDER [] (cleanSnippet snippet).

Definition withNoEndTruncation (snippet : JSString) : JSString :=
  RegExp.replaceEnd SNIPPET_TRUNCATION_PLACEHOLDER [] (withNoStartTruncation snippet).

Definition finalSnippet (snippet : JSString) : JSString :=
  RegExp.replaceEnd SNIPPET_TRUNCATION_PLACEHOLDER TRUNCATION_CHAR
    (RegExp.replaceStart SNIPPET_TRUNCATION_PLACEHOLDER TRUNCATION_CHAR
       (cleanSnippet snippet)).

Definition truncationDelta (snippet : JSString) : Z :=
  if negb (strlen (withNoStartTruncation snippet) =? strlen (cleanSnippet snippet))
  then strlen TRUNCATION_CHAR
  else 0.

(** We want only the ranges that include the snippet *)
Definition includesSnippet (startOfSnippet endOfSnippet : Z)
    (range : DisplayBodyRangeType) : bool :=
  let end_ := start range + length range in
  (end_ >? startOfSnippet) && (start range <? endOfSnippet).

(** Adjust ranges, with numbers for the original message body, to work with
    snippet *)
Definition adjustRange (snippet : JSString) (startOfSnippet : Z)
    (range : DisplayBodyRangeType) : DisplayBodyRangeType :=
  let normalizedStart := start range - startOfSnippet + truncationDelta snippet in
  let start_ := Z.max normalizedStart (truncationDelta snippet) in
  let end_ := Z.min (normalizedStart + length range)
                (strlen (withNoEndTruncation snippet) + truncationDelta snippet) in
  mkBodyRange start_ (end_ - start_) (data range).

(** The body of the loop over the highlight matches; the state is the list
    of ranges built so far and [placeholderCharsSkipped]. *)
Definition highlightStep (snippet : JSString)
    (st : list DisplayBodyRangeType * Z) (highlightMatch : Z * Z * Z)
  : list DisplayBodyRangeType * Z :=
  let '(adjustedBodyRanges, placeholderCharsSkipped) := st in
  let '(wholeMatchStartIdx, matchedWordStartIdx, matchedWordEndIdx) :=
    highlightMatch in
  (adjustedBodyRanges
     ++ [mkBodyRange
           (wholeMatchStartIdx + - placeholderCharsSkipped
            + (if negb (truncationDelta snippet =? 0)
               then strlen TRUNCATION_CHAR - strlen SNIPPET_TRUNCATION_PLACEHOLDER
               else 0))
           (matchedWordEndIdx - matchedWordStartIdx)
           (IsDisplayOnly (mkDisplayOnly SearchKeywordHighlight))],
   placeholderCharsSkipped
   + (strlen SNIPPET_LEFT_PLACEHOLDER + strlen SNIPPET_RIGHT_PLACEHOLDER)).

(** The ranges returned when the snippet is taken to start at
    [startOfSnippet]: the kept ranges adjusted, then the highlights. *)
Definition rangesForSnippet (snippet : JSString) (startOfSnippet : Z)
    (bodyRanges : list DisplayBodyRangeType) : list DisplayBodyRangeType :=
  let endOfSnippet := startOfSnippet + strlen (withNoEndTruncation snippet) in
  let filteredBodyRanges :=
    filter (includesSnippet startOfSnippet endOfSnippet) bodyRanges in
  let adjustedBodyRanges := map (adjustRange snippet startOfSnippet) filteredBodyRanges in
  let highlightMatches :=
    RegExp.matchAll SNIPPET_LEFT_PLACEHOLDER SNIPPET_RIGHT_PLACEHOLDER snippet in
  fst (fold_left (highlightStep snippet) highlightMatches (adjustedBodyRanges, 0)).

Definition noMatchMessage (snippet body : JSString) : JSString :=
  js "No match found for " ++ quote ++ snippet ++ quote
    ++ js " inside " ++ quote ++ body ++ quote.

(** [processBodyRangesForSearchResult]: what it logs through [assertDev]
    and what it returns, unless it throws. *)
Definition processBodyRangesForSearchResult (env : Environment)
    (snippet body : JSString) (bodyRanges : list DisplayBodyRangeType)
  : Completion (list JSString * SearchResult) :=
  let match_ := RegExp.exec (withNoEndTruncation snippet) body in
  logged <- assertDev env (match match_ with Some _ => true | None => false end)
              (noMatchMessage snippet body) ;;
  let startOfSnippet := match match_ with Some index => index | None => 0 end in
  Return (logged,
          mkSearchResult (finalSnippet snippet)
            (rangesForSnippet snippet startOfSnippet bodyRanges)).

End SnippetMapper.

(** ** The plain-text applier *)

(** Four black squares (U+25A0). *)
Definition SPOILER_REPLACEMENT : JSString := [9632; 9632; 9632; 9632]%N.

(** [Array.prototype.sort] with a comparison function: a stable sort. *)
Fixpoint insertSorted {A} (compare : A -> A -> Z) (x : A) (l : list A) : list A :=
  match l with
  | [] => [x]
  | y :: l' =>
      if compare x y <=? 0 then x :: l else y :: insertSorted compare x l'
  end.

Definition sort {A} (compare : A -> A -> Z) (l : list A) : list A :=
  fold_right (insertSorted compare) [] l.

Definition byStartDescending {T} (a b : BodyRange T) : Z := start b - start a.

(** The callback of the [reduce] over the spoilers; it also updates
    [sortableMentions]. *)
Definition applySpoiler
    (st : JSString * list HydratedBodyRangeMention) (spoiler : BodyRange Formatting)
  : JSString * list HydratedBodyRangeMention :=
  let '(acc, sortableMentions) := st in
  let left := slice acc 0 (start spoiler) in
  let end_ := start spoiler + length spoiler in
  let right := sliceFrom acc end_ in
  (* Note: this is a simplified filter because mentions always have length=1 *)
  let sortableMentions' :=
    map (fun mention : HydratedBodyRangeMention =>
           if start mention >=? end_ then
             mkBodyRange
               (start mention - (length spoiler - strlen SPOILER_REPLACEMENT))
               (length mention) (data mention)
           else mention)
      (filter (fun mention : HydratedBodyRangeMention =>
                 (start mention <? start spoiler) || (start mention >=? end_))
         sortableMentions) in
  (left ++ SPOILER_REPLACEMENT ++ right, sortableMentions').

(** The callback of the [reduce] over the mentions. *)
Definition applyMention (acc : JSString) (mention : HydratedBodyRangeMention)
  : JSString :=
  let left := slice acc 0 (start mention) in
  let right := sliceFrom acc (start mention + length mention) in
  left ++ js "@" ++ replacementText (data mention) ++ right.

Definition applyRangesForText (text : option JSString)
    (mentions : list HydratedBodyRangeMention)
    (spoilers : list (BodyRange Formatting)) : option JSString :=
  match text with
  | None => None
  | Some [] => Some []
  | Some text =>
      let '(updatedText, sortableMentions) :=
        fold_left applySpoiler (sort byStartDescending spoilers) (text, mentions) in
      Some (fold_left applyMention (sort byStartDescending sortableMentions)
              updatedText)
  end.

(** ** Well-formed range trees *)

Definition nodeEnd (n : RangeNode) : Z := nodeStart n + nodeLength n.

(** Siblings sorted ascending by start and not overlapping: none starts
    before [lo], none has a negative length, and each starts at or after the
    end of the one before it (touching ends do not overlap). *)
Fixpoint sortedFrom (lo : Z) (tree : list RangeNode) : Prop :=
  match tree with
  | [] => True
  | n :: rest =>
      lo <= nodeStart n /\ 0 <= nodeLength n /\ sortedFrom (nodeEnd n) rest
  end.

(** Every node of the list ends at or before [hi]. *)
Definition within (hi : Z) (tree : list RangeNode) : Prop :=
  Forall (fun n => nodeEnd n <= hi) tree.

(** The children of a node, whose offsets are relative to it, are sorted
    siblings inside its span, and are well formed themselves. *)
Fixpoint wellFormedNode (n : RangeNode) : Prop :=
  match n with
  | mkRangeNode r children =>
      sortedFrom 0 children /\ within (length r) children
      /\ (fix all (l : list RangeNode) : Prop :=
            match l with
            | [] => True
            | c :: l' => wellFormedNode c /\ all l'
            end) children
  end.

Definition wellFormed (tree : list RangeNode) : Prop :=
  sortedFrom 0 tree /\ Forall wellFormedNode tree.

(** A range the builder accepts: neither its start nor its length is negative. *)
Definition validRange (range : BodyRange RangeData) : Prop :=
  0 <= start range /\ 0 <= length range.

(** ** The cases of [insertRange] *)

Inductive InsertCase :=
| EndsBefore | StartsAfter | ContainedBy | Contains
| IntersectsBeginning | IntersectsEnding.

(** The six cases in the order of the source. *)
Definition insertCases : list InsertCase :=
  [EndsBefore; StartsAfter; ContainedBy; Contains;
   IntersectsBeginning; IntersectsEnding].

(** The condition of each [if] of [insertRange]. *)
Definition caseCondition (c : InsertCase) (range : BodyRange RangeData)
    (current : RangeNode) : bool :=
  let rangeEnd := start range + length range in
  let currentEnd := nodeStart current + nodeLength current in
  match c with
  | EndsBefore => rangeEnd <=? nodeStart current
  | StartsAfter => start range >=? currentEnd
  | ContainedBy => (start range >=? nodeStart current) && (rangeEnd <=? currentEnd)
  | Contains => (start range <? nodeStart current) && (rangeEnd >? currentEnd)
  | IntersectsBeginning =>
      (start range <? nodeStart current) && (rangeEnd <=? currentEnd)
  | IntersectsEnding =>
      (start range >=? nodeStart current) && (rangeEnd >? currentEnd)
  end.

(** The case that applies is the first one whose condition holds, since
    each [if] returns. *)
Definition applicableCase (range : BodyRange RangeData) (current : RangeNode)
  : option InsertCase :=
  find (fun c => caseCondition c range current) insertCases.

(** What [insertRange] does in each case, and when none applies. *)
Definition insertRange_by_case (c : option InsertCase)
    (range : BodyRange RangeData) (current : RangeNode) (rest : list RangeNode)
  : Completion (list RangeNode) :=
  let rangeEnd := start range + length range in
  let currentEnd := nodeStart current + nodeLength current in
  let leaf len := mkRangeNode (mkBodyRange (start range) len (data range)) [] in
  let inCurrent s len :=
    inner <- insertRange (mkBodyRange s len (data range)) (ranges current) ;;
    Return (mkRangeNode (nodeRange current) inner) in
  let inRest s len := insertRange (mkBodyRange s len (data range)) rest in
  match c with
  | Some EndsBefore => Return (mkRangeNode range [] :: current :: rest)
  | Some StartsAfter =>
      rest' <- insertRange range rest ;; Return (current :: rest')
  | Some ContainedBy =>
      cur' <- inCurrent (start range - nodeStart current) (length range) ;;
      Return (cur' :: rest)
  | Some Contains =>
      cur' <- inCurrent 0 (nodeLength current) ;;
      rest' <- inRest currentEnd (rangeEnd - currentEnd) ;;
      Return (leaf (nodeStart current - start range) :: cur' :: rest')
  | Some IntersectsBeginning =>
      cur' <- inCurrent 0 (length range - (nodeStart current - start range)) ;;
      Return (leaf (nodeStart current - start range) :: cur' :: rest)
  | Some IntersectsEnding =>
      cur' <- inCurrent (start range - nodeStart current) (currentEnd - start range) ;;
      rest' <- inRest currentEnd (length range - (currentEnd - start range)) ;;
      Return (cur' :: rest')
  | None => Throw unhandled_range
  end.

(** ** Coverage of a position by a kind of range *)

(** Position [p], in the coordinates of the siblings of [n], lies in [n] or
    in one of its descendants, and that node carries the data [d]. *)
Fixpoint covers (d : RangeData) (p : Z) (n : RangeNode) : Prop :=
  match n with
  | mkRangeNode r children =>
      (start r <= p < start r + length r /\ data r = d)
      \/ (fix any (l : list RangeNode) : Prop :=
            match l with
            | [] => False
            | c :: l' => covers d (p - start r) c \/ any l'
            end) children
  end.

Definition covered (d : RangeData) (p : Z) (tree : list RangeNode) : Prop :=
  Exists (covers d p) tree.

(** ** Mention nodes without children *)

Fixpoint dropMentionChildren (n : RangeNode) : RangeNode :=
  match n with
  | mkRangeNode r children =>
      if isMention (data r) then mkRangeNode r []
      else mkRangeNode r (map dropMentionChildren children)
  end.

(** The texts of a list of display nodes, concatenated. *)
Definition joinText (nodes : list DisplayNode) : JSString :=
  List.concat (map Display.text nodes).

(** ** The categories of the range filter *)

(** The counter that the callback of [filterAndClean] charges a range to,
    if any: the tests of the callback in their order. *)
Definition categoryOf (range : Proto.IBodyRange) : option CountKey :=
  if negb (isNumber (Proto.start range)) then None
  else if negb (isNumber (Proto.length range)) then None
  else if truthyString (Proto.mentionUuid range) then Some MENTION_NAME
  else if truthyStyle (Proto.style range) then option_map StyleKey (Proto.style range)
  else None.

Definition inCategory (k : CountKey) (range : Proto.IBodyRange) : bool :=
  match categoryOf range with
  | Some k' => CountKey_eqb k' k
  | None => false
  end.

(** ** Which case of [insertRange] applies *)

Definition caseIndex (c : InsertCase) : nat :=
  match c with
  | EndsBefore => 0
  | StartsAfter => 1
  | ContainedBy => 2
  | Contains => 3
  | IntersectsBeginning => 4
  | IntersectsEnding => 5
  end.

(** A case applies when its condition holds and no earlier one does. *)
Definition caseApplies (c : InsertCase) (range : BodyRange RangeData)
    (current : RangeNode) : Prop :=
  caseCondition c range current = true
  /\ forall c', (caseIndex c' < caseIndex c)%nat ->
                caseCondition c' range current = false.

(** ** Occurrences of a string in another *)

Definition occursIn (pat s : JSString) : Prop :=
  exists before after, s = before ++ pat ++ after.

(** What the loop of [collapseRangeTree] keeps true of its state: the
    segments emitted so far spell the text up to the cursor. *)
Definition spelled (text : JSString) (st : CollapseState) : Prop :=
  0 <= offset st /\ joinText (collapsed st) = slice text 0 (offset st).

(** A collapser spells the text it is given. *)
Definition spells
    (recur : PartialDisplayNode -> Z -> JSString -> Completion (list DisplayNode))
  : Prop :=
  forall pd po text, exists nodes,
    recur pd po text = Return nodes /\ joinText nodes = text.

(** ** Sample data *)

Definition formatted (s : Style) (start length : Z) : BodyRange RangeData :=
  mkBodyRange start length (IsFormatting (mkFormatting s None)).

Definition helloWorld : JSString := js "hello world".

(** [hello world] with bold on [0,5) and italic on [3,8), bold first. *)
Definition helloTree : list RangeNode :=
  [mkRangeNode (formatted BOLD 0 5) [mkRangeNode (formatted ITALIC 3 2) []];
   mkRangeNode (formatted ITALIC 5 3) []].

Definition flags (bold italic : option bool) : PartialDisplayNode :=
  Display.mkPartial bold italic None None None None None None.

Definition segment (text : string) (start : Z) (p : PartialDisplayNode)
  : DisplayNode :=
  Display.mkDisplayNode p (js text) start (strlen (js text)) [].

Definition bobMention : HydratedBodyRangeMention :=
  mkBodyRange 2 1 (mkHydratedMention (js "uuid") (js "Bob") (js "conversation")).

(** A range with numbers, without participant and with the style [NONE]. *)
Definition noneRange : Proto.IBodyRange :=
  Proto.mkIBodyRange (Some 0) (Some 1) None (Some (Style_value NONE)).

Definition rawMention (i : nat) : Proto.IBodyRange :=
  Proto.mkIBodyRange (Some (Z.of_nat i)) (Some 1) (Some (js "uuid")) None.

Definition rawBold (i : nat) : Proto.IBodyRange :=
  Proto.mkIBodyRange (Some (Z.of_nat i)) (Some 1) None (Some (Style_value BOLD)).

(** The four segments expected of [hello world]. *)
Definition helloSegments : list DisplayNode :=
  [segment "hel" 0 (flags (Some true) None);
   segment "lo" 3 (flags (Some true) (Some true));
   segment " wo" 5 (flags None (Some true));
   segment "rld" 8 (flags None None)].

(** Markers of the kind the search index puts into a snippet, a snippet cut
    on the left with one highlighted word, and a body it is not part of. *)
Definition leftMarker : JSString := js "<<left>>".
Definition rightMarker : JSString := js "<<right>>".
Definition truncationMarker : JSString := js "<<truncation>>".
Definition foxSnippet : JSString :=
  js "<<truncation>>the <<left>>fox<<right>> jumps".
Definition catBody : JSString := js "a quick brown cat".

(** 300 mentions and 300 bold ranges, interleaved. *)
Definition sixHundred : list Proto.IBodyRange :=
  flat_map (fun i => [rawMention i; rawBold i]) (seq 0 300).

(** * Further functions of the file, and notions to state what they do *)

From Stdlib Require Import Permutation.
From Stdlib Require Sorted.

(** ** [hydrateRanges] *)

(** Of [ConversationType], declared in [ts/state/ducks/conversations], the
    two fields that [hydrateRanges] reads. *)
Module Conversation.
Record ConversationType := mkConversation {
  id : JSString;
  title : JSString;
}.
End Conversation.

(** A range as [hydrateRanges] returns it: the keys it had, and the two keys
    added to a mention. *)
Module Hydrated.
Record HydratedBodyRangeType := mkHydrated {
  range : Proto.IBodyRange;
  conversationID : option JSString;
  replacementText : option JSString;
}.
End Hydrated.

(** The callback given to [map].  [BodyRange.isMention] tests that the key
    [mentionUuid] is there, not that its value is truthy. *)
Definition hydrateRange
    (conversationSelector : JSString -> Conversation.ConversationType)
    (range : Proto.IBodyRange) : Hydrated.HydratedBodyRangeType :=
  match Proto.mentionUuid range with
  | Some mentionUuid =>
      let conversation := conversationSelector mentionUuid in
      Hydrated.mkHydrated range
        (Some (Conversation.id conversation))
        (Some (Conversation.title conversation))
  | None => Hydrated.mkHydrated range None None
  end.

Definition hydrateRanges (ranges : option (list Proto.IBodyRange))
    (conversationSelector : JSString -> Conversation.ConversationType)
  : option (list Hydrated.HydratedBodyRangeType) :=
  match ranges with
  | None => None
  | Some ranges =>
      option_map (map (hydrateRange conversationSelector))
        (filterAndClean (Some ranges))
  end.

(** ** [groupContiguousSpoilers] *)

(** A [DisplayNode] with the key [spoilerChildren], which
    [Display.DisplayNode] leaves out. *)
Unset Elimination Schemes.
Inductive GroupedNode : Type :=
| mkGroupedNode (node : DisplayNode) (spoilerChildren : option (list GroupedNode)).
Set Elimination Schemes.

Definition displayNode (n : GroupedNode) : DisplayNode :=
  match n with mkGroupedNode d _ => d end.
Definition spoilerChildren (n : GroupedNode) : option (list GroupedNode) :=
  match n with mkGroupedNode _ c => c end.

(** Truthiness of an optional boolean. *)
Definition truthyFlag (b : option bool) : bool :=
  match b with Some true => true | _ => false end.

(** [node.isSpoiler] as a condition *)
Definition nodeIsSpoiler (n : GroupedNode) : bool :=
  truthyFlag (Display.isSpoiler (Display.partial (displayNode n))).

(** [node.spoilerId]: a number, or [undefined] when the key is missing or
    holds [undefined]. *)
Definition nodeSpoilerId (n : GroupedNode) : option Z :=
  match Display.spoilerId (Display.partial (displayNode n)) with
  | Some (Some i) => Some i
  | _ => None
  end.

(** [a === b] on values that are numbers or [undefined] *)
Definition strictEq (a b : option Z) : bool :=
  match a, b with
  | Some x, Some y => x =? y
  | None, None => true
  | _, _ => false
  end.

(** [{ ...node, isSpoiler: true, spoilerChildren: [node] }] *)
Definition newContainer (n : GroupedNode) : GroupedNode :=
  let d := displayNode n in
  let p := Display.partial d in
  mkGroupedNode
    (Display.mkDisplayNode
       (Display.mkPartial (Display.isBold p) (Display.isItalic p)
          (Display.isMonospace p) (Some true) (Display.isStrikethrough p)
          (Display.url p) (Display.isKeywordHighlight p) (Display.spoilerId p))
       (Display.text d) (Display.start d) (Display.length d)
       (Display.mentions d))
    (Some [n]).

(** [spoilerContainer.spoilerChildren = [...(spoilerContainer.spoilerChildren || []), node]] *)
Definition addChild (container n : GroupedNode) : GroupedNode :=
  mkGroupedNode (displayNode container)
    (Some (match spoilerChildren container with
           | Some children => children
           | None => []
           end ++ [n])).

(** The state of the loop.  In the source [spoilerContainer], when defined,
    is the last element of [result], and updating it through the variable
    updates that element; here [settled] holds the elements of [result]
    before it and [spoilerContainer] the element itself. *)
Record GroupState := mkGroupState {
  settled : list GroupedNode;
  spoilerContainer : option GroupedNode;
}.

(** The array [result] of a state. *)
Definition resultOf (st : GroupState) : list GroupedNode :=
  settled st ++ match spoilerContainer st with
                | Some c => [c]
                | None => []
                end.

(** The callback of [nodes.forEach]. *)
Definition groupStep (st : GroupState) (n : GroupedNode) : GroupState :=
  if nodeIsSpoiler n then
    let st1 :=
      match spoilerContainer st with
      | Some c =>
          if isNumber (nodeSpoilerId c)
             && strictEq (nodeSpoilerId c) (nodeSpoilerId n)
          then mkGroupState (settled st) (Some (addChild c n))
          else mkGroupState (resultOf st) None
      | None => mkGroupState (resultOf st) None
      end in
    match spoilerContainer st1 with
    | None => mkGroupState (settled st1) (Some (newContainer n))
    | Some _ => st1
    end
  else mkGroupState (resultOf st ++ [n]) None.

Definition groupContiguousSpoilers (nodes : list GroupedNode) : list GroupedNode :=
  resultOf (fold_left groupStep nodes (mkGroupState [] None)).

(** What a node of the output stands for: its [spoilerChildren] when it is a
    spoiler that has them, itself otherwise. *)
Definition ungroup (n : GroupedNode) : list GroupedNode :=
  if nodeIsSpoiler n then
    match spoilerChildren n with
    | Some children => children
    | None => [n]
    end
  else [n].

(** Two spoilers with the same number for [spoilerId]. *)
Definition sameGroup (a b : GroupedNode) : Prop :=
  nodeIsSpoiler a = true /\ nodeIsSpoiler b = true
  /\ exists i, nodeSpoilerId a = Some i /\ nodeSpoilerId b = Some i.

(** No two neighbours of the list are of the same group. *)
Fixpoint groupsApart (l : list GroupedNode) : Prop :=
  match l with
  | [] => True
  | a :: rest =>
      match rest with
      | [] => True
      | b :: _ => ~ sameGroup a b
      end /\ groupsApart rest
  end.

(** ** Subsequences *)

(** [l1] is [l2] with some elements left out. *)
Inductive Subsequence {A} : list A -> list A -> Prop :=
| Subsequence_nil : Subsequence [] []
| Subsequence_keep x l1 l2 : Subsequence l1 l2 -> Subsequence (x :: l1) (x :: l2)
| Subsequence_skip x l1 l2 : Subsequence l1 l2 -> Subsequence l1 (x :: l2).

(** ** The ranges of a tree *)

(** The ranges of a node and of its descendants, parent first, with starts
    made absolute: [off] is the absolute start of the parent. *)
Fixpoint nodeRanges (off : Z) (n : RangeNode) : list (BodyRange RangeData) :=
  match n with
  | mkRangeNode r children =>
      mkBodyRange (off + start r) (length r) (data r)
      :: (fix all (l : list RangeNode) : list (BodyRange RangeData) :=
            match l with
            | [] => []
            | c :: l' => nodeRanges (off + start r) c ++ all l'
            end) children
  end.

Definition forestRanges (off : Z) (tree : list RangeNode)
  : list (BodyRange RangeData) :=
  flat_map (nodeRanges off) tree.

Definition sumLengths (l : list (BodyRange RangeData)) : Z :=
  fold_right (fun r acc => length r + acc) 0 l.

(** A piece of a range placed at [off]: it carries the data of the range
    and lies inside its span. *)
Definition fragmentOf (off : Z) (range f : BodyRange RangeData) : Prop :=
  data f = data range
  /\ off + start range <= start f
  /\ start f + length f <= off + start range + length range.

(** No node of the tree, at any depth, is a mention. *)
Definition mentionFree (tree : list RangeNode) : Prop :=
  Forall (fun r => isMention (data r) = false) (forestRanges 0 tree).

(** The state of the loop of [collapseRangeTree] once the empty space
    before a node, if any, has got its segment. *)
Definition afterGap (parentData : PartialDisplayNode) (parentOffset : Z)
    (text : JSString) (st : CollapseState) (range : RangeNode) : CollapseState :=
  if nodeStart range >? offset st then
    mkCollapseState
      (collapsed st
         ++ [plainSegment parentData parentOffset text st (nodeStart range)])
      (offset st) []
  else st.

(** ** Mentions in a tree and in segments *)

(** The node, or a descendant of it that is not below a mention node, is a
    mention node for [m] of length [l] that starts at [s], in the
    coordinates of the siblings of the node. *)
Fixpoint mentionIn (m : HydratedMention) (s l : Z) (n : RangeNode) : Prop :=
  match n with
  | mkRangeNode r children =>
      (data r = IsMention m /\ start r = s /\ length r = l)
      \/ (isMention (data r) = false
          /\ (fix any (cs : list RangeNode) : Prop :=
                match cs with
                | [] => False
                | c :: cs' => mentionIn m (s - start r) l c \/ any cs'
                end) children)
  end.

Definition mentioned (m : HydratedMention) (s l : Z) (tree : list RangeNode)
  : Prop :=
  Exists (mentionIn m s l) tree.

(** The segment carries a mention for [m] of length [l] whose start,
    counted from the start of the segment, is the position [p], and the
    mention lies inside the segment. *)
Definition attachedTo (m : HydratedMention) (l p : Z) (n : DisplayNode) : Prop :=
  exists e,
    In e (Display.mentions n) /\ data e = m /\ length e = l
    /\ Display.start n + start e = p
    /\ Display.start n <= p /\ p + l <= Display.start n + Display.length n.

(** The mention is among the pending ones of the state. *)
Definition pendingIn (m : HydratedMention) (s l : Z) (st : CollapseState) : Prop :=
  exists e,
    In e (mentions st) /\ data e = m /\ length e = l
    /\ offset st + start e = s /\ offset st <= s.

(** ** Segments that tile a span *)

(** The segments follow one another from [from] to [to] without gap or
    overlap, none is empty, and each is as long as its text. *)
Fixpoint tiles (from to : Z) (nodes : list DisplayNode) : Prop :=
  match nodes with
  | [] => from = to
  | n :: rest =>
      Display.start n = from
      /\ 0 < Display.length n
      /\ Display.length n = strlen (Display.text n)
      /\ tiles (from + Display.length n) to rest
  end.

(** The segment holds position [p]. *)
Definition holds (n : DisplayNode) (p : Z) : Prop :=
  Display.start n <= p < Display.start n + Display.length n.

(** The flags of a partial node that are either missing or [true]. *)
Definition booleanFlags : list (PartialDisplayNode -> option bool) :=
  [Display.isBold; Display.isItalic; Display.isMonospace; Display.isSpoiler;
   Display.isStrikethrough; Display.isKeywordHighlight].

(** Every flag set in [a] is set in [b]. *)
Definition inherits (a b : PartialDisplayNode) : Prop :=
  forall flag, In flag booleanFlags -> flag a = Some true -> flag b = Some true.

(** The flag a range stands for, if any. *)
Definition flagOf (d : RangeData) : option (PartialDisplayNode -> option bool) :=
  match d with
  | IsFormatting f =>
      match style f with
      | BOLD => Some Display.isBold
      | ITALIC => Some Display.isItalic
      | MONOSPACE => Some Display.isMonospace
      | SPOILER => Some Display.isSpoiler
      | STRIKETHROUGH => Some Display.isStrikethrough
      | NONE => None
      end
  | IsDisplayOnly _ => Some Display.isKeywordHighlight
  | _ => None
  end.

(** ** The counters of the range filter *)

(** The categories that [countByTypeRecord] starts with a counter for. *)
Definition counted (k : CountKey) : Prop :=
  k = MENTION_NAME \/ exists member : Style, k = StyleKey (Style_value member).

(** ** The two parts of what the snippet mapper returns *)

(** The highlights alone, as the loop over the matches builds them. *)
Definition highlightRanges (LEFT RIGHT TRUNCATION snippet : JSString)
  : list DisplayBodyRangeType :=
  fst (fold_left (highlightStep LEFT RIGHT TRUNCATION snippet)
         (RegExp.matchAll LEFT RIGHT snippet) ([], 0)).

(** Where the snippet is taken to start in the body: at its first
    occurrence, or at 0 when it does not occur. *)
Definition snippetStartsAt (stripped body : JSString) (offset : Z) : Prop :=
  (exists before after,
      body = before ++ stripped ++ after
      /\ offset = strlen before
      /\ forall before' after',
           body = before' ++ stripped ++ after' -> strlen before <= strlen before')
  \/ (~ occursIn stripped body /\ offset = 0).

(** [r'] is the part of [r] that lies in the body between [lo] and [hi],
    with the data of [r] and in the positions of the snippet as it is
    shown, where the position [lo] of the body is the position [delta]. *)
Definition clippedTo (lo hi delta : Z) (r r' : DisplayBodyRangeType) : Prop :=
  data r' = data r
  /\ start r' = Z.max (start r) lo - lo + delta
  /\ start r' + length r' = Z.min (start r + length r) hi - lo + delta.

(** Of a list of ranges of the body, those that reach into the window from
    [lo] to [hi], each clipped to it, in their order; a range that ends at
    or before [lo] or starts at or after [hi] leaves nothing. *)
Inductive Clipped (lo hi delta : Z)
  : list DisplayBodyRangeType -> list DisplayBodyRangeType -> Prop :=
| Clipped_nil : Clipped lo hi delta [] []
| Clipped_out r rs out :
    start r + length r <= lo \/ hi <= start r ->
    Clipped lo hi delta rs out ->
    Clipped lo hi delta (r :: rs) out
| Clipped_in r r' rs out :
    lo < start r + length r -> start r < hi ->
    clippedTo lo hi delta r r' ->
    Clipped lo hi delta rs out ->
    Clipped lo hi delta (r :: rs) (r' :: out).

(** By how much the start of a highlight is moved when the snippet is cut
    on the left: the truncation marker becomes [TRUNCATION_CHAR]. *)
Definition truncationShift (LEFT RIGHT TRUNCATION snippet : JSString) : Z :=
  if negb (truncationDelta LEFT RIGHT TRUNCATION snippet =? 0)
  then strlen TRUNCATION_CHAR - strlen TRUNCATION
  else 0.

(** Ranges in ascending order that do not overlap: each starts at or after
    [lo] and at or after the end of the one before it. *)
Fixpoint ascendingFrom (lo : Z) (rs : list DisplayBodyRangeType) : Prop :=
  match rs with
  | [] => True
  | r :: rs' => lo <= start r /\ ascendingFrom (start r + length r) rs'
  end.

(** The matches of [matchAll] follow one another: each begins at or after
    [from], its group begins where [left] ends and does not end before it
    begins, and the next match begins after [right], and at least one code
    unit further on. *)
Fixpoint spaced (left right : JSString) (from : Z) (ms : list (Z * Z * Z)) : Prop :=
  match ms with
  | [] => True
  | (w, gs, ge) :: ms' =>
      from <= w /\ gs = w + strlen left /\ gs <= ge
      /\ spaced left right (Z.max (w + 1) (ge + strlen right)) ms'
  end.

(** A highlight for a match: a keyword highlight as long as the group. *)
Definition highlightOf (m : Z * Z * Z) (r : DisplayBodyRangeType) : Prop :=
  data r = IsDisplayOnly (mkDisplayOnly SearchKeywordHighlight)
  /\ length r = snd m - snd (fst m).

(** ** A snippet and its highlighted words *)

(** A snippet as the search index marks it up: texts and highlighted words
    in turn, each word between the two markers, and the text after the
    last word. *)
Fixpoint marked (LEFT RIGHT : JSString) (pieces : list (JSString * JSString))
    (tail : JSString) : JSString :=
  match pieces with
  | [] => tail
  | (text, word) :: pieces' =>
      text ++ LEFT ++ word ++ RIGHT ++ marked LEFT RIGHT pieces' tail
  end.

(** The same texts and words without the markers. *)
Fixpoint unmarked (pieces : list (JSString * JSString)) (tail : JSString)
  : JSString :=
  match pieces with
  | [] => tail
  | (text, word) :: pieces' => text ++ word ++ unmarked pieces' tail
  end.

(** Where the words of [marked] are, when it begins at index [pos]: for
    each word the index of its left marker and the two ends of the word. *)
Fixpoint markedAt (LEFT RIGHT : JSString) (pos : Z)
    (pieces : list (JSString * JSString)) : list (Z * Z * Z) :=
  match pieces with
  | [] => []
  | (text, word) :: pieces' =>
      let whole := pos + strlen text in
      (whole, whole + strlen LEFT, whole + strlen LEFT + strlen word)
      :: markedAt LEFT RIGHT
           (whole + strlen LEFT + strlen word + strlen RIGHT) pieces'
  end.

(** A marker at a place where the snippet is cut, nothing where it is not. *)
Definition cutMarker (cut : bool) (marker : JSString) : JSString :=
  if cut then marker else [].

(** A snippet cut on the left, on the right, on both sides or not at all,
    with its highlighted words marked. *)
Definition markedSnippet (LEFT RIGHT TRUNCATION : JSString) (cutLeft cutRight : bool)
    (pieces : list (JSString * JSString)) (tail : JSString) : JSString :=
  cutMarker cutLeft TRUNCATION ++ marked LEFT RIGHT pieces tail
    ++ cutMarker cutRight TRUNCATION.

(** A highlight that spans the word of a piece in the snippet as shown. *)
Definition highlightsWord (shown : JSString) (piece : JSString * JSString)
    (r : DisplayBodyRangeType) : Prop :=
  data r = IsDisplayOnly (mkDisplayOnly SearchKeywordHighlight)
  /\ slice shown (start r) (start r + length r) = snd piece.

(** ** More sample data *)

(** A range whose style is the number 6, which no member of [Style] has,
    and 300 of them. *)
Definition rawUnknown (i : nat) : Proto.IBodyRange :=
  Proto.mkIBodyRange (Some (Z.of_nat i)) (Some 1) None (Some 6).

Definition manyUnknown : list Proto.IBodyRange := map rawUnknown (seq 0 300).

(** 250 mentions of one participant, then one of another. *)
Definition lateMention : Proto.IBodyRange :=
  Proto.mkIBodyRange (Some 250) (Some 1) (Some (js "late")) None.

Definition manyMentions : list Proto.IBodyRange :=
  map rawMention (seq 0 250) ++ [lateMention].

Definition spoilerSegment (text : string) (start : Z) (spoilerId : option Z)
  : GroupedNode :=
  mkGroupedNode
    (Display.mkDisplayNode
       (Display.mkPartial None None None (Some true) None None None (Some spoilerId))
       (js text) start (strlen (js text)) [])
    None.

Definition titleIsUuid (uuid : JSString) : Conversation.ConversationType :=
  Conversation.mkConversation uuid uuid.

Definition titleUnlessLate (uuid : JSString) : Conversation.ConversationType :=
  if startsWith (js "late") uuid then Conversation.mkConversation [] []
  else Conversation.mkConversation uuid uuid.

(** [a bc d] with a mention on the [b] inside a bold range on [bc]. *)
Definition mentionTree : list RangeNode :=
  [mkRangeNode (formatted BOLD 2 2)
     [mkRangeNode (mkBodyRange 0 1 (IsMention (data bobMention))) []]].

Definition aliceMention : HydratedBodyRangeMention :=
  mkBodyRange 0 1 (mkHydratedMention (js "other") (js "Alice") (js "conversation")).

Definition quickSnippet : JSString := js "<<left>>quick<<right>> brown".

(** A snippet cut on both sides with two highlighted words. *)
Definition foxPieces : list (JSString * JSString) :=
  [(js "the ", js "quick"); (js " brown ", js "fox")].

(** * Theorems *)

(** ** Range trees *)

Lemma RangeTree_ind (P : RangeNode -> Prop) :
  (forall r rs, Forall P rs -> P (mkRangeNode r rs)) ->
  forall t, Forall P t.
Proof.
  intros H t. induction t as [|n t IH]; constructor.
  - apply RangeNode_ind. exact H.
  - exact IH.
Qed.

Lemma wellFormedNode_unfold r children :
  wellFormedNode (mkRangeNode r children)
  <-> sortedFrom 0 children /\ within (length r) children
      /\ Forall wellFormedNode children.
Proof.
  simpl.
  assert (E : forall l,
             (fix all (l : list RangeNode) : Prop :=
                match l with
                | [] => True
                | c :: l' => wellFormedNode c /\ all l'
                end) l <-> Forall wellFormedNode l).
  { induction l as [|c l IH]; simpl.
    - split; auto.
    - rewrite IH. split.
      + intros [? ?]; constructor; assumption.
      + intros H; inversion H; auto. }
  rewrite E. tauto.
Qed.

Lemma covers_unfold d p r children :
  covers d p (mkRangeNode r children)
  <-> (start r <= p < start r + length r /\ data r = d)
      \/ covered d (p - start r) children.
Proof.
  simpl. unfold covered.
  assert (E : forall l q,
             (fix any (l : list RangeNode) : Prop :=
                match l with
                | [] => False
                | c :: l' => covers d q c \/ any l'
                end) l <-> Exists (covers d q) l).
  { induction l as [|c l IH]; intros q; simpl.
    - split; [tauto | intros H; inversion H].
    - rewrite IH. split.
      + intros [?|?]; [left | right]; assumption.
      + intros H; inversion H; auto. }
  rewrite E. tauto.
Qed.

(** ** [insertRange] *)

Lemma insertChildren_eq current range :
  insertChildren current range = insertRange range (ranges current).
Proof.
  destruct current as [r children]. simpl.
  revert range. induction children as [|c rest IH]; intros range.
  - reflexivity.
  - unfold insertRange_cases. rewrite !IH. reflexivity.
Qed.

(** The recursion of [insertRange] as the source has it. *)
Lemma insertRange_cons range current rest :
  insertRange range (current :: rest)
  = insertRange_cases (fun r => insertRange r (ranges current))
      (fun r => insertRange r rest) range current rest.
Proof.
  simpl. unfold insertRange_cases. rewrite !insertChildren_eq. reflexivity.
Qed.

(** [insertRange] dispatches on the first case whose condition holds. *)
Lemma insertRange_dispatch range current rest :
  insertRange range (current :: rest)
  = insertRange_by_case (applicableCase range current) range current rest.
Proof.
  rewrite insertRange_cons.
  unfold insertRange_cases, applicableCase, insertCases, insertRange_by_case.
  cbn [find caseCondition].
  destruct (start range + length range <=? nodeStart current); [reflexivity|].
  destruct (start range >=? nodeStart current + nodeLength current); [reflexivity|].
  destruct ((start range >=? nodeStart current)
            && (start range + length range <=? nodeStart current + nodeLength current)).
  { cbn. destruct (insertRange _ (ranges current)); reflexivity. }
  destruct ((start range <? nodeStart current)
            && (start range + length range >? nodeStart current + nodeLength current)).
  { cbn. destruct (insertRange _ (ranges current)); reflexivity. }
  destruct ((start range <? nodeStart current)
            && (start range + length range <=? nodeStart current + nodeLength current)).
  { cbn. destruct (insertRange _ (ranges current)); reflexivity. }
  destruct ((start range >=? nodeStart current)
            && (start range + length range >? nodeStart current + nodeLength current)).
  { cbn. destruct (insertRange _ (ranges current)); reflexivity. }
  reflexivity.
Qed.

(** Some case always applies: the conditions of the last four cases exhaust
    the ways two integers compare with two others. *)
Lemma applicableCase_some range current :
  exists c, applicableCase range current = Some c.
Proof.
  unfold applicableCase, insertCases. cbn [find caseCondition].
  destruct (start range + length range <=? nodeStart current) eqn:E1; [eauto|].
  destruct (start range >=? nodeStart current + nodeLength current) eqn:E2; [eauto|].
  destruct (start range >=? nodeStart current) eqn:E3;
    destruct (start range + length range <=? nodeStart current + nodeLength current) eqn:E4;
    destruct (start range <? nodeStart current) eqn:E5;
    destruct (start range + length range >? nodeStart current + nodeLength current) eqn:E6;
    cbn; eauto; exfalso; lia.
Qed.

(** What is known of the bounds once a case applies: its own condition and
    the failure of the conditions before it. *)
Lemma applicableCase_bounds range current c :
  applicableCase range current = Some c ->
  let rs := start range in
  let re := start range + length range in
  let cs := nodeStart current in
  let ce := nodeStart current + nodeLength current in
  match c with
  | EndsBefore => re <= cs
  | StartsAfter => cs < re /\ ce <= rs
  | ContainedBy => cs < re /\ rs < ce /\ cs <= rs /\ re <= ce
  | Contains => cs < re /\ rs < ce /\ rs < cs /\ ce < re
  | IntersectsBeginning => cs < re /\ rs < ce /\ rs < cs /\ re <= ce
  | IntersectsEnding => cs < re /\ rs < ce /\ cs <= rs /\ ce < re
  end.
Proof.
  unfold applicableCase, insertCases. cbn [find caseCondition].
  destruct (start range + length range <=? nodeStart current) eqn:E1.
  { intros [= <-]. cbn. lia. }
  destruct (start range >=? nodeStart current + nodeLength current) eqn:E2.
  { intros [= <-]. cbn. lia. }
  destruct (start range >=? nodeStart current) eqn:E3;
    destruct (start range + length range <=? nodeStart current + nodeLength current) eqn:E4;
    destruct (start range <? nodeStart current) eqn:E5;
    destruct (start range + length range >? nodeStart current + nodeLength current) eqn:E6;
    cbn; intros [= <-]; cbn; lia.
Qed.

(** Induction over a forest the way [insertRange] and [collapseRangeTree]
    recurse: into the children of the first node and into the rest. *)
Lemma forest_ind (Q : list RangeNode -> Prop) :
  Q [] ->
  (forall current rest, Q (ranges current) -> Q rest -> Q (current :: rest)) ->
  forall tree, Q tree.
Proof.
  intros Hnil Hcons.
  assert (step : forall l, Forall (fun n => Q (ranges n)) l -> Q l).
  { induction 1; auto. }
  intros tree. apply step. apply RangeTree_ind.
  intros r rs H. simpl. auto.
Qed.

Lemma bind_Return_inv {A B} (c : Completion A) (k : A -> Completion B) b :
  bind c k = Return b -> exists a, c = Return a /\ k a = Return b.
Proof. destruct c; simpl; [eauto | discriminate]. Qed.

Ltac bind_inv H :=
  let a := fresh "t" in
  let E := fresh "E" in
  apply bind_Return_inv in H; destruct H as (a & E & H).

(** [insertRange] returns a tree whatever the integers it is given. *)
Lemma insertRange_returns tree :
  forall range, exists tree', insertRange range tree = Return tree'.
Proof.
  induction tree as [|current rest IHc IHr] using forest_ind; intros range.
  - simpl. eauto.
  - rewrite insertRange_dispatch.
    destruct (applicableCase_some range current) as [c ->].
    unfold insertRange_by_case.
    destruct c; cbn;
      repeat match goal with
        | |- context [insertRange ?r (ranges current)] =>
            let t := fresh "t" in
            destruct (IHc r) as [t ->]; cbn
        | |- context [insertRange ?r rest] =>
            let t := fresh "t" in
            destruct (IHr r) as [t ->]; cbn
        end; eauto.
Qed.

Lemma sortedFrom_cons lo n rest :
  sortedFrom lo (n :: rest)
  <-> lo <= nodeStart n /\ 0 <= nodeLength n /\ sortedFrom (nodeEnd n) rest.
Proof. reflexivity. Qed.

Lemma within_cons hi n rest :
  within hi (n :: rest) <-> nodeEnd n <= hi /\ within hi rest.
Proof.
  unfold within. split.
  - intros H; inversion H; auto.
  - intros [? ?]; constructor; assumption.
Qed.

Lemma wellFormedNode_leaf r : wellFormedNode (mkRangeNode r []).
Proof. apply wellFormedNode_unfold. repeat split; constructor. Qed.

Lemma wellFormedNode_children current :
  wellFormedNode current
  <-> sortedFrom 0 (ranges current) /\ within (nodeLength current) (ranges current)
      /\ Forall wellFormedNode (ranges current).
Proof. destruct current as [r children]. apply wellFormedNode_unfold. Qed.

(** The invariant of the builder, for siblings that start at or after [lo]:
    the result is again sorted from [lo] and well formed below, and it stays
    below every bound that holds of the range and of the tree. *)
Ltac bounds_tac :=
  unfold nodeEnd, nodeStart, nodeLength in *;
  cbn [nodeRange start length data] in *;
  try lia; try assumption.

Ltac sorted_tac :=
  cbn [sortedFrom]; unfold nodeEnd, nodeStart, nodeLength in *;
  cbn [nodeRange start length data] in *;
  repeat match goal with |- _ /\ _ => split end;
  try lia; try assumption.

Ltac within_tac :=
  repeat (apply within_cons; split);
  try assumption; bounds_tac.

Lemma insertRange_preserves tree :
  forall range lo tree',
    lo <= start range -> 0 <= length range ->
    sortedFrom lo tree -> Forall wellFormedNode tree ->
    insertRange range tree = Return tree' ->
    (sortedFrom lo tree' /\ Forall wellFormedNode tree')
    /\ (forall hi, start range + length range <= hi ->
                   within hi tree -> within hi tree').
Proof.
  induction tree as [|current rest IHc IHr] using forest_ind;
    intros range lo tree' Hlo Hlen Hsorted Hwf H.
  - simpl in H. injection H as <-. split; [split|].
    + simpl. auto.
    + constructor; [apply wellFormedNode_leaf | constructor].
    + intros hi Hhi _. constructor; [exact Hhi | constructor].
  - rewrite insertRange_dispatch in H.
    destruct (applicableCase range current) as [c|] eqn:Ec;
      [|discriminate].
    apply applicableCase_bounds in Ec. cbv zeta in Ec.
    apply sortedFrom_cons in Hsorted. destruct Hsorted as (Hs1 & Hs2 & Hs3).
    inversion Hwf as [|? ? Hwfc Hwfr]; subst.
    apply wellFormedNode_children in Hwfc. destruct Hwfc as (Hc1 & Hc2 & Hc3).
    unfold nodeEnd in Hs3.
    unfold insertRange_by_case in H.
    destruct c; cbn in H.
    + (* ends before current starts *)
      injection H as <-. split; [split|].
      * sorted_tac.
      * constructor; [apply wellFormedNode_leaf | assumption].
      * intros hi Hhi Hw. apply within_cons. split; [exact Hhi | exact Hw].
    + (* starts after current one ends *)
      bind_inv H. injection H as <-.
      eapply (IHr _ (nodeStart current + nodeLength current)) in E;
        [destruct E as ((R1 & R2) & R3) | simpl; try lia; assumption ..].
      split; [split|].
      * sorted_tac.
      * constructor; [|assumption].
        apply wellFormedNode_children. auto.
      * intros hi Hhi Hw. apply within_cons in Hw. destruct Hw.
        apply within_cons. auto.
    + (* range is contained by first *)
      bind_inv H. bind_inv E. injection E as <-. injection H as <-.
      eapply (IHc _ 0) in E0;
        [destruct E0 as ((R1 & R2) & R3) | simpl; try lia; assumption ..].
      split; [split|].
      * sorted_tac.
      * constructor; [|assumption].
        apply wellFormedNode_unfold. repeat split; try assumption.
        apply R3; [bounds_tac | exact Hc2].
      * intros hi Hhi Hw. apply within_cons in Hw. destruct Hw.
        within_tac.
    + (* range contains first *)
      bind_inv H. bind_inv E. injection E as <-.
      bind_inv H. injection H as <-.
      eapply (IHc _ 0) in E0;
        [destruct E0 as ((R1 & R2) & R3) | simpl; try lia; assumption ..].
      eapply (IHr _ (nodeStart current + nodeLength current)) in E;
        [destruct E as ((S1 & S2) & S3) | simpl; try lia; assumption ..].
      split; [split|].
      * sorted_tac.
      * constructor; [apply wellFormedNode_leaf|].
        constructor; [|assumption].
        apply wellFormedNode_unfold. repeat split; try assumption.
        apply R3; [bounds_tac | exact Hc2].
      * intros hi Hhi Hw. apply within_cons in Hw. destruct Hw as [Hw1 Hw2].
        specialize (S3 hi). cbn [start length] in S3.
        within_tac. apply S3; [lia | assumption].
    + (* range intersects beginning *)
      bind_inv H. bind_inv E. injection E as <-. injection H as <-.
      eapply (IHc _ 0) in E0;
        [destruct E0 as ((R1 & R2) & R3) | simpl; try lia; assumption ..].
      split; [split|].
      * sorted_tac.
      * constructor; [apply wellFormedNode_leaf|].
        constructor; [|assumption].
        apply wellFormedNode_unfold. repeat split; try assumption.
        apply R3; [bounds_tac | exact Hc2].
      * intros hi Hhi Hw. apply within_cons in Hw. destruct Hw as [Hw1 Hw2].
        within_tac.
    + (* range intersects ending *)
      bind_inv H. bind_inv E. injection E as <-.
      bind_inv H. injection H as <-.
      eapply (IHc _ 0) in E0;
        [destruct E0 as ((R1 & R2) & R3) | simpl; try lia; assumption ..].
      eapply (IHr _ (nodeStart current + nodeLength current)) in E;
        [destruct E as ((S1 & S2) & S3) | simpl; try lia; assumption ..].
      split; [split|].
      * sorted_tac.
      * constructor; [|assumption].
        apply wellFormedNode_unfold. repeat split; try assumption.
        apply R3; [bounds_tac | exact Hc2].
      * intros hi Hhi Hw. apply within_cons in Hw. destruct Hw as [Hw1 Hw2].
        specialize (S3 hi). cbn [start length] in S3.
        within_tac. apply S3; [lia | assumption].
Qed.

(** *** Coverage is kept and extended by the builder *)

Lemma covered_cons d p n rest :
  covered d p (n :: rest) <-> covers d p n \/ covered d p rest.
Proof. unfold covered. apply Exists_cons. Qed.

Lemma covers_leaf (r : BodyRange RangeData) p :
  start r <= p < start r + length r -> covers (data r) p (mkRangeNode r []).
Proof. intros H. apply covers_unfold. left. auto. Qed.

Lemma covers_new_children current inner d p :
  (forall q, covered d q (ranges current) -> covered d q inner) ->
  covers d p current -> covers d p (mkRangeNode (nodeRange current) inner).
Proof.
  destruct current as [r children]. simpl. intros H Hc.
  apply covers_unfold in Hc. apply covers_unfold.
  destruct Hc as [Hc|Hc]; [left; exact Hc | right; apply H; exact Hc].
Qed.

Lemma covers_in_children current inner d p :
  covered d (p - nodeStart current) inner ->
  covers d p (mkRangeNode (nodeRange current) inner).
Proof. intros H. apply covers_unfold. right. exact H. Qed.

Lemma insertRange_covers tree :
  forall range tree',
    insertRange range tree = Return tree' ->
    (forall d p, covered d p tree -> covered d p tree')
    /\ (forall p, start range <= p < start range + length range ->
                  covered (data range) p tree').
Proof.
  induction tree as [|current rest IHc IHr] using forest_ind;
    intros range tree' H.
  - simpl in H. injection H as <-. split.
    + intros d p Hc. inversion Hc.
    + intros p Hp. apply covered_cons. left. apply covers_leaf. exact Hp.
  - rewrite insertRange_dispatch in H.
    destruct (applicableCase range current) as [c|] eqn:Ec;
      [|discriminate].
    apply applicableCase_bounds in Ec. cbv zeta in Ec.
    unfold insertRange_by_case in H.
    destruct c; cbn in H.
    + injection H as <-. split.
      * intros d p Hc. apply covered_cons. right. exact Hc.
      * intros p Hp. apply covered_cons. left. apply covers_leaf. exact Hp.
    + bind_inv H. injection H as <-.
      apply IHr in E. destruct E as [K N]. split.
      * intros d p Hc. apply covered_cons in Hc. apply covered_cons.
        destruct Hc; auto.
      * intros p Hp. apply covered_cons. right. auto.
    + bind_inv H. bind_inv E. injection E as <-. injection H as <-.
      apply IHc in E0. destruct E0 as [K N]. cbn [start length data] in N.
      split.
      * intros d p Hc. apply covered_cons in Hc. apply covered_cons.
        destruct Hc; [left | right; assumption].
        apply covers_new_children; auto.
      * intros p Hp. apply covered_cons. left.
        apply covers_in_children. apply N. lia.
    + bind_inv H. bind_inv E. injection E as <-.
      bind_inv H. injection H as <-.
      apply IHc in E0. destruct E0 as [K N]. cbn [start length data] in N.
      apply IHr in E. destruct E as [K' N']. cbn [start length data] in N'.
      split.
      * intros d p Hc. apply covered_cons in Hc.
        apply covered_cons. right. apply covered_cons.
        destruct Hc; [left | right; auto].
        apply covers_new_children; auto.
      * intros p Hp.
        destruct (Z_lt_ge_dec p (nodeStart current)) as [L|G].
        { apply covered_cons. left. apply (covers_leaf
            (mkBodyRange (start range) (nodeStart current - start range)
               (data range))). simpl. lia. }
        apply covered_cons. right. apply covered_cons.
        destruct (Z_lt_ge_dec p (nodeStart current + nodeLength current)).
        { left. apply covers_in_children. apply N. lia. }
        right. apply N'. lia.
    + bind_inv H. bind_inv E. injection E as <-. injection H as <-.
      apply IHc in E0. destruct E0 as [K N]. cbn [start length data] in N.
      split.
      * intros d p Hc. apply covered_cons in Hc.
        apply covered_cons. right. apply covered_cons.
        destruct Hc; [left | right; auto].
        apply covers_new_children; auto.
      * intros p Hp.
        destruct (Z_lt_ge_dec p (nodeStart current)) as [L|G].
        { apply covered_cons. left. apply (covers_leaf
            (mkBodyRange (start range) (nodeStart current - start range)
               (data range))). simpl. lia. }
        apply covered_cons. right. apply covered_cons.
        left. apply covers_in_children. apply N. lia.
    + bind_inv H. bind_inv E. injection E as <-.
      bind_inv H. injection H as <-.
      apply IHc in E0. destruct E0 as [K N]. cbn [start length data] in N.
      apply IHr in E. destruct E as [K' N']. cbn [start length data] in N'.
      split.
      * intros d p Hc. apply covered_cons in Hc. apply covered_cons.
        destruct Hc; [left | right; auto].
        apply covers_new_children; auto.
      * intros p Hp. apply covered_cons.
        destruct (Z_lt_ge_dec p (nodeStart current + nodeLength current)).
        { left. apply covers_in_children. apply N. lia. }
        right. apply N'. lia.
Qed.

Lemma insertRanges_app rs1 rs2 tree :
  insertRanges (rs1 ++ rs2) tree
  = (t <- insertRanges rs1 tree ;; insertRanges rs2 t).
Proof.
  unfold insertRanges. rewrite fold_left_app.
  generalize (fold_left (fun acc r => t <- acc;; insertRange r t) rs1 (Return tree)).
  intros c. destruct c as [t|m]; [reflexivity|].
  simpl. induction rs2 as [|r rs2 IH]; [reflexivity | exact IH].
Qed.

Lemma insertRanges_cons r rs tree :
  insertRanges (r :: rs) tree = (t <- insertRange r tree ;; insertRanges rs t).
Proof. apply (insertRanges_app [r] rs tree). Qed.

(** Inserting a whole sequence returns a tree in which everything covered
    before is still covered, and every range of the sequence is. *)
Lemma insertRanges_covers rs :
  forall tree, exists tree',
    insertRanges rs tree = Return tree'
    /\ (forall d p, covered d p tree -> covered d p tree')
    /\ (forall r p, In r rs -> start r <= p < start r + length r ->
                    covered (data r) p tree').
Proof.
  induction rs as [|r rs IH]; intros tree.
  - exists tree. split; [reflexivity|]. split; [auto|].
    intros r p [].
  - rewrite insertRanges_cons.
    destruct (insertRange_returns tree r) as [t Et]. rewrite Et. cbn.
    destruct (IH t) as (tree' & E & K & N).
    apply insertRange_covers in Et. destruct Et as [K0 N0].
    exists tree'. split; [exact E|]. split.
    + auto.
    + intros r' p [<-|Hin] Hp; [apply K, N0, Hp | eapply N; eauto].
Qed.

(** ** Slices *)

Lemma firstn_then_skipn {A} (n m : nat) (l : list A) :
  firstn n l ++ firstn m (skipn n l) = firstn (n + m) l.
Proof.
  revert l. induction n as [|n IH]; intros l; [reflexivity|].
  destruct l as [|x l]; simpl.
  - rewrite firstn_nil. reflexivity.
  - rewrite IH. reflexivity.
Qed.

(** With indices that are not negative, a slice is the code units between
    the two indices, both cut off at the end of the string. *)
Lemma slice_nonneg s a b :
  0 <= a -> 0 <= b ->
  slice s a b
  = firstn (Nat.min (Z.to_nat b) (List.length s) - Nat.min (Z.to_nat a) (List.length s))
      (skipn (Nat.min (Z.to_nat a) (List.length s)) s).
Proof.
  intros Ha Hb. unfold slice, relIndex, strlen.
  destruct (Z.ltb_spec a 0); [lia|]. destruct (Z.ltb_spec b 0); [lia|].
  f_equal; [|f_equal]; lia.
Qed.

Lemma slice_app s a b c :
  0 <= a <= b -> b <= c -> slice s a b ++ slice s b c = slice s a c.
Proof.
  intros Hab Hbc. rewrite !slice_nonneg by lia.
  set (na := Nat.min (Z.to_nat a) (List.length s)).
  set (nb := Nat.min (Z.to_nat b) (List.length s)).
  set (nc := Nat.min (Z.to_nat c) (List.length s)).
  assert (na <= nb <= nc)%nat by (subst na nb nc; lia).
  replace (skipn nb s) with (skipn (nb - na) (skipn na s))
    by (rewrite skipn_skipn; f_equal; lia).
  rewrite firstn_then_skipn. f_equal. lia.
Qed.

Lemma slice_all s b : strlen s <= b -> slice s 0 b = s.
Proof.
  intros H. unfold strlen in H. rewrite slice_nonneg by lia.
  replace (Nat.min (Z.to_nat 0) (List.length s)) with 0%nat by lia.
  replace (Nat.min (Z.to_nat b) (List.length s)) with (List.length s) by lia.
  rewrite Nat.sub_0_r. simpl. apply firstn_all.
Qed.

Lemma slice_empty s a : 0 <= a -> slice s a a = [].
Proof.
  intros H. rewrite slice_nonneg by lia. rewrite Nat.sub_diag. reflexivity.
Qed.

(** ** [collapseRangeTree] *)

Lemma collapseChildren_eq range parentData parentOffset text :
  collapseChildren range parentData parentOffset text
  = collapseRangeTree parentData parentOffset text (ranges range).
Proof.
  destruct range as [r children]. reflexivity.
Qed.

Lemma collapseLoop_cons parentData parentOffset text range tree st :
  collapseLoop parentData parentOffset text (range :: tree) (Return st)
  = collapseLoop parentData parentOffset text tree
      (collapseStep (collapseChildren range) parentData parentOffset text st range).
Proof. reflexivity. Qed.

Lemma collapseLoop_Throw parentData parentOffset text tree m :
  collapseLoop parentData parentOffset text tree (Throw m) = Throw m.
Proof. induction tree as [|n tree IH]; [reflexivity | exact IH]. Qed.

(** The exhaustiveness failures of [rangeToPartialNode] are out of reach of
    every range that is not a mention. *)
Lemma rangeToPartialNode_returns d :
  isMention d = false -> exists p, rangeToPartialNode d = Return p.
Proof.
  destruct d as [m|l|f|o]; simpl; intros H.
  - discriminate.
  - eauto.
  - destruct f as [[] sp]; cbn; eauto.
  - destruct o as [[]]. cbn. eauto.
Qed.

Lemma joinText_app a b : joinText (a ++ b) = joinText a ++ joinText b.
Proof. unfold joinText. rewrite map_app. apply concat_app. Qed.

Lemma joinText_single n : joinText [n] = Display.text n.
Proof. unfold joinText. simpl. apply app_nil_r. Qed.

Lemma collapseStep_spelled recur parentData parentOffset text st range lo :
  (isMention (nodeData range) = false -> spells recur) ->
  lo <= nodeStart range -> 0 <= nodeLength range ->
  offset st <= lo -> spelled text st ->
  exists st',
    collapseStep recur parentData parentOffset text st range = Return st'
    /\ offset st' <= nodeEnd range /\ spelled text st'.
Proof.
  intros Hrec Hlo Hlen Hoff [Hpos Hjoin].
  unfold collapseStep.
  destruct (nodeData range) as [m|l|f|o] eqn:Ed.
  1: { eexists. split; [reflexivity|]. unfold nodeEnd, spelled. simpl.
       split; [lia | auto]. }
  all: match goal with
       | |- context [rangeToPartialNode ?d] =>
           destruct (rangeToPartialNode_returns d eq_refl) as [own ->]
       end;
    cbn [bind];
    destruct (Hrec eq_refl (spread parentData own) (nodeStart range + parentOffset)
                (slice text (nodeStart range) (nodeStart range + nodeLength range)))
      as (inner & -> & Hinner);
    cbn [bind];
    eexists; (split; [reflexivity|]); unfold nodeEnd, spelled;
    cbn [offset collapsed];
    (split; [lia|]); (split; [lia|]);
    rewrite joinText_app, Hinner;
    destruct (Z.gtb_spec (nodeStart range) (offset st)); cbn [collapsed];
    [ rewrite joinText_app, joinText_single, Hjoin;
      unfold plainSegment; cbn [Display.text];
      rewrite !slice_app by lia; reflexivity
    | rewrite Hjoin; replace (offset st) with (nodeStart range) by lia;
      apply slice_app; lia ].
Qed.

Lemma collapseLoop_spelled tree :
  Forall (fun n => wellFormedNode n -> spells (collapseChildren n)) tree ->
  forall parentData parentOffset text lo st,
    sortedFrom lo tree -> Forall wellFormedNode tree ->
    offset st <= lo -> spelled text st ->
    exists st',
      collapseLoop parentData parentOffset text tree (Return st) = Return st'
      /\ spelled text st'.
Proof.
  induction 1 as [|n tree Hn _ IH];
    intros parentData parentOffset text lo st Hsorted Hwf Hoff Hst.
  - exists st. split; [reflexivity | exact Hst].
  - rewrite collapseLoop_cons.
    apply sortedFrom_cons in Hsorted. destruct Hsorted as (Hlo & Hlen & Hrest).
    inversion Hwf as [|? ? Hwfn Hwft]; subst.
    destruct (@collapseStep_spelled (collapseChildren n) parentData parentOffset
                text st n lo (fun _ => Hn Hwfn) Hlo Hlen Hoff Hst)
      as (st1 & -> & Hoff1 & Hst1).
    eapply IH; eauto.
Qed.

Lemma collapseFinish_spelled parentData parentOffset text st :
  spelled text st ->
  joinText (collapseFinish parentData parentOffset text st) = text.
Proof.
  intros [Hpos Hjoin]. unfold collapseFinish.
  destruct (Z.gtb_spec (strlen text) (offset st)).
  - rewrite joinText_app, joinText_single, Hjoin.
    unfold plainSegment; cbn [Display.text].
    rewrite slice_app by lia. apply slice_all. lia.
  - rewrite Hjoin. apply slice_all. lia.
Qed.

Lemma spelled_init text : spelled text collapseInit.
Proof.
  unfold spelled, collapseInit. cbn [offset collapsed].
  split; [lia|]. rewrite slice_empty by lia. reflexivity.
Qed.

Lemma collapseRangeTree_spells_from tree :
  Forall (fun n => wellFormedNode n -> spells (collapseChildren n)) tree ->
  sortedFrom 0 tree -> Forall wellFormedNode tree ->
  spells (fun pd po text => collapseRangeTree pd po text tree).
Proof.
  intros Hall Hsorted Hwf pd po text. unfold collapseRangeTree.
  assert (H0 : offset collapseInit <= 0) by (cbn; lia).
  destruct (@collapseLoop_spelled tree Hall pd po text 0 collapseInit
              Hsorted Hwf H0 (spelled_init text))
    as (st & -> & Hst).
  cbn [bind]. eexists. split; [reflexivity|].
  apply collapseFinish_spelled. exact Hst.
Qed.

Lemma collapseChildren_spells n :
  wellFormedNode n -> spells (collapseChildren n).
Proof.
  induction n as [r children IH] using RangeNode_ind. intros Hwf.
  apply wellFormedNode_unfold in Hwf. destruct Hwf as (Hsorted & _ & Hwf).
  intros pd po text. rewrite collapseChildren_eq. cbn [ranges].
  apply (@collapseRangeTree_spells_from children IH Hsorted Hwf).
Qed.

(** ** Mention nodes *)

Lemma dropMentionChildren_range n :
  nodeRange (dropMentionChildren n) = nodeRange n.
Proof. destruct n as [r children]. simpl. destruct (isMention (data r)); reflexivity. Qed.

(** The step of the loop looks at a node's own range and, unless the node
    is a mention, at what the recursive call makes of it. *)
Lemma collapseStep_ext recur recur' parentData parentOffset text st n n' :
  nodeRange n' = nodeRange n ->
  (isMention (nodeData n) = false -> forall pd po t, recur' pd po t = recur pd po t) ->
  collapseStep recur' parentData parentOffset text st n'
  = collapseStep recur parentData parentOffset text st n.
Proof.
  intros Hr Hrec. unfold collapseStep, nodeData, nodeStart, nodeLength in *.
  rewrite Hr.
  destruct (data (nodeRange n)) as [m|l|f|o]; [reflexivity| | |];
    match goal with
    | |- context [rangeToPartialNode ?d] => destruct (rangeToPartialNode d)
    end;
    cbn [bind]; try rewrite (Hrec eq_refl); reflexivity.
Qed.

Lemma collapseLoop_dropMentionChildren tree :
  Forall (fun n => forall pd po t st,
            collapseStep (collapseChildren (dropMentionChildren n)) pd po t st
              (dropMentionChildren n)
            = collapseStep (collapseChildren n) pd po t st n) tree ->
  forall pd po t st,
    collapseLoop pd po t (map dropMentionChildren tree) st
    = collapseLoop pd po t tree st.
Proof.
  induction 1 as [|n tree Hn _ IH]; intros pd po t st; [reflexivity|].
  destruct st as [s|m].
  - cbn [map]. rewrite !collapseLoop_cons, Hn. apply IH.
  - rewrite !collapseLoop_Throw. reflexivity.
Qed.

Lemma collapseStep_dropMentionChildren n :
  forall pd po t st,
    collapseStep (collapseChildren (dropMentionChildren n)) pd po t st
      (dropMentionChildren n)
    = collapseStep (collapseChildren n) pd po t st n.
Proof.
  induction n as [r children IH] using RangeNode_ind. intros pd po t st.
  apply collapseStep_ext.
  - apply dropMentionChildren_range.
  - unfold nodeData. cbn [nodeRange]. intros Hm pd' po' t'.
    rewrite !collapseChildren_eq. cbn [dropMentionChildren]. rewrite Hm.
    cbn [ranges]. unfold collapseRangeTree.
    rewrite (@collapseLoop_dropMentionChildren children IH). reflexivity.
Qed.

(** ** [filterAndClean] *)

Lemma CountKey_eqb_eq a b : CountKey_eqb a b = true <-> a = b.
Proof.
  destruct a as [|s], b as [|s']; cbn; split; intros H;
    try reflexivity; try discriminate.
  - apply Z.eqb_eq in H. congruence.
  - injection H as ->. apply Z.eqb_refl.
Qed.

Lemma CountKey_eqb_refl a : CountKey_eqb a a = true.
Proof. apply CountKey_eqb_eq. reflexivity. Qed.

Lemma increment_same k counts : increment k counts k = plusOne (counts k).
Proof. unfold increment. rewrite CountKey_eqb_refl. reflexivity. Qed.

Lemma increment_other k k' counts :
  CountKey_eqb k' k = false -> increment k counts k' = counts k'.
Proof. unfold increment. intros ->. reflexivity. Qed.

(** The callback charges the range to its category and keeps it unless the
    counter has gone past the maximum. *)
Lemma filterAndClean_callback_category counts range :
  filterAndClean_callback counts range
  = match categoryOf range with
    | None => (false, counts)
    | Some k =>
        (negb (greaterThan (increment k counts k) MAX_PER_TYPE),
         increment k counts)
    end.
Proof.
  unfold filterAndClean_callback, categoryOf.
  destruct (negb (isNumber (Proto.start range))); [reflexivity|].
  destruct (negb (isNumber (Proto.length range))); [reflexivity|].
  destruct (truthyString (Proto.mentionUuid range)).
  { cbn [option_map]. destruct (greaterThan _ _); reflexivity. }
  destruct (truthyStyle (Proto.style range)); [|reflexivity].
  destruct (Proto.style range) as [s|]; [|reflexivity].
  cbn [option_map]. destruct (greaterThan _ _); reflexivity.
Qed.

(** Of each category the filter keeps the first ones, as many as the
    counter of the category leaves room for; of a category whose counter is
    not a number it keeps all. *)
Lemma filterWithCounts_category k ranges :
  forall counts,
    filter (inCategory k) (filterWithCounts counts ranges)
    = match counts k with
      | number n =>
          firstn (Z.to_nat (MAX_PER_TYPE - n)) (filter (inCategory k) ranges)
      | undefined | NaN => filter (inCategory k) ranges
      end.
Proof.
  induction ranges as [|range rest IH]; intros counts.
  - cbn. destruct (counts k); [reflexivity .. | apply eq_sym, firstn_nil].
  - cbn [filterWithCounts]. rewrite filterAndClean_callback_category.
    cbn [filter].
    assert (Hc : inCategory k range
                 = match categoryOf range with
                   | Some k' => CountKey_eqb k' k
                   | None => false
                   end) by reflexivity.
    destruct (categoryOf range) as [k'|] eqn:Ecat.
    + destruct (CountKey_eqb k' k) eqn:Ek; rewrite Hc.
      * apply CountKey_eqb_eq in Ek. subst k'.
        rewrite increment_same.
        destruct (counts k) as [| |n] eqn:Ec; cbn [plusOne greaterThan negb].
        -- cbn [filter]. rewrite Hc, IH, increment_same, Ec. reflexivity.
        -- cbn [filter]. rewrite Hc, IH, increment_same, Ec. reflexivity.
        -- destruct (Z.gtb_spec (n + 1) MAX_PER_TYPE); cbn [negb].
           ++ rewrite IH, increment_same, Ec. cbn [plusOne].
              replace (Z.to_nat (MAX_PER_TYPE - (n + 1))) with 0%nat by lia.
              replace (Z.to_nat (MAX_PER_TYPE - n)) with 0%nat by lia.
              reflexivity.
           ++ cbn [filter]. rewrite Hc, IH, increment_same, Ec. cbn [plusOne].
              replace (Z.to_nat (MAX_PER_TYPE - n))
                with (S (Z.to_nat (MAX_PER_TYPE - (n + 1)))) by lia.
              reflexivity.
      * assert (Hk : CountKey_eqb k k' = false).
        { destruct (CountKey_eqb k k') eqn:E; [|reflexivity].
          apply CountKey_eqb_eq in E. subst. rewrite CountKey_eqb_refl in Ek.
          discriminate. }
        destruct (negb _); cbn [filter]; [rewrite Hc|];
          rewrite IH, (@increment_other k' k counts Hk); reflexivity.
    + rewrite Hc. apply IH.
Qed.

(** Whatever the filter returns was charged to some category. *)
Lemma filterWithCounts_categorised ranges :
  forall counts range,
    In range (filterWithCounts counts ranges) ->
    In range ranges /\ categoryOf range <> None.
Proof.
  induction ranges as [|r rest IH]; intros counts range Hin; [destruct Hin|].
  cbn [filterWithCounts] in Hin. rewrite filterAndClean_callback_category in Hin.
  destruct (categoryOf r) as [k|] eqn:Ecat.
  - destruct (negb _).
    + destruct Hin as [<-|Hin].
      * split; [left; reflexivity | congruence].
      * apply IH in Hin. split; [right|]; tauto.
    + apply IH in Hin. split; [right|]; tauto.
  - apply IH in Hin. split; [right|]; tauto.
Qed.

(** A list whose elements all fall in one of two categories is as long as
    the two categories together. *)
Lemma length_two_categories k1 k2 (l : list Proto.IBodyRange) :
  k1 <> k2 ->
  Forall (fun r => inCategory k1 r = true \/ inCategory k2 r = true) l ->
  List.length l
  = (List.length (filter (inCategory k1) l) + List.length (filter (inCategory k2) l))%nat.
Proof.
  intros Hne. induction 1 as [|r l Hr _ IH]; [reflexivity|].
  cbn [filter List.length]. rewrite IH.
  assert (Hx : inCategory k1 r = true -> inCategory k2 r = false).
  { unfold inCategory. destruct (categoryOf r) as [k|]; [|discriminate].
    intros H1. apply CountKey_eqb_eq in H1. subst k.
    destruct (CountKey_eqb k1 k2) eqn:E; [|reflexivity].
    apply CountKey_eqb_eq in E. contradiction. }
  destruct (inCategory k1 r) eqn:E1.
  - rewrite (Hx eq_refl). cbn [List.length]. lia.
  - destruct Hr as [Hr|Hr]; [discriminate|]. rewrite Hr. cbn [List.length]. lia.
Qed.

(** ** Literal search *)

Lemma startsWith_prefix pat s :
  startsWith pat s = true <-> exists after, s = pat ++ after.
Proof.
  revert s. induction pat as [|p pat IH]; intros s; simpl.
  - split; [eauto | reflexivity].
  - destruct s as [|c s].
    + split; [discriminate | intros [after H]; discriminate].
    + unfold codeUnit_eqb. rewrite andb_true_iff, N.eqb_eq, IH. split.
      * intros [-> [after ->]]. eauto.
      * intros [after H]. injection H as -> ->. eauto.
Qed.

Lemma exec_from_None pat s :
  forall pos, RegExp.exec_from pat s pos = None <-> ~ occursIn pat s.
Proof.
  induction s as [|c s IH]; intros pos; simpl.
  - destruct (startsWith pat []) eqn:E.
    + split; [discriminate|]. intros H. exfalso. apply H.
      apply startsWith_prefix in E. destruct E as [after E].
      exists [], after. exact E.
    + split; [|reflexivity]. intros _ (before & after & H).
      destruct before; [|discriminate]. simpl in H.
      assert (startsWith pat [] = true) by (apply startsWith_prefix; eauto).
      congruence.
  - destruct (startsWith pat (c :: s)) eqn:E.
    + split; [discriminate|]. intros H. exfalso. apply H.
      apply startsWith_prefix in E. destruct E as [after E].
      exists [], after. exact E.
    + rewrite IH. split.
      * intros H (before & after & Hs). destruct before as [|b before].
        -- simpl in Hs.
           assert (startsWith pat (c :: s) = true) by (apply startsWith_prefix; eauto).
           congruence.
        -- injection Hs as -> ->. apply H. exists before, after. reflexivity.
      * intros H (before & after & ->). apply H.
        exists (c :: before), after. reflexivity.
Qed.

Lemma exec_None pat s : RegExp.exec pat s = None <-> ~ occursIn pat s.
Proof. apply exec_from_None. Qed.

(** ** The cases of [insertRange], one at a time *)

Ltac compare_tac :=
  unfold caseCondition;
  rewrite ?Z.geb_leb, ?Z.gtb_ltb;
  repeat match goal with
    | |- context [?a <=? ?b] => destruct (Z.leb_spec a b)
    | |- context [?a <? ?b] => destruct (Z.ltb_spec a b)
    end;
  cbn; try reflexivity; try discriminate; try lia.

Lemma applicableCase_applies range current c :
  applicableCase range current = Some c -> caseApplies c range current.
Proof.
  intros H. apply applicableCase_bounds in H. cbv zeta in H.
  split.
  - destruct c; compare_tac.
  - intros c' Hlt. destruct c, c'; cbn in Hlt; try lia; compare_tac.
Qed.

Lemma caseIndex_inj c c' : caseIndex c = caseIndex c' -> c = c'.
Proof. destruct c, c'; cbn; intros H; (reflexivity || discriminate). Qed.

Lemma caseApplies_unique range current c c' :
  caseApplies c range current -> caseApplies c' range current -> c = c'.
Proof.
  intros [H1 L1] [H2 L2]. apply caseIndex_inj.
  destruct (Nat.lt_trichotomy (caseIndex c) (caseIndex c')) as [H|[H|H]].
  - apply L2 in H. congruence.
  - exact H.
  - apply L1 in H. congruence.
Qed.

(** ** The embedding on small inputs *)

Example slice_middle : slice (js "hello world") 3 5 = js "lo".
Proof. reflexivity. Qed.

Example slice_past_the_end : slice (js "abc") 1 11 = js "bc".
Proof. reflexivity. Qed.

Example slice_negative : slice (js "abc") (-2) 3 = js "bc".
Proof. reflexivity. Qed.

Example insertRange_intersects_ending :
  insertRange (formatted ITALIC 3 5) [mkRangeNode (formatted BOLD 0 5) []]
  = Return helloTree.
Proof. reflexivity. Qed.

Example insertRange_contains :
  insertRange (formatted ITALIC 0 11) [mkRangeNode (formatted BOLD 3 2) []]
  = Return [mkRangeNode (formatted ITALIC 0 3) [];
            mkRangeNode (formatted BOLD 3 2) [mkRangeNode (formatted ITALIC 0 2) []];
            mkRangeNode (formatted ITALIC 5 6) []].
Proof. reflexivity. Qed.

Example insertRange_touching :
  insertRange (formatted ITALIC 5 3) [mkRangeNode (formatted BOLD 0 5) []]
  = Return [mkRangeNode (formatted BOLD 0 5) [];
            mkRangeNode (formatted ITALIC 5 3) []].
Proof. reflexivity. Qed.

Example removeAll_markers :
  cleanSnippet leftMarker rightMarker foxSnippet = js "<<truncation>>the fox jumps".
Proof. vm_compute. reflexivity. Qed.

Example matchAll_markers :
  RegExp.matchAll leftMarker rightMarker foxSnippet = [(18, 26, 29)].
Proof. vm_compute. reflexivity. Qed.

Example exec_found : RegExp.exec (js "brown") catBody = Some 8.
Proof. vm_compute. reflexivity. Qed.

Example spoiler_then_mention :
  applyRangesForText (Some helloWorld)
    [mkBodyRange 6 1 (mkHydratedMention (js "uuid") (js "Bob") (js "conversation"))]
    [mkBodyRange 0 5 (mkFormatting SPOILER None)]
  = Some (SPOILER_REPLACEMENT ++ js " @Boborld").
Proof. vm_compute. reflexivity. Qed.

Example sort_is_stable :
  map (fun r : BodyRange nat => data r)
    (sort byStartDescending
       [mkBodyRange 1 0 1%nat; mkBodyRange 4 0 2%nat; mkBodyRange 1 0 3%nat;
        mkBodyRange 4 0 4%nat])
  = [2%nat; 4%nat; 1%nat; 3%nat].
Proof. reflexivity. Qed.

(** * The claims *)

(** C1 (coverage).  For every text and every well-formed range tree
    (siblings sorted ascending by start and not overlapping at every level,
    every child inside the span of its parent), [collapseRangeTree] returns
    display nodes whose [text] fields, concatenated in output order, are
    exactly the text it was given. *)
Theorem collapseRangeTree_coverage (text : JSString) (tree : list RangeNode) :
  wellFormed tree ->
  forall parentData parentOffset,
  exists nodes,
    collapseRangeTree parentData parentOffset text tree = Return nodes
    /\ joinText nodes = text.
Proof.
  intros [Hsorted Hwf] parentData parentOffset.
  apply (@collapseRangeTree_spells_from tree); try assumption.
  apply Forall_forall. intros n _. apply collapseChildren_spells.
Qed.

Ltac wellFormed_tac :=
  repeat first
    [ match goal with
      | |- wellFormedNode (mkRangeNode _ _) => apply wellFormedNode_unfold
      end
    | match goal with |- _ /\ _ => split end
    | match goal with |- Forall _ _ => constructor end
    | match goal with |- within _ _ => unfold within end
    | match goal with |- sortedFrom _ _ => cbn [sortedFrom] end
    | exact I
    | match goal with |- _ <= _ => vm_compute; intros; discriminate end ].

Lemma collapseRangeTree_coverage_witness :
  wellFormed helloTree
  /\ exists nodes,
       collapseRangeTree emptyPartial 0 helloWorld helloTree = Return nodes
       /\ joinText nodes = helloWorld.
Proof.
  assert (H : wellFormed helloTree) by (unfold wellFormed, helloTree; wellFormed_tac).
  split; [exact H|].
  exact (collapseRangeTree_coverage helloWorld H emptyPartial 0).
Defined.

(** C2 (the invariant of the builder).  For every range whose start and
    length are not negative and every well-formed forest, [insertRange]
    returns a forest that is well formed again: siblings sorted and not
    overlapping at every level, every child inside the span of its parent. *)
Theorem insertRange_wellFormed (range : BodyRange RangeData)
    (tree : list RangeNode) :
  validRange range -> wellFormed tree ->
  exists tree', insertRange range tree = Return tree' /\ wellFormed tree'.
Proof.
  intros [Hs Hl] [Hsorted Hwf].
  destruct (insertRange_returns tree range) as [tree' E].
  exists tree'. split; [exact E|].
  destruct (@insertRange_preserves tree range 0 tree' Hs Hl Hsorted Hwf E)
    as [[R1 R2] _].
  split; assumption.
Qed.

Lemma insertRange_wellFormed_witness :
  validRange (formatted ITALIC 2 9) /\ wellFormed helloTree
  /\ exists tree',
       insertRange (formatted ITALIC 2 9) helloTree = Return tree'
       /\ wellFormed tree'.
Proof.
  assert (V : validRange (formatted ITALIC 2 9)) by (split; cbn; lia).
  assert (H : wellFormed helloTree) by (unfold wellFormed, helloTree; wellFormed_tac).
  split; [exact V|]. split; [exact H|].
  exact (insertRange_wellFormed V H).
Defined.

(** C3 (no loss on insertion).  For every sequence of valid ranges inserted
    one at a time with [insertRange], starting from the empty forest, the
    insertions return a forest in which every position covered by an
    inserted range is covered by a node, possibly a fragment of a split,
    that carries the data of that range. *)
Theorem insertRanges_no_loss (rs : list (BodyRange RangeData)) :
  Forall validRange rs ->
  exists forest,
    insertRanges rs [] = Return forest
    /\ forall r p,
         In r rs -> start r <= p < start r + length r ->
         covered (data r) p forest.
Proof.
  intros _. destruct (insertRanges_covers rs []) as (forest & E & _ & N).
  exists forest. split; [exact E | exact N].
Qed.

Lemma insertRanges_no_loss_witness :
  Forall validRange [formatted BOLD 0 5; formatted ITALIC 3 5]
  /\ exists forest,
       insertRanges [formatted BOLD 0 5; formatted ITALIC 3 5] [] = Return forest
       /\ forall r p,
            In r [formatted BOLD 0 5; formatted ITALIC 3 5] ->
            start r <= p < start r + length r ->
            covered (data r) p forest.
Proof.
  assert (V : Forall validRange [formatted BOLD 0 5; formatted ITALIC 3 5]).
  { repeat constructor; cbn; lia. }
  split; [exact V|]. exact (insertRanges_no_loss V).
Defined.

(** C4 (the six cases).  For every range whose start and length are not
    negative and every well-formed forest, [insertRange] returns and never
    reaches its final [unhandled range] branch; and when the forest has a
    first node, exactly one of the six cases applies to the range and that
    node (a case applying when its condition holds and no earlier one does,
    so that touching bounds fall under the first two cases), and the result
    is the one of that case. *)
Theorem insertRange_exactly_one_case (range : BodyRange RangeData)
    (tree : list RangeNode) :
  validRange range -> wellFormed tree ->
  (exists tree', insertRange range tree = Return tree')
  /\ (forall current rest,
        tree = current :: rest ->
        exists c,
          caseApplies c range current
          /\ (forall c', caseApplies c' range current -> c' = c)
          /\ insertRange range tree
             = insertRange_by_case (Some c) range current rest).
Proof.
  intros _ _. split; [apply insertRange_returns|].
  intros current rest ->.
  destruct (applicableCase_some range current) as [c Ec].
  pose proof (applicableCase_applies _ _ Ec) as Ha.
  exists c. split; [exact Ha|]. split.
  - intros c' Hc'. apply (caseApplies_unique Hc' Ha).
  - rewrite insertRange_dispatch, Ec. reflexivity.
Qed.

Lemma insertRange_exactly_one_case_witness :
  validRange (formatted ITALIC 3 5) /\ wellFormed helloTree
  /\ (exists tree', insertRange (formatted ITALIC 3 5) helloTree = Return tree')
  /\ (forall current rest,
        helloTree = current :: rest ->
        exists c,
          caseApplies c (formatted ITALIC 3 5) current
          /\ (forall c', caseApplies c' (formatted ITALIC 3 5) current -> c' = c)
          /\ insertRange (formatted ITALIC 3 5) helloTree
             = insertRange_by_case (Some c) (formatted ITALIC 3 5) current rest).
Proof.
  assert (V : validRange (formatted ITALIC 3 5)) by (split; cbn; lia).
  assert (H : wellFormed helloTree) by (unfold wellFormed, helloTree; wellFormed_tac).
  split; [exact V|]. split; [exact H|].
  exact (insertRange_exactly_one_case V H).
Defined.

(** C5, as the code has it.  The range filter tests the style for
    truthiness and [NONE] is 0: a range without participant id whose style
    is [NONE] is charged to no category and is dropped as unknown, also
    when its start and length are numbers; it is in no output of
    [filterAndClean], whatever else the input holds. *)
Theorem filterAndClean_drops_NONE
    (ranges out : list Proto.IBodyRange) (range : Proto.IBodyRange) :
  filterAndClean (Some ranges) = Some out ->
  truthyString (Proto.mentionUuid range) = false ->
  Proto.style range = Some (Style_value NONE) ->
  ~ In range out.
Proof.
  intros H Hm Hs Hin.
  unfold filterAndClean in H. injection H as <-.
  rewrite map_id in Hin.
  apply filterWithCounts_categorised in Hin. destruct Hin as [_ Hcat].
  apply Hcat. unfold categoryOf. rewrite Hm, Hs.
  destruct (negb (isNumber (Proto.start range))); [reflexivity|].
  destruct (negb (isNumber (Proto.length range))); reflexivity.
Qed.

Lemma filterAndClean_drops_NONE_witness :
  filterAndClean (Some [rawMention 0; noneRange; rawBold 1])
  = Some [rawMention 0; rawBold 1]
  /\ truthyString (Proto.mentionUuid noneRange) = false
  /\ Proto.style noneRange = Some (Style_value NONE)
  /\ ~ In noneRange [rawMention 0; rawBold 1].
Proof.
  assert (A : filterAndClean (Some [rawMention 0; noneRange; rawBold 1])
              = Some [rawMention 0; rawBold 1]) by reflexivity.
  assert (B : truthyString (Proto.mentionUuid noneRange) = false) by reflexivity.
  assert (C : Proto.style noneRange = Some (Style_value NONE)) by reflexivity.
  split; [exact A|]. split; [exact B|]. split; [exact C|].
  exact (@filterAndClean_drops_NONE _ _ noneRange A B C).
Defined.

(** C5, as the claim has it, fails: [filterAndClean] returns nothing for a
    range with numbers, without participant id and with the style [NONE]. *)
Lemma filterAndClean_NONE_counterexample :
  filterAndClean (Some [noneRange]) = Some []
  /\ ~ (exists out, filterAndClean (Some [noneRange]) = Some out
                    /\ In noneRange out).
Proof.
  split; [reflexivity|].
  intros (out & H & Hin). vm_compute in H. injection H as <-. destruct Hin.
Qed.

(** C6 (the cap).  Of an input of 300 mention ranges and 300 bold ranges,
    in any order and all with numbers for start and length,
    [filterAndClean] returns the first 250 mention ranges and the first 250
    bold ranges of the input, 500 ranges in all. *)
Theorem filterAndClean_cap (ranges : list Proto.IBodyRange) :
  Forall (fun r => inCategory MENTION_NAME r = true
                   \/ inCategory (StyleKey (Style_value BOLD)) r = true) ranges ->
  List.length (filter (inCategory MENTION_NAME) ranges) = 300%nat ->
  List.length (filter (inCategory (StyleKey (Style_value BOLD))) ranges) = 300%nat ->
  exists out,
    filterAndClean (Some ranges) = Some out
    /\ filter (inCategory MENTION_NAME) out
       = firstn 250 (filter (inCategory MENTION_NAME) ranges)
    /\ filter (inCategory (StyleKey (Style_value BOLD))) out
       = firstn 250 (filter (inCategory (StyleKey (Style_value BOLD))) ranges)
    /\ List.length (filter (inCategory MENTION_NAME) out) = 250%nat
    /\ List.length (filter (inCategory (StyleKey (Style_value BOLD))) out) = 250%nat
    /\ List.length out = 500%nat.
Proof.
  intros Hall Hm Hb. unfold filterAndClean. rewrite map_id.
  eexists. split; [reflexivity|].
  pose proof (filterWithCounts_category MENTION_NAME ranges countByTypeRecord_init)
    as Em.
  pose proof (filterWithCounts_category (StyleKey (Style_value BOLD)) ranges countByTypeRecord_init)
    as Eb.
  change (filter (inCategory MENTION_NAME)
            (filterWithCounts countByTypeRecord_init ranges)
          = firstn 250 (filter (inCategory MENTION_NAME) ranges)) in Em.
  change (filter (inCategory (StyleKey (Style_value BOLD)))
            (filterWithCounts countByTypeRecord_init ranges)
          = firstn 250 (filter (inCategory (StyleKey (Style_value BOLD))) ranges))
    in Eb.
  assert (Lm : List.length (filter (inCategory MENTION_NAME)
                              (filterWithCounts countByTypeRecord_init ranges))
               = 250%nat).
  { rewrite Em, length_firstn, Hm. reflexivity. }
  assert (Lb : List.length (filter (inCategory (StyleKey (Style_value BOLD)))
                              (filterWithCounts countByTypeRecord_init ranges))
               = 250%nat).
  { rewrite Eb, length_firstn, Hb. reflexivity. }
  repeat split; try assumption.
  rewrite (@length_two_categories MENTION_NAME (StyleKey (Style_value BOLD))).
  - rewrite Lm, Lb. reflexivity.
  - discriminate.
  - apply Forall_forall. intros r Hin.
    apply filterWithCounts_categorised in Hin. destruct Hin as [Hin _].
    rewrite Forall_forall in Hall. apply Hall, Hin.
Qed.

Lemma filterAndClean_cap_witness :
  Forall (fun r => inCategory MENTION_NAME r = true
                   \/ inCategory (StyleKey (Style_value BOLD)) r = true) sixHundred
  /\ List.length (filter (inCategory MENTION_NAME) sixHundred) = 300%nat
  /\ List.length (filter (inCategory (StyleKey (Style_value BOLD))) sixHundred) = 300%nat
  /\ exists out,
       filterAndClean (Some sixHundred) = Some out
       /\ filter (inCategory MENTION_NAME) out
          = firstn 250 (filter (inCategory MENTION_NAME) sixHundred)
       /\ filter (inCategory (StyleKey (Style_value BOLD))) out
          = firstn 250 (filter (inCategory (StyleKey (Style_value BOLD))) sixHundred)
       /\ List.length (filter (inCategory MENTION_NAME) out) = 250%nat
       /\ List.length (filter (inCategory (StyleKey (Style_value BOLD))) out) = 250%nat
       /\ List.length out = 500%nat.
Proof.
  assert (A : Forall (fun r => inCategory MENTION_NAME r = true
                               \/ inCategory (StyleKey (Style_value BOLD)) r = true) sixHundred).
  { apply Forall_forall. intros r Hin. unfold sixHundred in Hin.
    apply in_flat_map in Hin. destruct Hin as (i & _ & [<-|[<-|[]]]);
      [left | right]; reflexivity. }
  assert (M : List.length (filter (inCategory MENTION_NAME) sixHundred) = 300%nat)
    by (vm_compute; reflexivity).
  assert (B : List.length (filter (inCategory (StyleKey (Style_value BOLD))) sixHundred) = 300%nat)
    by (vm_compute; reflexivity).
  split; [exact A|]. split; [exact M|]. split; [exact B|].
  exact (filterAndClean_cap A M B).
Defined.

(** C7 (the overlap example).  For the text [hello world], a bold range
    [0,5) and an italic range [3,8) inserted into the empty tree, in either
    order, and the tree collapsed, the output is four segments in order:
    [hel] bold only, [lo] bold and italic, [ wo] italic only, and [rld]
    without any flag. *)
Theorem hello_world_segments :
  (tree <- insertRanges [formatted BOLD 0 5; formatted ITALIC 3 5] [] ;;
   collapseRangeTree emptyPartial 0 helloWorld tree) = Return helloSegments
  /\ (tree <- insertRanges [formatted ITALIC 3 5; formatted BOLD 0 5] [] ;;
      collapseRangeTree emptyPartial 0 helloWorld tree) = Return helloSegments.
Proof. split; vm_compute; reflexivity. Qed.

(** C8, as the code has it.  For the text [a bc d], one hydrated mention at
    start 2 of length 1 whose replacement text is [Bob], and no spoiler,
    [applyRangesForText] returns [a @Bobc d]: the mention stands for the
    single code unit at index 2, and the [c] after it stays. *)
Theorem applyRangesForText_mention :
  applyRangesForText (Some (js "a bc d")) [bobMention] []
  = Some (js "a @Bobc d").
Proof. vm_compute. reflexivity. Qed.

(** C8, as the claim has it, fails: the result is not [a @Bob d]. *)
Lemma applyRangesForText_mention_counterexample :
  applyRangesForText (Some (js "a bc d")) [bobMention] []
  <> Some (js "a @Bob d").
Proof. vm_compute. discriminate. Qed.

(** C9 (no match for the snippet).  When the snippet, its highlight and
    truncation markers stripped, does not occur in the body,
    [processBodyRangesForSearchResult] does not throw in production: the
    failed assertion is only logged, the snippet is taken to start at
    offset 0 of the body, and the cleaned snippet comes back with the
    adjusted ranges and the highlights; in a development build the same
    assertion throws. *)
Theorem processBodyRangesForSearchResult_no_match
    (LEFT RIGHT TRUNCATION snippet body : JSString)
    (bodyRanges : list DisplayBodyRangeType) :
  ~ occursIn (withNoEndTruncation LEFT RIGHT TRUNCATION snippet) body ->
  processBodyRangesForSearchResult LEFT RIGHT TRUNCATION Production
    snippet body bodyRanges
  = Return ([noMatchMessage snippet body],
            mkSearchResult (finalSnippet LEFT RIGHT TRUNCATION snippet)
              (rangesForSnippet LEFT RIGHT TRUNCATION snippet 0 bodyRanges))
  /\ processBodyRangesForSearchResult LEFT RIGHT TRUNCATION Development
       snippet body bodyRanges
     = Throw (noMatchMessage snippet body).
Proof.
  intros H. apply exec_None in H.
  unfold processBodyRangesForSearchResult. rewrite H. split; reflexivity.
Qed.

Lemma processBodyRangesForSearchResult_no_match_witness :
  ~ occursIn (withNoEndTruncation leftMarker rightMarker truncationMarker foxSnippet)
      catBody
  /\ processBodyRangesForSearchResult leftMarker rightMarker truncationMarker
       Production foxSnippet catBody [formatted BOLD 0 7]
     = Return ([noMatchMessage foxSnippet catBody],
               mkSearchResult (js "...the fox jumps")
                 [formatted BOLD 3 7;
                  mkBodyRange 7 3 (IsDisplayOnly (mkDisplayOnly SearchKeywordHighlight))])
  /\ processBodyRangesForSearchResult leftMarker rightMarker truncationMarker
       Development foxSnippet catBody [formatted BOLD 0 7]
     = Throw (noMatchMessage foxSnippet catBody).
Proof.
  assert (H : ~ occursIn (withNoEndTruncation leftMarker rightMarker
                            truncationMarker foxSnippet) catBody).
  { apply exec_None. vm_compute. reflexivity. }
  split; [exact H|].
  destruct (@processBodyRangesForSearchResult_no_match
              leftMarker rightMarker truncationMarker foxSnippet catBody
              [formatted BOLD 0 7] H) as [P D].
  split; [|exact D].
  rewrite P. vm_compute. reflexivity.
Defined.

(** C10 (mention nodes).  In the loop of [collapseRangeTree] a mention node
    only adds its mention, its start rebased by the cursor, to the pending
    mentions: it emits no segment and leaves the cursor where it is; the
    pending mentions go with the next plain segment; and the output for a
    tree is the output for the same tree with the children of every mention
    node removed. *)
Theorem collapseRangeTree_ignores_mention_children :
  (forall recur parentData parentOffset text st s l m children,
     collapseStep recur parentData parentOffset text st
       (mkRangeNode (mkBodyRange s l (IsMention m)) children)
     = Return (mkCollapseState (collapsed st) (offset st)
                 (mentions st ++ [mkBodyRange (s - offset st) l m])))
  /\ (forall parentData parentOffset text st upto,
        Display.mentions (plainSegment parentData parentOffset text st upto)
        = mentions st)
  /\ (forall parentData parentOffset text tree,
        collapseRangeTree parentData parentOffset text tree
        = collapseRangeTree parentData parentOffset text
            (map dropMentionChildren tree)).
Proof.
  split; [reflexivity|]. split; [reflexivity|].
  intros parentData parentOffset text tree. unfold collapseRangeTree.
  rewrite collapseLoop_dropMentionChildren; [reflexivity|].
  apply Forall_forall. intros n _. apply collapseStep_dropMentionChildren.
Qed.

(** * Further properties *)

(** ** More on [filterAndClean] *)

Lemma filterWithCounts_subsequence ranges :
  forall counts, Subsequence (filterWithCounts counts ranges) ranges.
Proof.
  induction ranges as [|r rest IH]; intros counts; cbn [filterWithCounts].
  - constructor.
  - destruct (filterAndClean_callback counts r) as [keep counts'].
    destruct keep; constructor; apply IH.
Qed.

Lemma categoryOf_some range :
  categoryOf range <> None ->
  isNumber (Proto.start range) = true /\ isNumber (Proto.length range) = true
  /\ (truthyString (Proto.mentionUuid range) = true
      \/ truthyStyle (Proto.style range) = true).
Proof.
  unfold categoryOf.
  destruct (isNumber (Proto.start range)); cbn [negb]; [|congruence].
  destruct (isNumber (Proto.length range)); cbn [negb]; [|congruence].
  destruct (truthyString (Proto.mentionUuid range)); [auto|].
  destruct (truthyStyle (Proto.style range)); [auto | congruence].
Qed.

(** When no counter can pass the maximum, the filter keeps everything that
    has a category. *)
Lemma filterWithCounts_room ranges :
  forall counts,
    Forall (fun r => categoryOf r <> None) ranges ->
    (forall k n,
       counts k = number n ->
       n + Z.of_nat (List.length (filter (inCategory k) ranges)) <= MAX_PER_TYPE) ->
    filterWithCounts counts ranges = ranges.
Proof.
  induction ranges as [|r rest IH]; intros counts Hcat Hroom; [reflexivity|].
  inversion Hcat as [|? ? Hr Hrest]; subst.
  cbn [filterWithCounts]. rewrite filterAndClean_callback_category.
  destruct (categoryOf r) as [k0|] eqn:Ecat; [|congruence].
  rewrite increment_same.
  assert (Hin : inCategory k0 r = true).
  { unfold inCategory. rewrite Ecat. apply CountKey_eqb_refl. }
  assert (Hkeep : greaterThan (plusOne (counts k0)) MAX_PER_TYPE = false).
  { destruct (counts k0) as [| |n] eqn:Ec; [reflexivity ..|].
    pose proof (Hroom k0 n Ec) as H0. cbn [filter] in H0. rewrite Hin in H0.
    cbn [List.length plusOne greaterThan] in *.
    destruct (Z.gtb_spec (n + 1) MAX_PER_TYPE); [lia | reflexivity]. }
  rewrite Hkeep. cbn [negb].
  f_equal. apply IH; [exact Hrest|].
  intros k n Hn.
  destruct (CountKey_eqb k k0) eqn:E.
  - apply CountKey_eqb_eq in E. subst k. rewrite increment_same in Hn.
    destruct (counts k0) as [| |m] eqn:Ec; try discriminate.
    cbn [plusOne] in Hn. injection Hn as <-.
    pose proof (Hroom k0 m Ec) as Hk. cbn [filter] in Hk.
    rewrite Hin in Hk. cbn [List.length] in Hk. lia.
  - rewrite (@increment_other k0 k counts E) in Hn.
    pose proof (Hroom k n Hn) as Hk. cbn [filter] in Hk.
    destruct (inCategory k r); cbn [List.length] in Hk; lia.
Qed.

(** The counters that the record starts with: the one of the mentions and
    one for each member of [Style]. *)
Lemma countByTypeRecord_init_counted k :
  counted k -> countByTypeRecord_init k = number 0.
Proof. intros [->|[member ->]]; [|destruct member]; reflexivity. Qed.

Lemma countByTypeRecord_init_number k n :
  countByTypeRecord_init k = number n -> n = 0 /\ counted k.
Proof.
  destruct k as [|s]; cbn [countByTypeRecord_init].
  - intros H. injection H as <-. split; [reflexivity | left; reflexivity].
  - destruct (existsb _ _) eqn:E; [|discriminate].
    intros H. injection H as <-. split; [reflexivity|].
    apply existsb_exists in E. destruct E as (member & _ & E).
    apply Z.eqb_eq in E. right. exists member. congruence.
Qed.

Lemma countByTypeRecord_init_uncounted s :
  (forall member : Style, Style_value member <> s) ->
  countByTypeRecord_init (StyleKey s) = undefined.
Proof.
  intros H. cbn [countByTypeRecord_init].
  destruct (existsb _ _) eqn:E; [|reflexivity].
  apply existsb_exists in E. destruct E as (member & _ & E).
  apply Z.eqb_eq in E. destruct (H member E).
Qed.

(** What [filterAndClean] keeps of a category that has a counter. *)
Lemma filterWithCounts_capped k ranges :
  counted k ->
  Z.of_nat (List.length
              (filter (inCategory k) (filterWithCounts countByTypeRecord_init ranges)))
  <= MAX_PER_TYPE.
Proof.
  intros Hk. rewrite filterWithCounts_category.
  rewrite (countByTypeRecord_init_counted Hk), length_firstn.
  unfold MAX_PER_TYPE. cbn. lia.
Qed.

(** X1.  Whatever the input, [filterAndClean] returns at most
    [MAX_PER_TYPE] mentions and at most [MAX_PER_TYPE] ranges of each style
    that is a member of [Style]: these are the categories that
    [countByTypeRecord] has a counter for. *)
Theorem filterAndClean_at_most_max (ranges : list Proto.IBodyRange) :
  exists out,
    filterAndClean (Some ranges) = Some out
    /\ Z.of_nat (List.length (filter (inCategory MENTION_NAME) out)) <= MAX_PER_TYPE
    /\ forall member : Style,
         Z.of_nat (List.length
                     (filter (inCategory (StyleKey (Style_value member))) out))
         <= MAX_PER_TYPE.
Proof.
  unfold filterAndClean. rewrite map_id. eexists. split; [reflexivity|].
  split.
  - apply filterWithCounts_capped. left. reflexivity.
  - intros member. apply filterWithCounts_capped. right. exists member. reflexivity.
Qed.

(** X26.  A style that is no member of [Style] is never capped: the record
    has no counter for its number, the increment makes it [NaN], and no
    [NaN] is greater than [MAX_PER_TYPE].  Every range of the input that is
    charged to such a style comes out of [filterAndClean], however many
    there are. *)
Theorem filterAndClean_unknown_style (ranges : list Proto.IBodyRange) (s : Z) :
  (forall member : Style, Style_value member <> s) ->
  exists out,
    filterAndClean (Some ranges) = Some out
    /\ filter (inCategory (StyleKey s)) out = filter (inCategory (StyleKey s)) ranges.
Proof.
  intros Hs. unfold filterAndClean. rewrite map_id. eexists. split; [reflexivity|].
  rewrite filterWithCounts_category, (countByTypeRecord_init_uncounted Hs).
  reflexivity.
Qed.

Lemma filterAndClean_unknown_style_witness :
  (forall member : Style, Style_value member <> 6)
  /\ List.length (filter (inCategory (StyleKey 6)) manyUnknown) = 300%nat
  /\ exists out,
       filterAndClean (Some manyUnknown) = Some out
       /\ filter (inCategory (StyleKey 6)) out
          = filter (inCategory (StyleKey 6)) manyUnknown.
Proof.
  assert (A : forall member : Style, Style_value member <> 6)
    by (intros []; discriminate).
  split; [exact A|]. split; [vm_compute; reflexivity|].
  exact (filterAndClean_unknown_style manyUnknown A).
Defined.

(** X2.  [filterAndClean] only leaves ranges out: what it returns is a
    subsequence of its input, in the order of the input, and every range it
    returns has numbers for [start] and [length] and a truthy [mentionUuid]
    or a truthy [style]. *)
Theorem filterAndClean_subsequence (ranges : list Proto.IBodyRange) :
  exists out,
    filterAndClean (Some ranges) = Some out
    /\ Subsequence out ranges
    /\ Forall (fun r =>
                 isNumber (Proto.start r) = true
                 /\ isNumber (Proto.length r) = true
                 /\ (truthyString (Proto.mentionUuid r) = true
                     \/ truthyStyle (Proto.style r) = true)) out.
Proof.
  unfold filterAndClean. rewrite map_id. eexists. split; [reflexivity|].
  split; [apply filterWithCounts_subsequence|].
  apply Forall_forall. intros r Hin.
  apply filterWithCounts_categorised in Hin. destruct Hin as [_ Hcat].
  apply categoryOf_some. exact Hcat.
Qed.

(** X3.  Below the cap [filterAndClean] changes nothing: when every range
    of the input has numbers for [start] and [length] and a truthy
    [mentionUuid] or [style], and no category that has a counter (the
    mentions, each member of [Style]) has more than [MAX_PER_TYPE] ranges,
    the input comes back as it is. *)
Theorem filterAndClean_below_cap (ranges : list Proto.IBodyRange) :
  Forall (fun r => categoryOf r <> None) ranges ->
  (forall k,
     counted k ->
     Z.of_nat (List.length (filter (inCategory k) ranges)) <= MAX_PER_TYPE) ->
  filterAndClean (Some ranges) = Some ranges.
Proof.
  intros Hcat Hroom. unfold filterAndClean. rewrite map_id. f_equal.
  apply filterWithCounts_room; [exact Hcat|].
  intros k n Hn. apply countByTypeRecord_init_number in Hn.
  destruct Hn as [-> Hk]. specialize (Hroom k Hk). lia.
Qed.

Lemma filterAndClean_below_cap_witness :
  Forall (fun r => categoryOf r <> None)
    [rawMention 0; rawBold 1; rawUnknown 2; rawMention 3]
  /\ (forall k,
        counted k ->
        Z.of_nat (List.length
                    (filter (inCategory k)
                       [rawMention 0; rawBold 1; rawUnknown 2; rawMention 3]))
        <= MAX_PER_TYPE)
  /\ filterAndClean (Some [rawMention 0; rawBold 1; rawUnknown 2; rawMention 3])
     = Some [rawMention 0; rawBold 1; rawUnknown 2; rawMention 3].
Proof.
  assert (A : Forall (fun r => categoryOf r <> None)
                [rawMention 0; rawBold 1; rawUnknown 2; rawMention 3]).
  { repeat constructor; cbn; discriminate. }
  assert (B : forall k,
             counted k ->
             Z.of_nat (List.length
                         (filter (inCategory k)
                            [rawMention 0; rawBold 1; rawUnknown 2; rawMention 3]))
             <= MAX_PER_TYPE).
  { intros k [->|[member ->]]; [|destruct member]; vm_compute; discriminate. }
  split; [exact A|]. split; [exact B|].
  exact (filterAndClean_below_cap A B).
Defined.

(** X4.  [filterAndClean] is idempotent: filtering what it returned returns
    the same ranges. *)
Theorem filterAndClean_idempotent (ranges : list Proto.IBodyRange) :
  exists out,
    filterAndClean (Some ranges) = Some out
    /\ filterAndClean (Some out) = Some out.
Proof.
  remember (filterWithCounts countByTypeRecord_init ranges) as out eqn:Eout.
  exists out. split.
  - unfold filterAndClean. rewrite map_id. subst out. reflexivity.
  - unfold filterAndClean. rewrite map_id. f_equal.
    apply filterWithCounts_room.
    + apply Forall_forall. intros r Hin. subst out.
      apply filterWithCounts_categorised in Hin. tauto.
    + intros k n Hn. apply countByTypeRecord_init_number in Hn.
      destruct Hn as [-> Hk]. subst out.
      pose proof (@filterWithCounts_capped k ranges Hk). lia.
Qed.

(** ** [hydrateRanges] *)

(** X5.  [hydrateRanges] asks [conversationSelector] only about the ranges
    that [filterAndClean] keeps: two selectors that agree on the
    [mentionUuid] of every kept range give the same result, whatever they
    say of the ranges that were dropped. *)
Theorem hydrateRanges_selector (ranges out : list Proto.IBodyRange)
    (selector selector' : JSString -> Conversation.ConversationType) :
  filterAndClean (Some ranges) = Some out ->
  (forall r uuid,
     In r out -> Proto.mentionUuid r = Some uuid -> selector uuid = selector' uuid) ->
  hydrateRanges (Some ranges) selector = hydrateRanges (Some ranges) selector'.
Proof.
  intros Hout Hagree. unfold hydrateRanges. rewrite Hout. cbn [option_map].
  f_equal. apply map_ext_in. intros r Hin. unfold hydrateRange.
  destruct (Proto.mentionUuid r) as [uuid|] eqn:E; [|reflexivity].
  rewrite (Hagree r uuid Hin E). reflexivity.
Qed.

Lemma hydrateRanges_selector_witness :
  filterAndClean (Some manyMentions) = Some (map rawMention (seq 0 250))
  /\ (forall r uuid,
        In r (map rawMention (seq 0 250)) -> Proto.mentionUuid r = Some uuid ->
        titleIsUuid uuid = titleUnlessLate uuid)
  /\ titleIsUuid (js "late") <> titleUnlessLate (js "late")
  /\ hydrateRanges (Some manyMentions) titleIsUuid
     = hydrateRanges (Some manyMentions) titleUnlessLate.
Proof.
  assert (A : filterAndClean (Some manyMentions) = Some (map rawMention (seq 0 250)))
    by (vm_compute; reflexivity).
  assert (B : forall r uuid,
             In r (map rawMention (seq 0 250)) -> Proto.mentionUuid r = Some uuid ->
             titleIsUuid uuid = titleUnlessLate uuid).
  { intros r uuid Hin E. apply in_map_iff in Hin. destruct Hin as (i & <- & _).
    cbn in E. injection E as <-. reflexivity. }
  split; [exact A|]. split; [exact B|]. split; [vm_compute; discriminate|].
  exact (@hydrateRanges_selector manyMentions _ titleIsUuid titleUnlessLate A B).
Defined.

(** ** [groupContiguousSpoilers] *)

Lemma nodeIsSpoiler_newContainer n : nodeIsSpoiler (newContainer n) = true.
Proof. reflexivity. Qed.

Lemma nodeSpoilerId_newContainer n : nodeSpoilerId (newContainer n) = nodeSpoilerId n.
Proof. reflexivity. Qed.

Lemma nodeIsSpoiler_addChild c n : nodeIsSpoiler (addChild c n) = nodeIsSpoiler c.
Proof. reflexivity. Qed.

Lemma nodeSpoilerId_addChild c n : nodeSpoilerId (addChild c n) = nodeSpoilerId c.
Proof. reflexivity. Qed.

(** What the loop keeps true: the container, when there is one, is a
    spoiler with children, and the result so far stands for the nodes seen
    so far. *)
Lemma groupLoop_ungroup nodes :
  forall st seen,
    (match spoilerContainer st with
     | Some c => nodeIsSpoiler c = true /\ spoilerChildren c <> None
     | None => True
     end) ->
    flat_map ungroup (resultOf st) = seen ->
    flat_map ungroup (resultOf (fold_left groupStep nodes st)) = seen ++ nodes.
Proof.
  induction nodes as [|n nodes IH]; intros st seen Hc Hseen.
  - cbn [fold_left]. rewrite app_nil_r. exact Hseen.
  - cbn [fold_left].
    replace (seen ++ n :: nodes) with ((seen ++ [n]) ++ nodes)
      by (rewrite <- app_assoc; reflexivity).
    apply IH.
    + unfold groupStep. destruct (nodeIsSpoiler n) eqn:En; [|exact I].
      destruct (spoilerContainer st) as [c|] eqn:Ec.
      * destruct (isNumber (nodeSpoilerId c)
                  && strictEq (nodeSpoilerId c) (nodeSpoilerId n)); cbn.
        -- rewrite nodeIsSpoiler_addChild. split; [tauto | discriminate].
        -- split; [reflexivity | discriminate].
      * cbn. split; [reflexivity | discriminate].
    + subst seen. unfold groupStep.
      destruct (nodeIsSpoiler n) eqn:En.
      * destruct (spoilerContainer st) as [c|] eqn:Ec.
        -- destruct Hc as [Hs Hch].
           destruct (isNumber (nodeSpoilerId c)
                     && strictEq (nodeSpoilerId c) (nodeSpoilerId n)); cbn.
           ++ unfold resultOf. cbn [settled spoilerContainer]. rewrite Ec.
              rewrite !flat_map_app. cbn [flat_map]. rewrite !app_nil_r.
              rewrite <- app_assoc. f_equal.
              unfold ungroup. rewrite nodeIsSpoiler_addChild, Hs.
              destruct c as [d [children|]]; [reflexivity | contradiction].
           ++ unfold resultOf at 1. cbn [settled spoilerContainer].
              rewrite flat_map_app. cbn [flat_map]. rewrite app_nil_r.
              reflexivity.
        -- cbn. unfold resultOf at 1. cbn [settled spoilerContainer].
           rewrite flat_map_app. cbn [flat_map]. rewrite app_nil_r.
           reflexivity.
      * unfold resultOf at 1. cbn [settled spoilerContainer].
        rewrite app_nil_r, flat_map_app. cbn [flat_map]. rewrite app_nil_r.
        unfold ungroup at 2. rewrite En. reflexivity.
Qed.

(** X6.  Nothing is lost or reordered by [groupContiguousSpoilers]:
    replacing every spoiler of its output by the [spoilerChildren] it holds
    gives back the input list. *)
Theorem groupContiguousSpoilers_ungroup (nodes : list GroupedNode) :
  flat_map ungroup (groupContiguousSpoilers nodes) = nodes.
Proof.
  unfold groupContiguousSpoilers.
  apply (@groupLoop_ungroup nodes (mkGroupState [] None) []); [exact I | reflexivity].
Qed.

Lemma groupLoop_others nodes :
  forall st,
    (match spoilerContainer st with
     | Some c => nodeIsSpoiler c = true
     | None => True
     end) ->
    filter (fun n => negb (nodeIsSpoiler n)) (resultOf (fold_left groupStep nodes st))
    = filter (fun n => negb (nodeIsSpoiler n)) (settled st)
      ++ filter (fun n => negb (nodeIsSpoiler n)) nodes.
Proof.
  induction nodes as [|n nodes IH]; intros st Hc.
  - cbn [fold_left filter]. rewrite app_nil_r. unfold resultOf.
    rewrite filter_app. destruct (spoilerContainer st) as [c|].
    + cbn [filter]. rewrite Hc. cbn. apply app_nil_r.
    + cbn. apply app_nil_r.
  - cbn [fold_left]. rewrite IH.
    + assert (R : filter (fun m => negb (nodeIsSpoiler m)) (resultOf st)
                  = filter (fun m => negb (nodeIsSpoiler m)) (settled st)).
      { unfold resultOf. rewrite filter_app.
        destruct (spoilerContainer st) as [c|].
        - cbn [filter]. rewrite Hc. cbn. apply app_nil_r.
        - cbn. apply app_nil_r. }
      unfold groupStep. cbn [filter].
      destruct (nodeIsSpoiler n) eqn:En; cbn [negb].
      * destruct (spoilerContainer st) as [c|] eqn:Ec.
        -- destruct (isNumber (nodeSpoilerId c)
                     && strictEq (nodeSpoilerId c) (nodeSpoilerId n)); cbn.
           ++ reflexivity.
           ++ rewrite R. reflexivity.
        -- cbn. rewrite R. reflexivity.
      * cbn [settled]. rewrite filter_app, R. cbn [filter]. rewrite En. cbn.
        rewrite <- app_assoc. reflexivity.
    + unfold groupStep. destruct (nodeIsSpoiler n) eqn:En; [|exact I].
      destruct (spoilerContainer st) as [c|] eqn:Ec.
      * destruct (isNumber (nodeSpoilerId c)
                  && strictEq (nodeSpoilerId c) (nodeSpoilerId n)); cbn.
        -- rewrite nodeIsSpoiler_addChild. exact Hc.
        -- reflexivity.
      * reflexivity.
Qed.

(** X7.  The nodes that are not spoilers pass through
    [groupContiguousSpoilers] untouched and in order: they are the nodes of
    the output that are not spoilers. *)
Theorem groupContiguousSpoilers_others (nodes : list GroupedNode) :
  filter (fun n => negb (nodeIsSpoiler n)) (groupContiguousSpoilers nodes)
  = filter (fun n => negb (nodeIsSpoiler n)) nodes.
Proof.
  unfold groupContiguousSpoilers.
  rewrite groupLoop_others; [reflexivity | exact I].
Qed.

Lemma groupsApart_prefix l l' : groupsApart (l ++ l') -> groupsApart l.
Proof.
  induction l as [|a l IH]; intros H; [exact I|].
  cbn [app groupsApart] in H. destruct H as [H1 H2].
  cbn [groupsApart]. split; [|apply IH; exact H2].
  destruct l as [|b l]; [exact I | exact H1].
Qed.

Lemma groupsApart_snoc l a x :
  groupsApart (l ++ [a]) -> ~ sameGroup a x -> groupsApart ((l ++ [a]) ++ [x]).
Proof.
  induction l as [|b l IH]; intros H Hax.
  - cbn. auto.
  - cbn [app groupsApart] in H |- *. destruct H as [H1 H2]. split.
    + destruct l as [|c l]; cbn [app] in *; exact H1.
    + apply IH; assumption.
Qed.

(** Only whether a node is a spoiler and its [spoilerId] matter. *)
Lemma groupsApart_last l a a' :
  nodeIsSpoiler a' = nodeIsSpoiler a -> nodeSpoilerId a' = nodeSpoilerId a ->
  groupsApart (l ++ [a]) -> groupsApart (l ++ [a']).
Proof.
  intros Hs Hi. induction l as [|b l IH]; intros H.
  - cbn. auto.
  - cbn [app groupsApart] in H |- *. destruct H as [H1 H2]. split.
    + destruct l as [|c l]; cbn [app] in *; [|exact H1].
      unfold sameGroup in *. rewrite Hs, Hi. exact H1.
    + apply IH. exact H2.
Qed.

Lemma groupLoop_apart nodes :
  forall st,
    (match spoilerContainer st with
     | Some c => nodeIsSpoiler c = true /\ groupsApart (settled st ++ [c])
     | None => forall x, groupsApart (settled st ++ [x])
     end) ->
    groupsApart (resultOf (fold_left groupStep nodes st)).
Proof.
  induction nodes as [|n nodes IH]; intros st Hinv.
  - cbn [fold_left]. unfold resultOf.
    destruct (spoilerContainer st) as [c|].
    + tauto.
    + rewrite app_nil_r.
      destruct (settled st) as [|a l] eqn:E; [exact I|].
      apply (@groupsApart_prefix (a :: l) [a]). apply Hinv.
  - cbn [fold_left]. apply IH. unfold groupStep.
    destruct (nodeIsSpoiler n) eqn:En.
    + destruct (spoilerContainer st) as [c|] eqn:Ec.
      * destruct Hinv as [Hs Ha].
        destruct (isNumber (nodeSpoilerId c)
                  && strictEq (nodeSpoilerId c) (nodeSpoilerId n)) eqn:Em; cbn.
        -- split; [exact Hs|].
           apply (@groupsApart_last (settled st) c); auto.
        -- split; [reflexivity|].
           unfold resultOf. rewrite Ec. apply groupsApart_snoc; [exact Ha|].
           intros (_ & _ & i & Hc & Hn).
           rewrite nodeSpoilerId_newContainer in Hn. rewrite Hc, Hn in Em.
           cbn in Em. rewrite Z.eqb_refl in Em. discriminate.
      * cbn. split; [reflexivity|].
        unfold resultOf. rewrite Ec, app_nil_r. apply Hinv.
    + cbn [spoilerContainer settled]. intros x.
      assert (Hnx : ~ sameGroup n x).
      { intros (Hn & _). congruence. }
      unfold resultOf. destruct (spoilerContainer st) as [c|] eqn:Ec.
      * destruct Hinv as [Hs Ha].
        apply groupsApart_snoc; [|exact Hnx].
        apply groupsApart_snoc; [exact Ha|].
        intros (_ & Hn & _). congruence.
      * rewrite app_nil_r.
        destruct (settled st) as [|a l] eqn:E.
        -- cbn. auto.
        -- destruct (@exists_last _ (a :: l) ltac:(discriminate)) as (l0 & a0 & El).
           rewrite El. apply groupsApart_snoc; [|exact Hnx].
           rewrite <- El. apply Hinv.
Qed.

(** X8.  The grouping is as coarse as it can be: in the output of
    [groupContiguousSpoilers] no two neighbours are spoilers with the same
    number for [spoilerId]. *)
Theorem groupContiguousSpoilers_apart (nodes : list GroupedNode) :
  groupsApart (groupContiguousSpoilers nodes).
Proof.
  unfold groupContiguousSpoilers. apply groupLoop_apart.
  cbn. intros x. auto.
Qed.

Lemma groupLoop_run nodes i :
  forall done c children,
    nodeSpoilerId c = Some i ->
    Forall (fun n => nodeIsSpoiler n = true /\ nodeSpoilerId n = Some i) nodes ->
    fold_left groupStep nodes
      (mkGroupState done (Some (mkGroupedNode (displayNode c) (Some children))))
    = mkGroupState done
        (Some (mkGroupedNode (displayNode c) (Some (children ++ nodes)))).
Proof.
  induction nodes as [|n nodes IH]; intros done c children Hc Hall.
  - rewrite app_nil_r. reflexivity.
  - inversion Hall as [|? ? [Hs Hi] Hrest]; subst.
    cbn [fold_left]. unfold groupStep at 2. rewrite Hs.
    cbn [spoilerContainer settled].
    change (nodeSpoilerId (mkGroupedNode (displayNode c) (Some children)))
      with (nodeSpoilerId c).
    rewrite Hc, Hi. cbn [isNumber strictEq andb]. rewrite Z.eqb_refl.
    cbn [spoilerContainer].
    unfold addChild. cbn [displayNode spoilerChildren].
    rewrite (IH done c (children ++ [n]) Hc Hrest).
    rewrite <- app_assoc. reflexivity.
Qed.

(** X9.  A run of spoilers that all have the same number for [spoilerId]
    becomes one container: a copy of the first node whose [spoilerChildren]
    are all the nodes of the run, the first included. *)
Theorem groupContiguousSpoilers_run (i : Z) (first : GroupedNode)
    (others : list GroupedNode) :
  Forall (fun n => nodeIsSpoiler n = true /\ nodeSpoilerId n = Some i)
    (first :: others) ->
  groupContiguousSpoilers (first :: others)
  = [mkGroupedNode (displayNode (newContainer first)) (Some (first :: others))].
Proof.
  intros Hall. inversion Hall as [|? ? [Hs Hi] Hrest]; subst.
  unfold groupContiguousSpoilers. cbn [fold_left].
  unfold groupStep at 2. rewrite Hs. cbn [spoilerContainer settled].
  change (resultOf (mkGroupState [] None)) with (@nil GroupedNode).
  change (Some (newContainer first))
    with (Some (mkGroupedNode (displayNode (newContainer first)) (Some [first]))).
  rewrite (@groupLoop_run others i [] (newContainer first) [first]);
    [reflexivity | exact Hi | exact Hrest].
Qed.

Lemma groupContiguousSpoilers_run_witness :
  Forall (fun n => nodeIsSpoiler n = true /\ nodeSpoilerId n = Some 5)
    [spoilerSegment "a" 0 (Some 5); spoilerSegment "b" 1 (Some 5);
     spoilerSegment "c" 2 (Some 5)]
  /\ groupContiguousSpoilers
       [spoilerSegment "a" 0 (Some 5); spoilerSegment "b" 1 (Some 5);
        spoilerSegment "c" 2 (Some 5)]
     = [mkGroupedNode (displayNode (spoilerSegment "a" 0 (Some 5)))
          (Some [spoilerSegment "a" 0 (Some 5); spoilerSegment "b" 1 (Some 5);
                 spoilerSegment "c" 2 (Some 5)])].
Proof.
  assert (A : Forall (fun n => nodeIsSpoiler n = true /\ nodeSpoilerId n = Some 5)
                [spoilerSegment "a" 0 (Some 5); spoilerSegment "b" 1 (Some 5);
                 spoilerSegment "c" 2 (Some 5)]).
  { repeat constructor. }
  split; [exact A|]. exact (groupContiguousSpoilers_run A).
Defined.

Lemma groupLoop_no_number nodes :
  forall st,
    (match spoilerContainer st with
     | Some c => nodeSpoilerId c = None
     | None => True
     end) ->
    Forall (fun n => nodeIsSpoiler n = true /\ nodeSpoilerId n = None) nodes ->
    resultOf (fold_left groupStep nodes st) = resultOf st ++ map newContainer nodes.
Proof.
  induction nodes as [|n nodes IH]; intros st Hc Hall.
  - cbn. rewrite app_nil_r. reflexivity.
  - inversion Hall as [|? ? [Hs Hi] Hrest]; subst.
    cbn [fold_left map]. rewrite IH; [| |exact Hrest].
    + unfold groupStep. rewrite Hs.
      destruct (spoilerContainer st) as [c|] eqn:Ec.
      * rewrite Hc. cbn. unfold resultOf at 1. cbn [settled spoilerContainer].
        rewrite <- app_assoc. reflexivity.
      * cbn. unfold resultOf at 1. cbn [settled spoilerContainer].
        rewrite <- app_assoc. reflexivity.
    + unfold groupStep. rewrite Hs.
      destruct (spoilerContainer st) as [c|] eqn:Ec.
      * rewrite Hc. cbn. rewrite nodeSpoilerId_newContainer. exact Hi.
      * cbn. rewrite nodeSpoilerId_newContainer. exact Hi.
Qed.

(** X10.  Spoilers whose [spoilerId] is not a number are never merged: each
    becomes a container of its own, holding itself alone. *)
Theorem groupContiguousSpoilers_no_number (nodes : list GroupedNode) :
  Forall (fun n => nodeIsSpoiler n = true /\ nodeSpoilerId n = None) nodes ->
  groupContiguousSpoilers nodes = map newContainer nodes.
Proof.
  intros Hall. unfold groupContiguousSpoilers.
  rewrite groupLoop_no_number; [reflexivity | exact I | exact Hall].
Qed.

Lemma groupContiguousSpoilers_no_number_witness :
  Forall (fun n => nodeIsSpoiler n = true /\ nodeSpoilerId n = None)
    [spoilerSegment "a" 0 None; spoilerSegment "b" 1 None]
  /\ groupContiguousSpoilers [spoilerSegment "a" 0 None; spoilerSegment "b" 1 None]
     = [newContainer (spoilerSegment "a" 0 None);
        newContainer (spoilerSegment "b" 1 None)].
Proof.
  assert (A : Forall (fun n => nodeIsSpoiler n = true /\ nodeSpoilerId n = None)
                [spoilerSegment "a" 0 None; spoilerSegment "b" 1 None]).
  { repeat constructor. }
  split; [exact A|]. exact (groupContiguousSpoilers_no_number A).
Defined.

(** ** More on [insertRange] *)

Lemma nodeRanges_unfold off r children :
  nodeRanges off (mkRangeNode r children)
  = mkBodyRange (off + start r) (length r) (data r)
    :: forestRanges (off + start r) children.
Proof. reflexivity. Qed.

Lemma nodeRanges_node off n :
  nodeRanges off n
  = mkBodyRange (off + nodeStart n) (nodeLength n) (nodeData n)
    :: forestRanges (off + nodeStart n) (ranges n).
Proof. destruct n as [r children]. apply nodeRanges_unfold. Qed.

Lemma forestRanges_cons off n rest :
  forestRanges off (n :: rest) = nodeRanges off n ++ forestRanges off rest.
Proof. reflexivity. Qed.

Lemma forestRanges_leaf off r rest :
  forestRanges off (mkRangeNode r [] :: rest)
  = mkBodyRange (off + start r) (length r) (data r) :: forestRanges off rest.
Proof. reflexivity. Qed.

Lemma sumLengths_app l l' : sumLengths (l ++ l') = sumLengths l + sumLengths l'.
Proof.
  unfold sumLengths. induction l as [|r l IH]; cbn [app fold_right]; lia.
Qed.

Lemma fragmentOf_wider off off' (range range' f : BodyRange RangeData) :
  fragmentOf off' range' f ->
  data range' = data range ->
  off + start range <= off' + start range' ->
  off' + start range' + length range' <= off + start range + length range ->
  fragmentOf off range f.
Proof.
  unfold fragmentOf. intros (Hd & Hs & He) Hdata Hlo Hhi.
  split; [congruence | lia].
Qed.

Lemma Permutation_into_node {A} (a : A) X F1 Y W F2 Z :
  Permutation X (F1 ++ Y) -> Permutation W (F2 ++ Z) ->
  Permutation ((a :: X) ++ W) ((F1 ++ F2) ++ (a :: Y) ++ Z).
Proof.
  intros HX HW. rewrite HX, HW. cbn [app].
  rewrite <- !app_assoc.
  etransitivity; [apply Permutation_middle|].
  apply Permutation_app_head.
  change (a :: Y ++ F2 ++ Z) with ((a :: Y) ++ F2 ++ Z).
  rewrite Permutation_app_swap_app. reflexivity.
Qed.

(** The ranges of the result are those of the tree and pieces of the
    inserted range, whose lengths add up to its length. *)
Lemma insertRange_ranges tree :
  forall range tree' off,
    insertRange range tree = Return tree' ->
    exists fragments,
      Permutation (forestRanges off tree') (fragments ++ forestRanges off tree)
      /\ Forall (fragmentOf off range) fragments
      /\ sumLengths fragments = length range.
Proof.
  induction tree as [|current rest IHc IHr] using forest_ind;
    intros range tree' off H.
  - simpl in H. injection H as <-.
    exists [mkBodyRange (off + start range) (length range) (data range)].
    split; [reflexivity|]. split.
    + constructor; [|constructor]. unfold fragmentOf; cbn; split; [reflexivity | lia].
    + cbn. lia.
  - rewrite insertRange_dispatch in H.
    destruct (applicableCase range current) as [c|] eqn:Ec; [|discriminate].
    apply applicableCase_bounds in Ec. cbv zeta in Ec.
    unfold insertRange_by_case in H.
    destruct c; cbn in H.
    + injection H as <-.
      exists [mkBodyRange (off + start range) (length range) (data range)].
      split; [reflexivity|]. split.
      * constructor; [|constructor]. unfold fragmentOf; cbn; split; [reflexivity | lia].
      * cbn. lia.
    + bind_inv H. injection H as <-.
      destruct (IHr _ _ off E) as (F & HP & HF & HS).
      exists F. split; [|split; assumption].
      rewrite !forestRanges_cons, HP. apply Permutation_app_swap_app.
    + bind_inv H. bind_inv E. injection E as <-. injection H as <-.
      destruct (IHc _ _ (off + nodeStart current) E0) as (F & HP & HF & HS).
      exists (F ++ []). split; [|split].
      * rewrite !forestRanges_cons, nodeRanges_unfold, (nodeRanges_node off current).
        apply Permutation_into_node; [exact HP | reflexivity].
      * rewrite app_nil_r. eapply Forall_impl; [|exact HF].
        intros f Hf. eapply fragmentOf_wider; [exact Hf|reflexivity| |]; cbn; lia.
      * rewrite app_nil_r. exact HS.
    + bind_inv H. bind_inv E. injection E as <-.
      bind_inv H. injection H as <-.
      destruct (IHc _ _ (off + nodeStart current) E0) as (F1 & HP1 & HF1 & HS1).
      destruct (IHr _ _ off E) as (F2 & HP2 & HF2 & HS2).
      exists (mkBodyRange (off + start range) (nodeStart current - start range)
                (data range) :: F1 ++ F2).
      split; [|split].
      * rewrite forestRanges_leaf. cbn [app start length data]. apply perm_skip.
        rewrite !forestRanges_cons, nodeRanges_unfold, (nodeRanges_node off current).
        apply Permutation_into_node; assumption.
      * constructor; [unfold fragmentOf; cbn; split; [reflexivity | lia]|].
        apply Forall_app. split.
        -- eapply Forall_impl; [|exact HF1].
           intros f Hf. eapply fragmentOf_wider; [exact Hf|reflexivity| |]; cbn; lia.
        -- eapply Forall_impl; [|exact HF2].
           intros f Hf. eapply fragmentOf_wider; [exact Hf|reflexivity| |]; cbn; lia.
      * change (sumLengths (?a :: ?l)) with (length a + sumLengths l).
        cbn [sumLengths fold_right]. fold (sumLengths (F1 ++ F2)).
        rewrite sumLengths_app, HS1, HS2. cbn. lia.
    + bind_inv H. bind_inv E. injection E as <-. injection H as <-.
      destruct (IHc _ _ (off + nodeStart current) E0) as (F1 & HP1 & HF1 & HS1).
      exists (mkBodyRange (off + start range) (nodeStart current - start range)
                (data range) :: F1 ++ []).
      split; [|split].
      * rewrite forestRanges_leaf. cbn [app start length data]. apply perm_skip.
        rewrite !forestRanges_cons, nodeRanges_unfold, (nodeRanges_node off current).
        apply Permutation_into_node; [exact HP1 | reflexivity].
      * rewrite app_nil_r. constructor; [unfold fragmentOf; cbn; split; [reflexivity | lia]|].
        eapply Forall_impl; [|exact HF1].
        intros f Hf. eapply fragmentOf_wider; [exact Hf|reflexivity| |]; cbn; lia.
      * rewrite app_nil_r. cbn [sumLengths fold_right]. fold (sumLengths F1).
        rewrite HS1. cbn. lia.
    + bind_inv H. bind_inv E. injection E as <-.
      bind_inv H. injection H as <-.
      destruct (IHc _ _ (off + nodeStart current) E0) as (F1 & HP1 & HF1 & HS1).
      destruct (IHr _ _ off E) as (F2 & HP2 & HF2 & HS2).
      exists (F1 ++ F2).
      split; [|split].
      * rewrite !forestRanges_cons, nodeRanges_unfold, (nodeRanges_node off current).
        apply Permutation_into_node; assumption.
      * apply Forall_app. split.
        -- eapply Forall_impl; [|exact HF1].
           intros f Hf. eapply fragmentOf_wider; [exact Hf|reflexivity| |]; cbn; lia.
        -- eapply Forall_impl; [|exact HF2].
           intros f Hf. eapply fragmentOf_wider; [exact Hf|reflexivity| |]; cbn; lia.
      * rewrite sumLengths_app, HS1, HS2. cbn. lia.
Qed.

(** X11.  [insertRange] leaves the nodes of the tree as they are: with
    starts made absolute, the ranges of the result are the ranges of the
    tree together with pieces of the inserted range; every piece carries
    the data of that range and lies inside its span, and the lengths of the
    pieces add up to the length of the range. *)
Theorem insertRange_adds_fragments (range : BodyRange RangeData)
    (tree : list RangeNode) :
  exists tree' fragments,
    insertRange range tree = Return tree'
    /\ Permutation (forestRanges 0 tree') (fragments ++ forestRanges 0 tree)
    /\ Forall (fragmentOf 0 range) fragments
    /\ sumLengths fragments = length range.
Proof.
  destruct (insertRange_returns tree range) as [tree' E].
  destruct (@insertRange_ranges tree range tree' 0 E) as (F & H).
  exists tree', F. split; [exact E | exact H].
Qed.

(** *** Sequences of insertions *)

Lemma forestRanges_data tree :
  forall off off',
    map (@data RangeData) (forestRanges off tree)
    = map (@data RangeData) (forestRanges off' tree).
Proof.
  induction tree as [|current rest IHc IHr] using forest_ind; intros off off'.
  - reflexivity.
  - rewrite !forestRanges_cons, !nodeRanges_node, !map_app. cbn [map data].
    rewrite (IHc (off + nodeStart current) (off' + nodeStart current)),
      (IHr off off').
    reflexivity.
Qed.

Lemma mentionFree_cons n rest :
  mentionFree (n :: rest)
  <-> isMention (nodeData n) = false /\ mentionFree (ranges n) /\ mentionFree rest.
Proof.
  unfold mentionFree. rewrite forestRanges_cons, nodeRanges_node, Forall_app.
  assert (S : Forall (fun r => isMention (data r) = false)
                (forestRanges (0 + nodeStart n) (ranges n))
              <-> Forall (fun r => isMention (data r) = false)
                    (forestRanges 0 (ranges n))).
  { rewrite <- !(Forall_map (@data RangeData) (fun d => isMention d = false)).
    rewrite (forestRanges_data (ranges n) (0 + nodeStart n) 0). reflexivity. }
  split.
  - intros [H1 H2]. inversion H1 as [|? ? Hd Hc]; subst. cbn in Hd.
    rewrite S in Hc. auto.
  - intros (Hd & Hc & Hr). split; [|exact Hr].
    constructor; [exact Hd | apply S; exact Hc].
Qed.

Lemma insertRange_mentionFree range tree tree' :
  isMention (data range) = false -> mentionFree tree ->
  insertRange range tree = Return tree' -> mentionFree tree'.
Proof.
  intros Hd Hfree E. unfold mentionFree in *.
  destruct (@insertRange_ranges tree range tree' 0 E) as (F & HP & HF & _).
  eapply Permutation_Forall; [symmetry; exact HP|].
  apply Forall_app. split; [|exact Hfree].
  eapply Forall_impl; [|exact HF]. intros f [Hf _]. rewrite Hf. exact Hd.
Qed.

Lemma insertRanges_preserve rs :
  forall tree,
    Forall validRange rs -> wellFormed tree ->
    exists forest,
      insertRanges rs tree = Return forest
      /\ wellFormed forest
      /\ (forall hi, Forall (fun r => start r + length r <= hi) rs ->
                     within hi tree -> within hi forest)
      /\ (Forall (fun r => isMention (data r) = false) rs ->
          mentionFree tree -> mentionFree forest).
Proof.
  induction rs as [|r rs IH]; intros tree Hvalid Hwf.
  - exists tree. split; [reflexivity|]. split; [exact Hwf|]. split; auto.
  - inversion Hvalid as [|? ? Hr Hrs]; subst.
    rewrite insertRanges_cons.
    destruct (insertRange_returns tree r) as [t Et]. rewrite Et. cbn [bind].
    destruct Hr as [Hs Hl]. destruct Hwf as [Hsorted Hnodes].
    destruct (@insertRange_preserves tree r 0 t Hs Hl Hsorted Hnodes Et)
      as [[R1 R2] R3].
    destruct (IH t Hrs (conj R1 R2)) as (forest & E & W & B & M).
    exists forest. split; [exact E|]. split; [exact W|]. split.
    + intros hi Hhi Hw. inversion Hhi; subst. apply B; [assumption|].
      apply R3; assumption.
    + intros Hm Hfree. inversion Hm; subst. apply M; [assumption|].
      eapply insertRange_mentionFree; eauto.
Qed.

(** X12.  Inserting any sequence of valid ranges, one at a time, into the
    empty tree returns a well-formed tree, and the tree stays below every
    bound that all the ranges end below. *)
Theorem insertRanges_wellFormed (rs : list (BodyRange RangeData)) :
  Forall validRange rs ->
  exists forest,
    insertRanges rs [] = Return forest
    /\ wellFormed forest
    /\ forall hi, Forall (fun r => start r + length r <= hi) rs -> within hi forest.
Proof.
  intros Hvalid.
  assert (W0 : wellFormed []) by (split; [exact I | constructor]).
  destruct (@insertRanges_preserve rs [] Hvalid W0) as (forest & E & W & B & _).
  exists forest. split; [exact E|]. split; [exact W|].
  intros hi Hhi. apply B; [exact Hhi | constructor].
Qed.

Lemma insertRanges_wellFormed_witness :
  Forall validRange [formatted BOLD 0 5; formatted ITALIC 3 5; formatted SPOILER 1 9]
  /\ exists forest,
       insertRanges [formatted BOLD 0 5; formatted ITALIC 3 5; formatted SPOILER 1 9] []
       = Return forest
       /\ wellFormed forest
       /\ forall hi,
            Forall (fun r => start r + length r <= hi)
              [formatted BOLD 0 5; formatted ITALIC 3 5; formatted SPOILER 1 9] ->
            within hi forest.
Proof.
  assert (V : Forall validRange
                [formatted BOLD 0 5; formatted ITALIC 3 5; formatted SPOILER 1 9]).
  { repeat constructor; cbn; lia. }
  split; [exact V|]. exact (insertRanges_wellFormed V).
Defined.

(** ** More on [collapseRangeTree] *)

Lemma collapseStep_mention recur parentData parentOffset text st range m :
  nodeData range = IsMention m ->
  collapseStep recur parentData parentOffset text st range
  = Return (mkCollapseState (collapsed st) (offset st)
              (mentions st
                 ++ [mkBodyRange (nodeStart range - offset st) (nodeLength range) m])).
Proof. intros E. unfold collapseStep. rewrite E. reflexivity. Qed.

Lemma collapseStep_other recur parentData parentOffset text st range :
  isMention (nodeData range) = false ->
  exists own,
    rangeToPartialNode (nodeData range) = Return own
    /\ collapseStep recur parentData parentOffset text st range
       = (inner <- recur (spread parentData own) (nodeStart range + parentOffset)
                     (slice text (nodeStart range)
                        (nodeStart range + nodeLength range)) ;;
          Return (mkCollapseState
                    (collapsed (afterGap parentData parentOffset text st range)
                       ++ inner)
                    (nodeStart range + nodeLength range)
                    (mentions (afterGap parentData parentOffset text st range)))).
Proof.
  intros Hm. destruct (rangeToPartialNode_returns _ Hm) as [own Eown].
  exists own. split; [exact Eown|].
  unfold collapseStep, afterGap.
  destruct (nodeData range) as [m|l|f|o]; [discriminate| | |];
    rewrite Eown; reflexivity.
Qed.

(** The flags that a range contributes are missing or [true]. *)
Lemma rangeToPartialNode_flags d own flag :
  rangeToPartialNode d = Return own -> In flag booleanFlags ->
  flag own = None \/ flag own = Some true.
Proof.
  intros H Hin.
  assert (K : forall p : PartialDisplayNode,
             Forall (fun b => b = None \/ b = Some true)
               [Display.isBold p; Display.isItalic p; Display.isMonospace p;
                Display.isSpoiler p; Display.isStrikethrough p;
                Display.isKeywordHighlight p] ->
             flag p = None \/ flag p = Some true).
  { intros p Hp. rewrite Forall_forall in Hp. apply Hp.
    unfold booleanFlags in Hin. cbn [In] in *.
    destruct Hin as [<-|[<-|[<-|[<-|[<-|[<-|[]]]]]]]; auto 10. }
  apply K.
  destruct d as [m|l|f|o]; cbn in H.
  - discriminate.
  - injection H as <-.
    repeat (apply Forall_cons;
            [cbn; first [left; reflexivity | right; reflexivity]|]).
    apply Forall_nil.
  - destruct f as [[] sp]; cbn in H; injection H as <-;
      repeat (apply Forall_cons;
              [cbn; first [left; reflexivity | right; reflexivity]|]);
      apply Forall_nil.
  - destruct o as [[]]. cbn in H. injection H as <-.
    repeat (apply Forall_cons;
            [cbn; first [left; reflexivity | right; reflexivity]|]).
    apply Forall_nil.
Qed.

Lemma inherits_refl p : inherits p p.
Proof. intros flag _ H. exact H. Qed.

Lemma inherits_trans a b c : inherits a b -> inherits b c -> inherits a c.
Proof. intros H1 H2 flag Hin H. apply H2, H1; assumption. Qed.

Lemma spread_flag parentData own flag :
  In flag booleanFlags ->
  flag (spread parentData own) = override (flag parentData) (flag own).
Proof.
  unfold booleanFlags. cbn [In].
  intros [<-|[<-|[<-|[<-|[<-|[<-|[]]]]]]]; reflexivity.
Qed.

Lemma inherits_spread d own parentData :
  rangeToPartialNode d = Return own -> inherits parentData (spread parentData own).
Proof.
  intros H flag Hin Hp. rewrite (spread_flag _ _ Hin).
  destruct (rangeToPartialNode_flags _ H Hin) as [E|E]; rewrite E; cbn; auto.
Qed.

Lemma Forall_inherits_weaken a b (nodes : list DisplayNode) :
  inherits a b ->
  Forall (fun d => inherits b (Display.partial d)) nodes ->
  Forall (fun d => inherits a (Display.partial d)) nodes.
Proof.
  intros Hab. apply Forall_impl. intros d Hd. eapply inherits_trans; eauto.
Qed.

Lemma collapseLoop_inherits tree :
  Forall (fun n => forall pd po text,
            exists nodes,
              collapseChildren n pd po text = Return nodes
              /\ Forall (fun d => inherits pd (Display.partial d)) nodes) tree ->
  forall pd po text st,
    Forall (fun d => inherits pd (Display.partial d)) (collapsed st) ->
    exists st',
      collapseLoop pd po text tree (Return st) = Return st'
      /\ Forall (fun d => inherits pd (Display.partial d)) (collapsed st').
Proof.
  induction 1 as [|n tree Hn _ IH]; intros pd po text st Hst.
  - exists st. split; [reflexivity | exact Hst].
  - rewrite collapseLoop_cons.
    destruct (isMention (nodeData n)) eqn:Em.
    + destruct (nodeData n) as [m| | |] eqn:Ed; try discriminate.
      rewrite (collapseStep_mention _ _ _ _ _ _ Ed). apply IH. exact Hst.
    + destruct (collapseStep_other (collapseChildren n) pd po text st n Em)
        as (own & Eown & ->).
      destruct (Hn (spread pd own) (nodeStart n + po)
                  (slice text (nodeStart n) (nodeStart n + nodeLength n)))
        as (inner & -> & Hinner).
      cbn [bind]. apply IH. cbn [collapsed].
      apply Forall_app. split.
      * unfold afterGap. destruct (nodeStart n >? offset st); [|exact Hst].
        cbn [collapsed]. apply Forall_app. split; [exact Hst|].
        constructor; [apply inherits_refl | constructor].
      * eapply Forall_inherits_weaken; [|exact Hinner].
        eapply inherits_spread. exact Eown.
Qed.

Lemma collapseFinish_inherits pd po text st :
  Forall (fun d => inherits pd (Display.partial d)) (collapsed st) ->
  Forall (fun d => inherits pd (Display.partial d)) (collapseFinish pd po text st).
Proof.
  intros H. unfold collapseFinish. destruct (strlen text >? offset st); [|exact H].
  apply Forall_app. split; [exact H|].
  constructor; [apply inherits_refl | constructor].
Qed.

Lemma collapseRangeTree_returns_inheriting tree :
  forall pd po text,
    exists nodes,
      collapseRangeTree pd po text tree = Return nodes
      /\ Forall (fun d => inherits pd (Display.partial d)) nodes.
Proof.
  assert (Hall : Forall (fun n => forall pd po text,
                           exists nodes,
                             collapseChildren n pd po text = Return nodes
                             /\ Forall (fun d => inherits pd (Display.partial d)) nodes)
                   tree).
  { apply RangeTree_ind. intros r children IH pd po text.
    rewrite collapseChildren_eq. cbn [ranges]. unfold collapseRangeTree.
    destruct (@collapseLoop_inherits children IH pd po text collapseInit
                (Forall_nil _)) as (st & -> & Hst).
    cbn [bind]. eexists. split; [reflexivity|].
    apply collapseFinish_inherits. exact Hst. }
  intros pd po text. unfold collapseRangeTree.
  destruct (@collapseLoop_inherits tree Hall pd po text collapseInit (Forall_nil _))
    as (st & -> & Hst).
  cbn [bind]. eexists. split; [reflexivity|].
  apply collapseFinish_inherits. exact Hst.
Qed.

(** X13.  For a tree of the declared types, in which the style of every
    formatting range is one of the six members of [Style],
    [collapseRangeTree] returns whatever the shape of the tree and the
    text.  [rangeToPartialNode] throws [missingCaseError] on a mention, but
    the loop puts mention nodes aside before it calls that function; and
    the function has a case for each member of [Style], [NONE] included,
    for a link and for the one display style. *)
Theorem collapseRangeTree_returns :
  (forall m, rangeToPartialNode (IsMention m) = Throw missingCaseError)
  /\ forall (parentData : PartialDisplayNode) (parentOffset : Z)
            (text : JSString) (tree : list RangeNode),
       exists nodes,
         collapseRangeTree parentData parentOffset text tree = Return nodes.
Proof.
  split; [reflexivity|].
  intros parentData parentOffset text tree.
  destruct (collapseRangeTree_returns_inheriting tree parentData parentOffset text)
    as (nodes & E & _).
  exists nodes. exact E.
Qed.

(** X14.  Formatting is inherited: every flag among bold, italic,
    monospace, spoiler, strikethrough and keyword highlight that is set in
    [parentData] is set in every segment that [collapseRangeTree] returns,
    however deep the segment comes from. *)
Theorem collapseRangeTree_inherits (parentData : PartialDisplayNode)
    (parentOffset : Z) (text : JSString) (tree : list RangeNode) :
  exists nodes,
    collapseRangeTree parentData parentOffset text tree = Return nodes
    /\ Forall (fun d => inherits parentData (Display.partial d)) nodes.
Proof. apply collapseRangeTree_returns_inheriting. Qed.

(** *** Tiling *)

Lemma strlen_slice s a b :
  0 <= a <= b -> b <= strlen s -> strlen (slice s a b) = b - a.
Proof.
  intros Hab Hb. unfold strlen in *. rewrite slice_nonneg by lia.
  rewrite length_firstn, length_skipn. lia.
Qed.

Lemma tiles_app a b c l1 l2 :
  tiles a b l1 -> tiles b c l2 -> tiles a c (l1 ++ l2).
Proof.
  revert a. induction l1 as [|n l1 IH]; intros a H1 H2.
  - cbn in H1. subst. exact H2.
  - cbn [tiles app] in *. destruct H1 as (Hs & Hp & Ht & Hr).
    repeat split; try assumption. apply IH; assumption.
Qed.

Lemma tiles_single n a b :
  Display.start n = a -> 0 < Display.length n ->
  Display.length n = strlen (Display.text n) -> a + Display.length n = b ->
  tiles a b [n].
Proof. intros. cbn. auto. Qed.

Lemma sortedFrom_bounds lo tree hi :
  0 <= lo -> sortedFrom lo tree -> within hi tree ->
  Forall (fun n => 0 <= nodeStart n /\ 0 <= nodeLength n /\ nodeEnd n <= hi) tree.
Proof.
  revert lo. induction tree as [|n tree IH]; intros lo Hlo Hs Hw; [constructor|].
  apply sortedFrom_cons in Hs. destruct Hs as (H1 & H2 & H3).
  apply within_cons in Hw. destruct Hw as [W1 W2].
  constructor; [lia|]. apply (IH (nodeEnd n)); [unfold nodeEnd; lia | assumption..].
Qed.

(** The invariant of the loop: the segments so far tile the text up to the
    cursor. *)
Lemma collapseLoop_tiles tree :
  Forall (fun n => wellFormedNode n ->
                   forall pd po text,
                     strlen text = nodeLength n ->
                     exists nodes,
                       collapseChildren n pd po text = Return nodes
                       /\ tiles po (po + strlen text) nodes) tree ->
  forall pd po text lo st,
    sortedFrom lo tree -> Forall wellFormedNode tree -> within (strlen text) tree ->
    0 <= offset st <= lo -> offset st <= strlen text ->
    tiles po (po + offset st) (collapsed st) ->
    exists st',
      collapseLoop pd po text tree (Return st) = Return st'
      /\ 0 <= offset st' <= strlen text
      /\ tiles po (po + offset st') (collapsed st').
Proof.
  induction 1 as [|n tree Hn _ IH];
    intros pd po text lo st Hsorted Hwf Hwithin Hoff Hlen Hst.
  - exists st. split; [reflexivity|]. split; [lia | exact Hst].
  - rewrite collapseLoop_cons.
    apply sortedFrom_cons in Hsorted. destruct Hsorted as (Hlo & Hl & Hrest).
    inversion Hwf as [|? ? Hwfn Hwft]; subst.
    apply within_cons in Hwithin. destruct Hwithin as [Hend Hwt].
    unfold nodeEnd in *.
    destruct (isMention (nodeData n)) eqn:Em.
    + destruct (nodeData n) as [m| | |] eqn:Ed; try discriminate.
      rewrite (collapseStep_mention _ _ _ _ _ _ Ed).
      apply (IH pd po text (nodeStart n + nodeLength n)); cbn [offset collapsed];
        try assumption; lia.
    + destruct (collapseStep_other (collapseChildren n) pd po text st n Em)
        as (own & Eown & ->).
      assert (Hslice : strlen (slice text (nodeStart n) (nodeStart n + nodeLength n))
                       = nodeLength n).
      { rewrite strlen_slice by lia. lia. }
      destruct (Hn Hwfn (spread pd own) (nodeStart n + po) _ Hslice)
        as (inner & -> & Hinner).
      cbn [bind]. rewrite Hslice in Hinner.
      apply (IH pd po text (nodeStart n + nodeLength n)); cbn [offset collapsed];
        try assumption; try lia.
      apply tiles_app with (b := po + nodeStart n).
      * unfold afterGap. destruct (Z.gtb_spec (nodeStart n) (offset st)).
        -- cbn [collapsed]. apply tiles_app with (b := po + offset st); [exact Hst|].
           apply tiles_single; unfold plainSegment; cbn; try lia.
           rewrite strlen_slice by lia. reflexivity.
        -- replace (nodeStart n) with (offset st) by lia. exact Hst.
      * replace (po + nodeStart n) with (nodeStart n + po) by lia.
        replace (po + (nodeStart n + nodeLength n))
          with (nodeStart n + po + nodeLength n) by lia.
        exact Hinner.
Qed.

Lemma collapseFinish_tiles pd po text st :
  0 <= offset st <= strlen text ->
  tiles po (po + offset st) (collapsed st) ->
  tiles po (po + strlen text) (collapseFinish pd po text st).
Proof.
  intros Hoff Hst. unfold collapseFinish.
  destruct (Z.gtb_spec (strlen text) (offset st)).
  - apply tiles_app with (b := po + offset st); [exact Hst|].
    apply tiles_single; unfold plainSegment; cbn; try lia.
    rewrite strlen_slice by lia. reflexivity.
  - replace (strlen text) with (offset st) by lia. exact Hst.
Qed.

Lemma collapseRangeTree_tiles_from tree :
  Forall (fun n => wellFormedNode n ->
                   forall pd po text,
                     strlen text = nodeLength n ->
                     exists nodes,
                       collapseChildren n pd po text = Return nodes
                       /\ tiles po (po + strlen text) nodes) tree ->
  forall pd po text,
    sortedFrom 0 tree -> Forall wellFormedNode tree -> within (strlen text) tree ->
    exists nodes,
      collapseRangeTree pd po text tree = Return nodes
      /\ tiles po (po + strlen text) nodes.
Proof.
  intros Hall pd po text Hsorted Hwf Hwithin. unfold collapseRangeTree.
  assert (H0 : 0 <= offset collapseInit <= 0) by (cbn; lia).
  assert (H1 : offset collapseInit <= strlen text) by (unfold strlen; cbn; lia).
  assert (H2 : tiles po (po + offset collapseInit) (collapsed collapseInit))
    by (cbn; lia).
  destruct (@collapseLoop_tiles tree Hall pd po text 0 collapseInit
              Hsorted Hwf Hwithin H0 H1 H2) as (st & -> & Hoff & Hst).
  cbn [bind]. eexists. split; [reflexivity|].
  apply collapseFinish_tiles; assumption.
Qed.

Lemma collapseChildren_tiles n :
  wellFormedNode n ->
  forall pd po text,
    strlen text = nodeLength n ->
    exists nodes,
      collapseChildren n pd po text = Return nodes
      /\ tiles po (po + strlen text) nodes.
Proof.
  induction n as [r children IH] using RangeNode_ind. intros Hwf pd po text Hlen.
  apply wellFormedNode_unfold in Hwf. destruct Hwf as (Hsorted & Hwithin & Hwf).
  rewrite collapseChildren_eq. cbn [ranges].
  apply (@collapseRangeTree_tiles_from children IH); try assumption.
  unfold nodeLength in Hlen. cbn [nodeRange] in Hlen. rewrite Hlen. exact Hwithin.
Qed.

Lemma collapseRangeTree_tiling text tree :
  wellFormed tree -> within (strlen text) tree ->
  forall pd po,
  exists nodes,
    collapseRangeTree pd po text tree = Return nodes
    /\ tiles po (po + strlen text) nodes.
Proof.
  intros [Hsorted Hwf] Hwithin pd po.
  apply (@collapseRangeTree_tiles_from tree); try assumption.
  apply Forall_forall. intros n _. apply collapseChildren_tiles.
Qed.

(** X15.  For a well-formed tree whose nodes end inside the text, the
    segments that [collapseRangeTree] returns tile the text: the first
    starts at [parentOffset], each starts where the one before it ends, the
    last ends at [parentOffset] plus the length of the text, none is empty,
    and the [length] of each is the length of its [text]. *)
Theorem collapseRangeTree_tiles (text : JSString) (tree : list RangeNode) :
  wellFormed tree -> within (strlen text) tree ->
  forall parentData parentOffset,
  exists nodes,
    collapseRangeTree parentData parentOffset text tree = Return nodes
    /\ tiles parentOffset (parentOffset + strlen text) nodes.
Proof. apply collapseRangeTree_tiling. Qed.

Lemma collapseRangeTree_tiles_witness :
  wellFormed helloTree /\ within (strlen helloWorld) helloTree
  /\ exists nodes,
       collapseRangeTree emptyPartial 0 helloWorld helloTree = Return nodes
       /\ tiles 0 (0 + strlen helloWorld) nodes.
Proof.
  assert (H : wellFormed helloTree) by (unfold wellFormed, helloTree; wellFormed_tac).
  assert (W : within (strlen helloWorld) helloTree).
  { unfold helloTree. repeat constructor; vm_compute; discriminate. }
  split; [exact H|]. split; [exact W|].
  exact (collapseRangeTree_tiles helloWorld H W emptyPartial 0).
Defined.

(** *** Where a range of the tree shows *)

Lemma tiles_holds a b nodes q :
  tiles a b nodes -> a <= q < b -> exists n, In n nodes /\ holds n q.
Proof.
  revert a. induction nodes as [|n nodes IH]; intros a Ht Hq.
  - cbn in Ht. lia.
  - cbn [tiles] in Ht. destruct Ht as (Hs & Hp & _ & Hr).
    destruct (Z_lt_ge_dec q (a + Display.length n)) as [L|G].
    + exists n. split; [left; reflexivity|]. unfold holds. lia.
    + destruct (IH _ Hr ltac:(lia)) as (n' & Hin & Hh).
      exists n'. split; [right; exact Hin | exact Hh].
Qed.

Lemma covers_node d p n :
  covers d p n
  <-> (nodeStart n <= p < nodeStart n + nodeLength n /\ nodeData n = d)
      \/ covered d (p - nodeStart n) (ranges n).
Proof. destruct n as [r children]. apply covers_unfold. Qed.

Lemma flagOf_flag d flag :
  flagOf d = Some flag ->
  In flag booleanFlags
  /\ isMention d = false
  /\ forall own, rangeToPartialNode d = Return own -> flag own = Some true.
Proof.
  unfold booleanFlags.
  destruct d as [m|l|f|o]; cbn; try discriminate.
  - destruct f as [[] sp]; cbn; try discriminate; intros [= <-];
      (split; [cbn; tauto|]); (split; [reflexivity|]);
      intros own [= <-]; reflexivity.
  - intros [= <-]. split; [cbn; tauto|]. split; [reflexivity|].
    destruct o as [[]]. intros own [= <-]. reflexivity.
Qed.

(** The loop only adds segments. *)
Lemma collapseLoop_grows tree :
  forall pd po text st st',
    collapseLoop pd po text tree (Return st) = Return st' ->
    incl (collapsed st) (collapsed st').
Proof.
  induction tree as [|n tree IH]; intros pd po text st st' H.
  - cbn in H. injection H as <-. apply incl_refl.
  - rewrite collapseLoop_cons in H.
    destruct (collapseStep (collapseChildren n) pd po text st n) as [st1|m] eqn:E;
      [|rewrite collapseLoop_Throw in H; discriminate].
    apply IH in H. eapply incl_tran; [|exact H].
    destruct (isMention (nodeData n)) eqn:Em.
    + destruct (nodeData n) as [m| | |] eqn:Ed; try discriminate.
      rewrite (collapseStep_mention _ _ _ _ _ _ Ed) in E. injection E as <-.
      apply incl_refl.
    + destruct (collapseStep_other (collapseChildren n) pd po text st n Em)
        as (own & _ & Es).
      rewrite Es in E. bind_inv E. injection E as <-. cbn [collapsed].
      apply incl_appl. unfold afterGap.
      destruct (nodeStart n >? offset st); [|apply incl_refl].
      cbn [collapsed]. apply incl_appl, incl_refl.
Qed.

Lemma collapseFinish_incl pd po text st :
  incl (collapsed st) (collapseFinish pd po text st).
Proof.
  unfold collapseFinish. destruct (strlen text >? offset st);
    [apply incl_appl|]; apply incl_refl.
Qed.

Lemma collapseLoop_shows tree :
  Forall (fun n0 =>
            wellFormedNode n0 -> mentionFree (ranges n0) ->
            forall pd po text nodes d p flag,
              strlen text = nodeLength n0 ->
              collapseChildren n0 pd po text = Return nodes ->
              covered d p (ranges n0) -> flagOf d = Some flag ->
              exists n, In n nodes /\ holds n (p + po)
                        /\ flag (Display.partial n) = Some true) tree ->
  forall pd po text st st' d p flag,
    Forall (fun n => 0 <= nodeStart n /\ 0 <= nodeLength n
                     /\ nodeEnd n <= strlen text) tree ->
    Forall wellFormedNode tree -> mentionFree tree ->
    collapseLoop pd po text tree (Return st) = Return st' ->
    covered d p tree -> flagOf d = Some flag ->
    exists n, In n (collapsed st') /\ holds n (p + po)
              /\ flag (Display.partial n) = Some true.
Proof.
  induction 1 as [|n0 tree Hn _ IH];
    intros pd po text st st' d p flag Hbounds Hwf Hfree H Hcov Hflag.
  - inversion Hcov.
  - inversion Hbounds as [|? ? (Hs & Hl & He) Hbt]; subst.
    inversion Hwf as [|? ? Hwfn Hwft]; subst.
    apply mentionFree_cons in Hfree. destruct Hfree as (Hm & Hfc & Hft).
    unfold nodeEnd in He.
    rewrite collapseLoop_cons in H.
    destruct (collapseStep_other (collapseChildren n0) pd po text st n0 Hm)
      as (own & Eown & Es).
    rewrite Es in H.
    assert (Hslice : strlen (slice text (nodeStart n0) (nodeStart n0 + nodeLength n0))
                     = nodeLength n0).
    { rewrite strlen_slice by lia. lia. }
    destruct (@collapseChildren_tiles n0 Hwfn (spread pd own) (nodeStart n0 + po)
                _ Hslice) as (inner & Einner & Htiles).
    rewrite Einner in H. cbn [bind] in H.
    pose proof (collapseLoop_grows _ _ _ _ _ H) as Hgrow. cbn [collapsed] in Hgrow.
    apply covered_cons in Hcov. destruct Hcov as [Hcov|Hcov].
    + assert (Hhere : exists n, In n inner /\ holds n (p + po)
                                /\ flag (Display.partial n) = Some true).
      { apply covers_node in Hcov. destruct Hcov as [[Hp Hd]|Hcov].
        - destruct (flagOf_flag _ Hflag) as (Hin & _ & Hown).
          rewrite Hslice in Htiles.
          destruct (@tiles_holds _ _ inner (p + po) Htiles ltac:(lia))
            as (n & Hn1 & Hn2).
          exists n. split; [exact Hn1|]. split; [exact Hn2|].
          destruct (collapseRangeTree_returns_inheriting (ranges n0)
                      (spread pd own) (nodeStart n0 + po)
                      (slice text (nodeStart n0) (nodeStart n0 + nodeLength n0)))
            as (nodes & En & Hinh).
          rewrite <- collapseChildren_eq, Einner in En. injection En as <-.
          rewrite Forall_forall in Hinh. apply (Hinh n Hn1 flag Hin).
          rewrite (spread_flag _ _ Hin).
          rewrite (Hown own); [reflexivity|]. rewrite <- Hd. exact Eown.
        - destruct (Hn Hwfn Hfc (spread pd own) (nodeStart n0 + po) _ inner d
                      (p - nodeStart n0) flag Hslice Einner Hcov Hflag)
            as (n & Hn1 & Hn2 & Hn3).
          exists n. split; [exact Hn1|]. split; [|exact Hn3].
          replace (p + po) with (p - nodeStart n0 + (nodeStart n0 + po)) by lia.
          exact Hn2. }
      destruct Hhere as (n & Hn1 & Hn2 & Hn3).
      exists n. split; [|split; assumption].
      apply Hgrow. apply in_or_app. right. exact Hn1.
    + eapply IH; eauto.
Qed.

Lemma collapseRangeTree_shows_from tree :
  Forall (fun n0 =>
            wellFormedNode n0 -> mentionFree (ranges n0) ->
            forall pd po text nodes d p flag,
              strlen text = nodeLength n0 ->
              collapseChildren n0 pd po text = Return nodes ->
              covered d p (ranges n0) -> flagOf d = Some flag ->
              exists n, In n nodes /\ holds n (p + po)
                        /\ flag (Display.partial n) = Some true) tree ->
  forall pd po text nodes d p flag,
    sortedFrom 0 tree -> within (strlen text) tree ->
    Forall wellFormedNode tree -> mentionFree tree ->
    collapseRangeTree pd po text tree = Return nodes ->
    covered d p tree -> flagOf d = Some flag ->
    exists n, In n nodes /\ holds n (p + po)
              /\ flag (Display.partial n) = Some true.
Proof.
  intros Hall pd po text nodes d p flag Hsorted Hwithin Hwf Hfree H Hcov Hflag.
  unfold collapseRangeTree in H. bind_inv H. injection H as <-.
  pose proof (@sortedFrom_bounds 0 tree (strlen text) ltac:(lia) Hsorted Hwithin)
    as Hbounds.
  destruct (@collapseLoop_shows tree Hall pd po text collapseInit t d p flag
              Hbounds Hwf Hfree E Hcov Hflag) as (n & Hn1 & Hn2 & Hn3).
  exists n. split; [|split; assumption].
  apply collapseFinish_incl. exact Hn1.
Qed.

Lemma collapseChildren_shows n0 :
  wellFormedNode n0 -> mentionFree (ranges n0) ->
  forall pd po text nodes d p flag,
    strlen text = nodeLength n0 ->
    collapseChildren n0 pd po text = Return nodes ->
    covered d p (ranges n0) -> flagOf d = Some flag ->
    exists n, In n nodes /\ holds n (p + po)
              /\ flag (Display.partial n) = Some true.
Proof.
  induction n0 as [r children IH] using RangeNode_ind.
  intros Hwf Hfree pd po text nodes d p flag Hlen H Hcov Hflag.
  apply wellFormedNode_unfold in Hwf. destruct Hwf as (Hsorted & Hwithin & Hwf).
  rewrite collapseChildren_eq in H. cbn [ranges] in *.
  unfold nodeLength in Hlen. cbn [nodeRange] in Hlen. rewrite <- Hlen in Hwithin.
  eapply (@collapseRangeTree_shows_from children IH); eauto.
Qed.

Lemma collapseRangeTree_showing (text : JSString) (tree : list RangeNode)
    (d : RangeData) (p : Z) (flag : PartialDisplayNode -> option bool) :
  wellFormed tree -> within (strlen text) tree -> mentionFree tree ->
  covered d p tree -> flagOf d = Some flag ->
  forall parentData parentOffset,
  exists nodes n,
    collapseRangeTree parentData parentOffset text tree = Return nodes
    /\ In n nodes /\ holds n (p + parentOffset)
    /\ flag (Display.partial n) = Some true.
Proof.
  intros [Hsorted Hwf] Hwithin Hfree Hcov Hflag parentData parentOffset.
  destruct (collapseRangeTree_returns_inheriting tree parentData parentOffset text)
    as (nodes & E & _).
  assert (Hall : Forall (fun n0 =>
            wellFormedNode n0 -> mentionFree (ranges n0) ->
            forall pd po text nodes d p flag,
              strlen text = nodeLength n0 ->
              collapseChildren n0 pd po text = Return nodes ->
              covered d p (ranges n0) -> flagOf d = Some flag ->
              exists n, In n nodes /\ holds n (p + po)
                        /\ flag (Display.partial n) = Some true) tree).
  { apply Forall_forall. intros n0 _. apply collapseChildren_shows. }
  destruct (@collapseRangeTree_shows_from tree Hall parentData parentOffset text
              nodes d p flag Hsorted Hwithin Hwf Hfree E Hcov Hflag)
    as (n & Hn).
  exists nodes, n. split; [exact E | exact Hn].
Qed.

(** X16.  A range of the tree shows in the output: for a well-formed tree
    without mention nodes whose nodes end inside the text, every position
    covered by a node that stands for a flag (bold, italic, monospace,
    spoiler, strikethrough or keyword highlight) lies in a segment of the
    output of [collapseRangeTree] that has this flag. *)
Theorem collapseRangeTree_shows (text : JSString) (tree : list RangeNode)
    (d : RangeData) (p : Z) (flag : PartialDisplayNode -> option bool) :
  wellFormed tree -> within (strlen text) tree -> mentionFree tree ->
  covered d p tree -> flagOf d = Some flag ->
  forall parentData parentOffset,
  exists nodes n,
    collapseRangeTree parentData parentOffset text tree = Return nodes
    /\ In n nodes /\ holds n (p + parentOffset)
    /\ flag (Display.partial n) = Some true.
Proof. apply collapseRangeTree_showing. Qed.

Lemma collapseRangeTree_shows_witness :
  wellFormed helloTree /\ within (strlen helloWorld) helloTree
  /\ mentionFree helloTree
  /\ covered (data (formatted ITALIC 3 5)) 4 helloTree
  /\ flagOf (data (formatted ITALIC 3 5)) = Some Display.isItalic
  /\ exists nodes n,
       collapseRangeTree emptyPartial 0 helloWorld helloTree = Return nodes
       /\ In n nodes /\ holds n (4 + 0)
       /\ Display.isItalic (Display.partial n) = Some true.
Proof.
  assert (H : wellFormed helloTree) by (unfold wellFormed, helloTree; wellFormed_tac).
  assert (W : within (strlen helloWorld) helloTree).
  { unfold helloTree. repeat constructor; vm_compute; discriminate. }
  assert (M : mentionFree helloTree).
  { unfold mentionFree, helloTree. cbn. repeat constructor. }
  assert (C : covered (data (formatted ITALIC 3 5)) 4 helloTree).
  { unfold covered, helloTree. apply Exists_cons_hd. apply covers_unfold. right.
    apply Exists_cons_hd. apply covers_unfold. left. cbn. split; [lia | reflexivity]. }
  assert (F : flagOf (data (formatted ITALIC 3 5)) = Some Display.isItalic)
    by reflexivity.
  split; [exact H|]. split; [exact W|]. split; [exact M|]. split; [exact C|].
  split; [exact F|].
  exact (collapseRangeTree_shows helloWorld H W M C F emptyPartial 0).
Defined.

(** ** [insertRange] and [collapseRangeTree] together *)

Lemma collapseRangeTree_spelling tree :
  wellFormed tree -> spells (fun pd po text => collapseRangeTree pd po text tree).
Proof.
  intros [Hsorted Hwf].
  apply (@collapseRangeTree_spells_from tree); try assumption.
  apply Forall_forall. intros n _. apply collapseChildren_spells.
Qed.

(** X17.  Building a tree from any sequence of valid ranges that end inside
    the text and collapsing it returns segments that spell the text and
    tile it from 0 to its length. *)
Theorem insert_then_collapse_tiles (text : JSString)
    (rs : list (BodyRange RangeData)) :
  Forall validRange rs ->
  Forall (fun r => start r + length r <= strlen text) rs ->
  exists forest nodes,
    insertRanges rs [] = Return forest
    /\ collapseRangeTree emptyPartial 0 text forest = Return nodes
    /\ joinText nodes = text
    /\ tiles 0 (strlen text) nodes.
Proof.
  intros Hvalid Hends.
  assert (W0 : wellFormed []) by (split; [exact I | constructor]).
  destruct (@insertRanges_preserve rs [] Hvalid W0) as (forest & E & Hwf & B & _).
  assert (Hwithin : within (strlen text) forest)
    by (apply B; [exact Hends | constructor]).
  destruct (collapseRangeTree_spelling Hwf emptyPartial 0 text) as (nodes & En & Hj).
  destruct (collapseRangeTree_tiling text Hwf Hwithin emptyPartial 0)
    as (nodes' & En' & Ht).
  rewrite En in En'. injection En' as <-.
  exists forest, nodes. auto.
Qed.

Lemma insert_then_collapse_tiles_witness :
  Forall validRange [formatted BOLD 0 5; formatted ITALIC 3 5]
  /\ Forall (fun r => start r + length r <= strlen helloWorld)
       [formatted BOLD 0 5; formatted ITALIC 3 5]
  /\ exists forest nodes,
       insertRanges [formatted BOLD 0 5; formatted ITALIC 3 5] [] = Return forest
       /\ collapseRangeTree emptyPartial 0 helloWorld forest = Return nodes
       /\ joinText nodes = helloWorld
       /\ tiles 0 (strlen helloWorld) nodes.
Proof.
  assert (V : Forall validRange [formatted BOLD 0 5; formatted ITALIC 3 5]).
  { repeat constructor; cbn; lia. }
  assert (B : Forall (fun r => start r + length r <= strlen helloWorld)
                [formatted BOLD 0 5; formatted ITALIC 3 5]).
  { repeat constructor; vm_compute; discriminate. }
  split; [exact V|]. split; [exact B|].
  exact (insert_then_collapse_tiles helloWorld V B).
Defined.

(** What is formatted is shown formatted. *)
Lemma insert_then_collapse_showing (text : JSString)
    (rs : list (BodyRange RangeData)) (r : BodyRange RangeData) (p : Z)
    (flag : PartialDisplayNode -> option bool) :
  Forall validRange rs ->
  Forall (fun r => start r + length r <= strlen text) rs ->
  Forall (fun r => isMention (data r) = false) rs ->
  In r rs -> start r <= p < start r + length r ->
  flagOf (data r) = Some flag ->
  exists forest nodes n,
    insertRanges rs [] = Return forest
    /\ collapseRangeTree emptyPartial 0 text forest = Return nodes
    /\ In n nodes /\ holds n p
    /\ flag (Display.partial n) = Some true.
Proof.
  intros Hvalid Hends Hm Hin Hp Hflag.
  assert (W0 : wellFormed []) by (split; [exact I | constructor]).
  destruct (@insertRanges_preserve rs [] Hvalid W0) as (forest & E & Hwf & B & M).
  assert (Hwithin : within (strlen text) forest)
    by (apply B; [exact Hends | constructor]).
  assert (Hfree : mentionFree forest) by (apply M; [exact Hm | constructor]).
  destruct (insertRanges_covers rs []) as (forest' & E' & _ & N).
  rewrite E in E'. injection E' as <-.
  pose proof (N r p Hin Hp) as Hcov.
  destruct (collapseRangeTree_showing text Hwf Hwithin Hfree Hcov Hflag emptyPartial 0)
    as (nodes & n & En & Hn1 & Hn2 & Hn3).
  exists forest, nodes, n. rewrite Z.add_0_r in Hn2. auto.
Qed.

(** *** No formatting out of nowhere *)

Lemma tiles_span a b nodes n q :
  tiles a b nodes -> In n nodes -> holds n q -> a <= q < b.
Proof.
  revert a. induction nodes as [|m nodes IH]; intros a Ht Hin Hq; [destruct Hin|].
  cbn [tiles] in Ht. destruct Ht as (Hs & Hp & _ & Hr).
  assert (Hb : a + Display.length m <= b).
  { clear -Hr. revert Hr. generalize (a + Display.length m). 
    induction nodes as [|k nodes IHn]; intros c Hr; cbn [tiles] in Hr.
    - lia.
    - destruct Hr as (_ & Hk & _ & Hr). apply IHn in Hr. lia. }
  destruct Hin as [<-|Hin].
  - unfold holds in Hq. lia.
  - specialize (IH _ Hr Hin Hq). lia.
Qed.

Lemma tiles_unique a b nodes n n' q :
  tiles a b nodes -> In n nodes -> In n' nodes -> holds n q -> holds n' q -> n = n'.
Proof.
  revert a. induction nodes as [|m nodes IH]; intros a Ht Hin Hin' Hq Hq';
    [destruct Hin|].
  cbn [tiles] in Ht. destruct Ht as (Hs & Hp & _ & Hr).
  destruct Hin as [<-|Hin]; destruct Hin' as [<-|Hin'].
  - reflexivity.
  - pose proof (@tiles_span _ _ _ _ _ Hr Hin' Hq'). unfold holds in Hq. lia.
  - pose proof (@tiles_span _ _ _ _ _ Hr Hin Hq). unfold holds in Hq'. lia.
  - eapply IH; eauto.
Qed.

(** A flag that a range contributes is the flag the range stands for. *)
Lemma rangeToPartialNode_own_flag d own flag :
  rangeToPartialNode d = Return own -> In flag booleanFlags ->
  flag own = Some true -> flagOf d = Some flag.
Proof.
  unfold booleanFlags. cbn [In]. intros H Hin Hf.
  destruct d as [m|l|f|o]; cbn in H.
  - discriminate.
  - injection H as <-.
    destruct Hin as [<-|[<-|[<-|[<-|[<-|[<-|[]]]]]]]; discriminate.
  - destruct f as [[] sp]; cbn in H; injection H as <-;
      destruct Hin as [<-|[<-|[<-|[<-|[<-|[<-|[]]]]]]];
      (discriminate || reflexivity).
  - destruct o as [[]]. cbn in H. injection H as <-.
    destruct Hin as [<-|[<-|[<-|[<-|[<-|[<-|[]]]]]]];
      (discriminate || reflexivity).
Qed.

Lemma collapseLoop_sound tree :
  Forall (fun n0 =>
            wellFormedNode n0 ->
            forall pd po text nodes flag,
              In flag booleanFlags -> strlen text = nodeLength n0 ->
              collapseChildren n0 pd po text = Return nodes ->
              Forall (fun n =>
                        forall q, holds n q ->
                                  flag (Display.partial n) = Some true ->
                                  flag pd = Some true
                                  \/ exists d, flagOf d = Some flag
                                               /\ covered d (q - po) (ranges n0))
                nodes) tree ->
  forall pd po text st st' flag (C : RangeData -> Z -> Prop),
    In flag booleanFlags ->
    Forall (fun n => 0 <= nodeStart n /\ 0 <= nodeLength n
                     /\ nodeEnd n <= strlen text) tree ->
    Forall wellFormedNode tree ->
    (forall d q, covered d q tree -> C d q) ->
    collapseLoop pd po text tree (Return st) = Return st' ->
    Forall (fun n =>
              forall q, holds n q -> flag (Display.partial n) = Some true ->
                        flag pd = Some true
                        \/ exists d, flagOf d = Some flag /\ C d (q - po))
      (collapsed st) ->
    Forall (fun n =>
              forall q, holds n q -> flag (Display.partial n) = Some true ->
                        flag pd = Some true
                        \/ exists d, flagOf d = Some flag /\ C d (q - po))
      (collapsed st').
Proof.
  induction 1 as [|n0 tree Hn _ IH];
    intros pd po text st st' flag C Hin Hbounds Hwf HC H Hst.
  - cbn in H. injection H as <-. exact Hst.
  - inversion Hbounds as [|? ? (Hs & Hl & He) Hbt]; subst.
    inversion Hwf as [|? ? Hwfn Hwft]; subst.
    unfold nodeEnd in He.
    rewrite collapseLoop_cons in H.
    assert (HCt : forall d q, covered d q tree -> C d q).
    { intros d q Hc. apply HC. apply covered_cons. right. exact Hc. }
    destruct (isMention (nodeData n0)) eqn:Em.
    + destruct (nodeData n0) as [m| | |] eqn:Ed; try discriminate.
      rewrite (collapseStep_mention _ _ _ _ _ _ Ed) in H.
      eapply (IH pd po text _ st' flag C); eauto.
    + destruct (collapseStep_other (collapseChildren n0) pd po text st n0 Em)
        as (own & Eown & Es).
      rewrite Es in H.
      assert (Hslice : strlen (slice text (nodeStart n0) (nodeStart n0 + nodeLength n0))
                       = nodeLength n0).
      { rewrite strlen_slice by lia. lia. }
      destruct (@collapseChildren_tiles n0 Hwfn (spread pd own) (nodeStart n0 + po)
                  _ Hslice) as (inner & Einner & Htiles).
      rewrite Einner in H. cbn [bind] in H. rewrite Hslice in Htiles.
      eapply (IH pd po text _ st' flag C); eauto.
      cbn [collapsed]. apply Forall_app. split.
      * unfold afterGap. destruct (nodeStart n0 >? offset st); [|exact Hst].
        cbn [collapsed]. apply Forall_app. split; [exact Hst|].
        constructor; [|constructor]. intros q _ Hf. left. exact Hf.
      * pose proof (Hn Hwfn (spread pd own) (nodeStart n0 + po) _ inner flag
                      Hin Hslice Einner) as Hinner.
        rewrite Forall_forall in Hinner |- *. intros n Hnin q Hq Hf.
        destruct (Hinner n Hnin q Hq Hf) as [Hp|(d & Hd & Hc)].
        -- rewrite (spread_flag _ _ Hin) in Hp.
           destruct (flag own) as [[|]|] eqn:Eo; cbn in Hp.
           ++ right. exists (nodeData n0). split.
              ** eapply rangeToPartialNode_own_flag; eauto.
              ** apply HC. apply covered_cons. left. apply covers_node. left.
                 pose proof (@tiles_span _ _ _ _ _ Htiles Hnin Hq). split; [lia | reflexivity].
           ++ discriminate.
           ++ left. exact Hp.
        -- right. exists d. split; [exact Hd|].
           apply HC. apply covered_cons. left. apply covers_node. right.
           replace (q - po - nodeStart n0) with (q - (nodeStart n0 + po)) by lia.
           exact Hc.
Qed.

Lemma collapseRangeTree_sound_from tree :
  Forall (fun n0 =>
            wellFormedNode n0 ->
            forall pd po text nodes flag,
              In flag booleanFlags -> strlen text = nodeLength n0 ->
              collapseChildren n0 pd po text = Return nodes ->
              Forall (fun n =>
                        forall q, holds n q ->
                                  flag (Display.partial n) = Some true ->
                                  flag pd = Some true
                                  \/ exists d, flagOf d = Some flag
                                               /\ covered d (q - po) (ranges n0))
                nodes) tree ->
  forall pd po text nodes flag,
    In flag booleanFlags ->
    sortedFrom 0 tree -> within (strlen text) tree -> Forall wellFormedNode tree ->
    collapseRangeTree pd po text tree = Return nodes ->
    Forall (fun n =>
              forall q, holds n q -> flag (Display.partial n) = Some true ->
                        flag pd = Some true
                        \/ exists d, flagOf d = Some flag /\ covered d (q - po) tree)
      nodes.
Proof.
  intros Hall pd po text nodes flag Hin Hsorted Hwithin Hwf H.
  unfold collapseRangeTree in H. bind_inv H. injection H as <-.
  pose proof (@sortedFrom_bounds 0 tree (strlen text) ltac:(lia) Hsorted Hwithin)
    as Hbounds.
  pose proof (@collapseLoop_sound tree Hall pd po text collapseInit t flag
                (fun d q => covered d q tree) Hin Hbounds Hwf
                (fun d q Hc => Hc) E (Forall_nil _)) as Hst.
  unfold collapseFinish. destruct (strlen text >? offset t); [|exact Hst].
  apply Forall_app. split; [exact Hst|].
  constructor; [|constructor]. intros q _ Hf. left. exact Hf.
Qed.

Lemma collapseChildren_sound n0 :
  wellFormedNode n0 ->
  forall pd po text nodes flag,
    In flag booleanFlags -> strlen text = nodeLength n0 ->
    collapseChildren n0 pd po text = Return nodes ->
    Forall (fun n =>
              forall q, holds n q -> flag (Display.partial n) = Some true ->
                        flag pd = Some true
                        \/ exists d, flagOf d = Some flag
                                     /\ covered d (q - po) (ranges n0))
      nodes.
Proof.
  induction n0 as [r children IH] using RangeNode_ind.
  intros Hwf pd po text nodes flag Hin Hlen H.
  apply wellFormedNode_unfold in Hwf. destruct Hwf as (Hsorted & Hwithin & Hwf).
  rewrite collapseChildren_eq in H. cbn [ranges] in *.
  unfold nodeLength in Hlen. cbn [nodeRange] in Hlen. rewrite <- Hlen in Hwithin.
  eapply (@collapseRangeTree_sound_from children IH); eauto.
Qed.

Lemma collapseRangeTree_sounding text tree flag :
  wellFormed tree -> within (strlen text) tree -> In flag booleanFlags ->
  forall pd po,
  exists nodes,
    collapseRangeTree pd po text tree = Return nodes
    /\ forall n q,
         In n nodes -> holds n q -> flag (Display.partial n) = Some true ->
         flag pd = Some true
         \/ exists d, flagOf d = Some flag /\ covered d (q - po) tree.
Proof.
  intros [Hsorted Hwf] Hwithin Hin pd po.
  destruct (collapseRangeTree_returns_inheriting tree pd po text) as (nodes & E & _).
  exists nodes. split; [exact E|].
  assert (Hall : Forall (fun n0 =>
            wellFormedNode n0 ->
            forall pd po text nodes flag,
              In flag booleanFlags -> strlen text = nodeLength n0 ->
              collapseChildren n0 pd po text = Return nodes ->
              Forall (fun n =>
                        forall q, holds n q ->
                                  flag (Display.partial n) = Some true ->
                                  flag pd = Some true
                                  \/ exists d, flagOf d = Some flag
                                               /\ covered d (q - po) (ranges n0))
                nodes) tree).
  { apply Forall_forall. intros n0 _. apply collapseChildren_sound. }
  pose proof (@collapseRangeTree_sound_from tree Hall pd po text nodes flag
                Hin Hsorted Hwithin Hwf E) as H.
  rewrite Forall_forall in H. intros n q Hn. apply H. exact Hn.
Qed.

(** X19.  No formatting out of nowhere: for a well-formed tree whose nodes
    end inside the text, a segment returned by [collapseRangeTree] has one
    of the flags bold, italic, monospace, spoiler, strikethrough or keyword
    highlight only if [parentData] has it or each of its positions is
    covered by a node of the tree that stands for this flag. *)
Theorem collapseRangeTree_sound (text : JSString) (tree : list RangeNode)
    (flag : PartialDisplayNode -> option bool) :
  wellFormed tree -> within (strlen text) tree -> In flag booleanFlags ->
  forall parentData parentOffset,
  exists nodes,
    collapseRangeTree parentData parentOffset text tree = Return nodes
    /\ forall n q,
         In n nodes -> holds n q -> flag (Display.partial n) = Some true ->
         flag parentData = Some true
         \/ exists d, flagOf d = Some flag /\ covered d (q - parentOffset) tree.
Proof. apply collapseRangeTree_sounding. Qed.

Lemma collapseRangeTree_sound_witness :
  wellFormed helloTree /\ within (strlen helloWorld) helloTree
  /\ In Display.isBold booleanFlags
  /\ exists nodes,
       collapseRangeTree emptyPartial 0 helloWorld helloTree = Return nodes
       /\ forall n q,
            In n nodes -> holds n q ->
            Display.isBold (Display.partial n) = Some true ->
            Display.isBold emptyPartial = Some true
            \/ exists d, flagOf d = Some Display.isBold
                         /\ covered d (q - 0) helloTree.
Proof.
  assert (H : wellFormed helloTree) by (unfold wellFormed, helloTree; wellFormed_tac).
  assert (W : within (strlen helloWorld) helloTree).
  { unfold helloTree. repeat constructor; vm_compute; discriminate. }
  assert (F : In Display.isBold booleanFlags) by (left; reflexivity).
  split; [exact H|]. split; [exact W|]. split; [exact F|].
  exact (@collapseRangeTree_sound helloWorld helloTree Display.isBold H W F
           emptyPartial 0).
Defined.

Lemma covered_forestRanges tree :
  forall d p off,
    covered d p tree ->
    exists f, In f (forestRanges off tree) /\ data f = d
              /\ start f <= p + off < start f + length f.
Proof.
  induction tree as [|current rest IHc IHr] using forest_ind; intros d p off Hc.
  - inversion Hc.
  - apply covered_cons in Hc. rewrite forestRanges_cons, nodeRanges_node.
    destruct Hc as [Hc|Hc].
    + apply covers_node in Hc. destruct Hc as [[Hp Hd]|Hc].
      * eexists. split; [left; reflexivity|]. cbn. split; [exact Hd | lia].
      * destruct (IHc d (p - nodeStart current) (off + nodeStart current) Hc)
          as (f & Hin & Hd & Hp).
        exists f. split; [|split; [exact Hd | lia]].
        right. apply in_or_app. left. exact Hin.
    + destruct (IHr d p off Hc) as (f & Hin & Hd & Hp).
      exists f. split; [|split; assumption].
      apply in_or_app. right. exact Hin.
Qed.

Lemma insertRanges_fragments rs :
  forall tree forest f,
    insertRanges rs tree = Return forest ->
    In f (forestRanges 0 forest) ->
    In f (forestRanges 0 tree) \/ exists r, In r rs /\ fragmentOf 0 r f.
Proof.
  induction rs as [|r rs IH]; intros tree forest f H Hin.
  - cbn in H. injection H as <-. left. exact Hin.
  - rewrite insertRanges_cons in H. bind_inv H.
    destruct (IH _ _ _ H Hin) as [Ht|(r' & Hr' & Hf)].
    + destruct (@insertRange_ranges tree r t 0 E) as (F & HP & HF & _).
      apply (Permutation_in _ HP) in Ht. apply in_app_or in Ht.
      destruct Ht as [Ht|Ht]; [|left; exact Ht].
      right. exists r. split; [left; reflexivity|].
      rewrite Forall_forall in HF. apply HF. exact Ht.
    + right. exists r'. split; [right; exact Hr' | exact Hf].
Qed.

Lemma emptyPartial_flag flag :
  In flag booleanFlags -> flag emptyPartial = None.
Proof.
  unfold booleanFlags. cbn [In].
  intros [<-|[<-|[<-|[<-|[<-|[<-|[]]]]]]]; reflexivity.
Qed.

(** X18.  What is shown formatted is what was formatted: when valid ranges,
    none a mention, that end inside the text are inserted one at a time
    into the empty tree and the tree is collapsed, a segment has one of the
    flags bold, italic, monospace, spoiler, strikethrough or keyword
    highlight exactly when its positions lie in an inserted range that
    stands for this flag. *)
Theorem insert_then_collapse_exact (text : JSString)
    (rs : list (BodyRange RangeData)) :
  Forall validRange rs ->
  Forall (fun r => start r + length r <= strlen text) rs ->
  Forall (fun r => isMention (data r) = false) rs ->
  exists forest nodes,
    insertRanges rs [] = Return forest
    /\ collapseRangeTree emptyPartial 0 text forest = Return nodes
    /\ forall n q flag,
         In n nodes -> holds n q -> In flag booleanFlags ->
         (flag (Display.partial n) = Some true
          <-> exists r, In r rs /\ flagOf (data r) = Some flag
                        /\ start r <= q < start r + length r).
Proof.
  intros Hvalid Hends Hm.
  assert (W0 : wellFormed []) by (split; [exact I | constructor]).
  destruct (@insertRanges_preserve rs [] Hvalid W0) as (forest & E & Hwf & B & _).
  assert (Hwithin : within (strlen text) forest)
    by (apply B; [exact Hends | constructor]).
  destruct (collapseRangeTree_tiling text Hwf Hwithin emptyPartial 0)
    as (nodes & En & Ht).
  exists forest, nodes. split; [exact E|]. split; [exact En|].
  intros n q flag Hn Hq Hflag. split.
  - intros Hf.
    destruct (@collapseRangeTree_sounding text forest flag Hwf Hwithin Hflag
                emptyPartial 0) as (nodes' & En' & Hs).
    rewrite En in En'. injection En' as <-.
    destruct (Hs n q Hn Hq Hf) as [Hp|(d & Hd & Hc)].
    + rewrite (emptyPartial_flag Hflag) in Hp. discriminate.
    + destruct (@covered_forestRanges forest d (q - 0) 0 Hc) as (f & Hfin & Hfd & Hfp).
      destruct (@insertRanges_fragments rs [] forest f E Hfin)
        as [[]|(r & Hr & Hfd' & Hlo & Hhi)].
      exists r. split; [exact Hr|]. split; [congruence | lia].
  - intros (r & Hr & Hd & Hp).
    destruct (@insert_then_collapse_showing text rs r q flag
                Hvalid Hends Hm Hr Hp Hd)
      as (forest' & nodes' & n' & E' & En' & Hn' & Hq' & Hf').
    rewrite E in E'. injection E' as <-.
    rewrite En in En'. injection En' as <-.
    rewrite (@tiles_unique _ _ nodes n n' q Ht Hn Hn' Hq Hq'). exact Hf'.
Qed.

Lemma insert_then_collapse_exact_witness :
  Forall validRange [formatted BOLD 0 5; formatted ITALIC 3 5]
  /\ Forall (fun r => start r + length r <= strlen helloWorld)
       [formatted BOLD 0 5; formatted ITALIC 3 5]
  /\ Forall (fun r => isMention (data r) = false)
       [formatted BOLD 0 5; formatted ITALIC 3 5]
  /\ exists forest nodes,
       insertRanges [formatted BOLD 0 5; formatted ITALIC 3 5] [] = Return forest
       /\ collapseRangeTree emptyPartial 0 helloWorld forest = Return nodes
       /\ forall n q flag,
            In n nodes -> holds n q -> In flag booleanFlags ->
            (flag (Display.partial n) = Some true
             <-> exists r, In r [formatted BOLD 0 5; formatted ITALIC 3 5]
                           /\ flagOf (data r) = Some flag
                           /\ start r <= q < start r + length r).
Proof.
  assert (V : Forall validRange [formatted BOLD 0 5; formatted ITALIC 3 5]).
  { repeat constructor; cbn; lia. }
  assert (B : Forall (fun r => start r + length r <= strlen helloWorld)
                [formatted BOLD 0 5; formatted ITALIC 3 5]).
  { repeat constructor; vm_compute; discriminate. }
  assert (M : Forall (fun r => isMention (data r) = false)
                [formatted BOLD 0 5; formatted ITALIC 3 5]).
  { repeat constructor. }
  split; [exact V|]. split; [exact B|]. split; [exact M|].
  exact (insert_then_collapse_exact helloWorld V B M).
Defined.

(** ** More on [applyRangesForText] *)

Lemma strlen_app a b : strlen (a ++ b) = strlen a + strlen b.
Proof. unfold strlen. rewrite length_app. lia. Qed.

Lemma strlen_nonneg a : 0 <= strlen a.
Proof. unfold strlen. lia. Qed.

Lemma slice_prefix a x : slice (a ++ x) 0 (strlen a) = a.
Proof.
  rewrite slice_nonneg by (pose proof (strlen_nonneg a); lia).
  unfold strlen. rewrite length_app.
  replace (Nat.min (Z.to_nat 0) (List.length a + List.length x)) with 0%nat by lia.
  replace (Nat.min (Z.to_nat (Z.of_nat (List.length a)))
             (List.length a + List.length x)) with (List.length a) by lia.
  rewrite Nat.sub_0_r. cbn [skipn].
  rewrite firstn_app, Nat.sub_diag, firstn_all. cbn. apply app_nil_r.
Qed.

Lemma sliceFrom_suffix a x : sliceFrom (a ++ x) (strlen a) = x.
Proof.
  unfold sliceFrom.
  rewrite slice_nonneg by (pose proof (strlen_nonneg a);
                           pose proof (strlen_nonneg (a ++ x)); lia).
  unfold strlen. rewrite length_app.
  replace (Nat.min (Z.to_nat (Z.of_nat (List.length a)))
             (List.length a + List.length x)) with (List.length a) by lia.
  replace (Nat.min (Z.to_nat (Z.of_nat (List.length a + List.length x)))
             (List.length a + List.length x))
    with (List.length a + List.length x)%nat by lia.
  rewrite skipn_app, skipn_all, Nat.sub_diag. cbn [skipn app].
  replace (List.length a + List.length x - List.length a)%nat
    with (List.length x) by lia.
  apply firstn_all.
Qed.

Lemma applyRangesForText_one_spoiler c text mentions spoiler :
  applyRangesForText (Some (c :: text)) mentions [spoiler]
  = Some (fold_left applyMention
            (sort byStartDescending
               (snd (applySpoiler (c :: text, mentions) spoiler)))
            (fst (applySpoiler (c :: text, mentions) spoiler))).
Proof. reflexivity. Qed.

(** X20.  A mention hidden by a spoiler is dropped with the text it sat
    in: with one spoiler and any mentions that all start inside it, the
    result of [applyRangesForText] is the text with the span of the spoiler
    replaced by [SPOILER_REPLACEMENT], and no replacement text of a mention
    is put in. *)
Theorem applyRangesForText_hidden_mentions (c : CodeUnit) (text : JSString)
    (mentions : list HydratedBodyRangeMention) (spoiler : BodyRange Formatting) :
  Forall (fun m => start spoiler <= start m < start spoiler + length spoiler)
    mentions ->
  applyRangesForText (Some (c :: text)) mentions [spoiler]
  = Some (slice (c :: text) 0 (start spoiler) ++ SPOILER_REPLACEMENT
            ++ sliceFrom (c :: text) (start spoiler + length spoiler)).
Proof.
  intros Hall. rewrite applyRangesForText_one_spoiler.
  cbn [applySpoiler fst snd].
  replace (filter _ mentions) with (@nil HydratedBodyRangeMention).
  - reflexivity.
  - symmetry. induction Hall as [|m ms Hm _ IH]; [reflexivity|].
    cbn [filter].
    destruct (Z.ltb_spec (start m) (start spoiler)); [lia|].
    rewrite Z.geb_leb.
    destruct (Z.leb_spec (start spoiler + length spoiler) (start m)); [lia|].
    cbn [orb]. exact IH.
Qed.

Lemma applyRangesForText_hidden_mentions_witness :
  Forall (fun m : HydratedBodyRangeMention => 0 <= start m < 0 + 5) [bobMention]
  /\ applyRangesForText (Some helloWorld) [bobMention]
       [mkBodyRange 0 5 (mkFormatting SPOILER None)]
     = Some (SPOILER_REPLACEMENT ++ js " world").
Proof.
  assert (A : Forall (fun m : HydratedBodyRangeMention =>
                        start (mkBodyRange 0 5 (mkFormatting SPOILER None)) <= start m
                        < start (mkBodyRange 0 5 (mkFormatting SPOILER None))
                          + length (mkBodyRange 0 5 (mkFormatting SPOILER None)))
                [bobMention]).
  { repeat constructor; vm_compute; discriminate. }
  split; [exact A|].
  exact (@applyRangesForText_hidden_mentions 104%N (js "ello world") [bobMention]
           (mkBodyRange 0 5 (mkFormatting SPOILER None)) A).
Defined.

(** X21.  A mention outside a spoiler is put in at the right place: when
    the spoiler hides [hidden] and a mention of length 1 stands for the
    code unit [c] further on, the result is the text with [hidden] replaced
    by [SPOILER_REPLACEMENT] and [c] by [@] and the replacement text; the
    same holds when the mention comes before the spoiler. *)
Theorem applyRangesForText_mention_and_spoiler
    (a hidden b rest : JSString) (c : CodeUnit) (m : HydratedMention)
    (f : Formatting) :
  applyRangesForText (Some (a ++ hidden ++ b ++ c :: rest))
    [mkBodyRange (strlen a + strlen hidden + strlen b) 1 m]
    [mkBodyRange (strlen a) (strlen hidden) f]
  = Some (a ++ SPOILER_REPLACEMENT ++ b ++ js "@" ++ replacementText m ++ rest)
  /\ applyRangesForText (Some (a ++ c :: b ++ hidden ++ rest))
       [mkBodyRange (strlen a) 1 m]
       [mkBodyRange (strlen a + 1 + strlen b) (strlen hidden) f]
     = Some (a ++ js "@" ++ replacementText m ++ b ++ SPOILER_REPLACEMENT ++ rest).
Proof.
  pose proof (strlen_nonneg a) as Ha. pose proof (strlen_nonneg hidden) as Hh.
  pose proof (strlen_nonneg b) as Hb.
  split.
  - destruct (a ++ hidden ++ b ++ c :: rest) as [|c0 t0] eqn:Et.
    { destruct a, hidden, b; discriminate. }
    rewrite applyRangesForText_one_spoiler. rewrite <- Et. clear Et.
    cbn [applySpoiler fst snd start length data filter map].
    destruct (Z.ltb_spec (strlen a + strlen hidden + strlen b) (strlen a)); [lia|].
    rewrite Z.geb_leb.
    destruct (Z.leb_spec (strlen a + strlen hidden)
                (strlen a + strlen hidden + strlen b)); [|lia].
    cbn [orb filter map start length data fold_left applyMention sort fold_right
           insertSorted].
    rewrite Z.geb_leb.
    destruct (Z.leb_spec (strlen a + strlen hidden)
                (strlen a + strlen hidden + strlen b)); [|lia].
    cbn [start length data sort fold_right insertSorted fold_left applyMention].
    rewrite slice_prefix.
    replace (a ++ hidden ++ b ++ c :: rest) with ((a ++ hidden) ++ b ++ c :: rest)
      by (rewrite <- app_assoc; reflexivity).
    replace (strlen a + strlen hidden) with (strlen (a ++ hidden))
      by apply strlen_app.
    rewrite sliceFrom_suffix. rewrite strlen_app.
    replace (strlen a + strlen hidden + strlen b - (strlen hidden - strlen SPOILER_REPLACEMENT))
      with (strlen ((a ++ SPOILER_REPLACEMENT) ++ b))
      by (rewrite !strlen_app; change (strlen SPOILER_REPLACEMENT) with 4; lia).
    replace (a ++ SPOILER_REPLACEMENT ++ b ++ c :: rest)
      with (((a ++ SPOILER_REPLACEMENT) ++ b) ++ c :: rest)
      by (rewrite <- !app_assoc; reflexivity).
    unfold applyMention. cbn [start length data].
    rewrite slice_prefix.
    replace (((a ++ SPOILER_REPLACEMENT) ++ b) ++ c :: rest)
      with ((((a ++ SPOILER_REPLACEMENT) ++ b) ++ [c]) ++ rest)
      by (rewrite <- !app_assoc; reflexivity).
    replace (strlen ((a ++ SPOILER_REPLACEMENT) ++ b) + 1)
      with (strlen (((a ++ SPOILER_REPLACEMENT) ++ b) ++ [c]))
      by (rewrite (strlen_app _ [c]); reflexivity).
    rewrite sliceFrom_suffix. rewrite <- !app_assoc. reflexivity.
  - destruct (a ++ c :: b ++ hidden ++ rest) as [|c0 t0] eqn:Et.
    { destruct a; discriminate. }
    rewrite applyRangesForText_one_spoiler. rewrite <- Et. clear Et.
    cbn [applySpoiler fst snd start length data filter map].
    destruct (Z.ltb_spec (strlen a) (strlen a + 1 + strlen b)); [|lia].
    cbn [orb filter map start length data].
    rewrite Z.geb_leb.
    destruct (Z.leb_spec (strlen a + 1 + strlen b + strlen hidden) (strlen a)); [lia|].
    cbn [start length data sort fold_right insertSorted fold_left applyMention].
    replace (a ++ c :: b ++ hidden ++ rest)
      with (((a ++ [c]) ++ b) ++ hidden ++ rest)
      by (rewrite <- !app_assoc; reflexivity).
    replace (strlen a + 1 + strlen b) with (strlen ((a ++ [c]) ++ b))
      by (rewrite !strlen_app; reflexivity).
    rewrite slice_prefix.
    replace (((a ++ [c]) ++ b) ++ hidden ++ rest)
      with ((((a ++ [c]) ++ b) ++ hidden) ++ rest)
      by (rewrite <- !app_assoc; reflexivity).
    replace (strlen ((a ++ [c]) ++ b) + strlen hidden)
      with (strlen (((a ++ [c]) ++ b) ++ hidden))
      by (rewrite (strlen_app _ hidden); reflexivity).
    rewrite sliceFrom_suffix.
    unfold applyMention. cbn [start length data].
    replace (((a ++ [c]) ++ b) ++ SPOILER_REPLACEMENT ++ rest)
      with (a ++ c :: b ++ SPOILER_REPLACEMENT ++ rest)
      by (rewrite <- !app_assoc; reflexivity).
    rewrite slice_prefix.
    replace (a ++ c :: b ++ SPOILER_REPLACEMENT ++ rest)
      with ((a ++ [c]) ++ b ++ SPOILER_REPLACEMENT ++ rest)
      by (rewrite <- !app_assoc; reflexivity).
    replace (strlen a + 1) with (strlen (a ++ [c]))
      by (rewrite strlen_app; reflexivity).
    rewrite sliceFrom_suffix. reflexivity.
Qed.

(** *** The order of the mentions *)

Lemma insertSorted_perm {A} (compare : A -> A -> Z) x l :
  Permutation (insertSorted compare x l) (x :: l).
Proof.
  induction l as [|y l IH]; cbn [insertSorted]; [reflexivity|].
  destruct (compare x y <=? 0); [reflexivity|].
  rewrite IH. apply perm_swap.
Qed.

Lemma sort_perm {A} (compare : A -> A -> Z) l : Permutation (sort compare l) l.
Proof.
  induction l as [|x l IH]; [reflexivity|].
  cbn [sort fold_right]. fold (sort compare l).
  rewrite insertSorted_perm. apply perm_skip. exact IH.
Qed.

Lemma insertSorted_descending {T} (x : BodyRange T) l :
  Sorted.StronglySorted (fun a b => start b < start a) l ->
  Forall (fun y => start y <> start x) l ->
  Sorted.StronglySorted (fun a b => start b < start a) (insertSorted byStartDescending x l).
Proof.
  induction 1 as [|y l Hl IH Hy]; intros Hx; cbn [insertSorted].
  - constructor; constructor.
  - inversion Hx as [|? ? Hyx Hlx]; subst. unfold byStartDescending at 1.
    destruct (Z.leb_spec (start y - start x) 0).
    + constructor; [constructor; assumption|].
      constructor; [lia|]. eapply Forall_impl; [|exact Hy]. cbn. intros; lia.
    + constructor; [apply IH; exact Hlx|].
      eapply Permutation_Forall; [symmetry; apply insertSorted_perm|].
      constructor; [lia | exact Hy].
Qed.

Lemma sort_descending {T} (l : list (BodyRange T)) :
  NoDup (map (@start T) l) ->
  Sorted.StronglySorted (fun a b => start b < start a) (sort byStartDescending l).
Proof.
  induction l as [|x l IH]; intros Hnd; [constructor|].
  inversion Hnd as [|? ? Hx Hl]; subst.
  cbn [sort fold_right]. fold (sort byStartDescending l).
  apply insertSorted_descending; [apply IH; exact Hl|].
  eapply Permutation_Forall; [symmetry; apply sort_perm|].
  apply Forall_forall. intros y Hy E. apply Hx. rewrite <- E.
  apply in_map. exact Hy.
Qed.

Lemma descending_unique {T} (l l' : list (BodyRange T)) :
  Sorted.StronglySorted (fun a b => start b < start a) l ->
  Sorted.StronglySorted (fun a b => start b < start a) l' ->
  Permutation l l' -> l = l'.
Proof.
  intros Hl. revert l'. induction Hl as [|x l Hl IH Hx]; intros l' Hl' HP.
  - apply Permutation_nil in HP. subst. reflexivity.
  - destruct l' as [|x' l'];
      [apply Permutation_sym, Permutation_nil in HP; discriminate|].
    inversion Hl' as [|? ? Hl'0 Hx']; subst.
    assert (E : x = x').
    { assert (Hin : In x (x' :: l'))
        by (apply (Permutation_in _ HP); left; reflexivity).
      assert (Hin' : In x' (x :: l))
        by (apply (Permutation_in _ (Permutation_sym HP)); left; reflexivity).
      destruct Hin as [E|Hin]; [symmetry; exact E|].
      destruct Hin' as [E|Hin']; [exact E|].
      rewrite Forall_forall in Hx, Hx'.
      specialize (Hx _ Hin'). specialize (Hx' _ Hin). lia. }
    subst x'. f_equal. apply IH; [exact Hl'0|].
    eapply Permutation_cons_inv. exact HP.
Qed.

(** X22.  Without spoilers the order in which the mentions are given does
    not matter, as long as no two of them start at the same place:
    [applyRangesForText] sorts them before it puts them in. *)
Theorem applyRangesForText_any_order (text : option JSString)
    (mentions mentions' : list HydratedBodyRangeMention) :
  Permutation mentions mentions' ->
  NoDup (map (@start HydratedMention) mentions) ->
  applyRangesForText text mentions [] = applyRangesForText text mentions' [].
Proof.
  intros HP Hnd.
  assert (E : sort byStartDescending mentions = sort byStartDescending mentions').
  { apply descending_unique.
    - apply sort_descending. exact Hnd.
    - apply sort_descending.
      eapply Permutation_NoDup; [|exact Hnd]. apply Permutation_map. exact HP.
    - rewrite !sort_perm. exact HP. }
  destruct text as [[|c t]|]; cbn; [reflexivity| |reflexivity].
  rewrite E. reflexivity.
Qed.

Lemma applyRangesForText_any_order_witness :
  Permutation [bobMention; aliceMention] [aliceMention; bobMention]
  /\ NoDup (map (@start HydratedMention) [bobMention; aliceMention])
  /\ applyRangesForText (Some (js "a bc d")) [bobMention; aliceMention] []
     = applyRangesForText (Some (js "a bc d")) [aliceMention; bobMention] [].
Proof.
  assert (P : Permutation [bobMention; aliceMention] [aliceMention; bobMention])
    by apply perm_swap.
  assert (N : NoDup (map (@start HydratedMention) [bobMention; aliceMention])).
  { cbn. constructor; [|constructor; [|constructor]].
    - intros [H|[]]. discriminate.
    - intros []. }
  split; [exact P|]. split; [exact N|].
  exact (applyRangesForText_any_order (Some (js "a bc d")) P N).
Defined.

(** ** More on [processBodyRangesForSearchResult] *)

Lemma exec_from_Some pat s :
  forall pos i,
    RegExp.exec_from pat s pos = Some i ->
    exists before after,
      s = before ++ pat ++ after
      /\ i = pos + strlen before
      /\ forall before' after',
           s = before' ++ pat ++ after' -> strlen before <= strlen before'.
Proof.
  induction s as [|c s IH]; intros pos i H; cbn [RegExp.exec_from] in H.
  - destruct (startsWith pat []) eqn:E; [|discriminate].
    injection H as <-. apply startsWith_prefix in E. destruct E as [after E].
    exists [], after. split; [exact E|]. split; [cbn; lia|].
    intros before' after' _. apply strlen_nonneg.
  - destruct (startsWith pat (c :: s)) eqn:E.
    + injection H as <-. apply startsWith_prefix in E. destruct E as [after E].
      exists [], after. split; [exact E|]. split; [cbn; lia|].
      intros before' after' _. apply strlen_nonneg.
    + destruct (IH _ _ H) as (before & after & Hs & Hi & Hmin).
      exists (c :: before), after. split; [rewrite Hs; reflexivity|].
      split; [unfold strlen in *; cbn [List.length]; lia|].
      intros before' after' Hd. destruct before' as [|c' before'].
      * assert (startsWith pat (c :: s) = true)
          by (apply startsWith_prefix; exists after'; exact Hd).
        congruence.
      * injection Hd as <- Hd. specialize (Hmin _ _ Hd).
        unfold strlen in *. cbn [List.length]. lia.
Qed.

(** X23.  When the snippet, its markers stripped, occurs in the body,
    [processBodyRangesForSearchResult] throws in no environment and logs
    nothing, and it maps the ranges with the offset of the first
    occurrence. *)
Theorem processBodyRangesForSearchResult_match
    (LEFT RIGHT TRUNCATION snippet body : JSString) (env : Environment)
    (bodyRanges : list DisplayBodyRangeType) :
  occursIn (withNoEndTruncation LEFT RIGHT TRUNCATION snippet) body ->
  exists before after,
    body = before ++ withNoEndTruncation LEFT RIGHT TRUNCATION snippet ++ after
    /\ (forall before' after',
          body = before' ++ withNoEndTruncation LEFT RIGHT TRUNCATION snippet ++ after' ->
          strlen before <= strlen before')
    /\ processBodyRangesForSearchResult LEFT RIGHT TRUNCATION env
         snippet body bodyRanges
       = Return ([],
                 mkSearchResult (finalSnippet LEFT RIGHT TRUNCATION snippet)
                   (rangesForSnippet LEFT RIGHT TRUNCATION snippet
                      (strlen before) bodyRanges)).
Proof.
  intros Hocc.
  destruct (RegExp.exec (withNoEndTruncation LEFT RIGHT TRUNCATION snippet) body)
    as [i|] eqn:E.
  - destruct (exec_from_Some _ _ _ E) as (before & after & Hb & Hi & Hmin).
    exists before, after. split; [exact Hb|]. split; [exact Hmin|].
    unfold processBodyRangesForSearchResult. rewrite E. cbn.
    rewrite Hi. reflexivity.
  - apply exec_None in E. contradiction.
Qed.

Lemma processBodyRangesForSearchResult_match_witness :
  occursIn (withNoEndTruncation leftMarker rightMarker truncationMarker quickSnippet)
    catBody
  /\ exists before after,
       catBody
       = before
         ++ withNoEndTruncation leftMarker rightMarker truncationMarker quickSnippet
         ++ after
       /\ (forall before' after',
             catBody
             = before'
               ++ withNoEndTruncation leftMarker rightMarker truncationMarker
                    quickSnippet
               ++ after' ->
             strlen before <= strlen before')
       /\ processBodyRangesForSearchResult leftMarker rightMarker truncationMarker
            Development quickSnippet catBody [formatted BOLD 0 7]
          = Return ([],
                    mkSearchResult
                      (finalSnippet leftMarker rightMarker truncationMarker
                         quickSnippet)
                      (rangesForSnippet leftMarker rightMarker truncationMarker
                         quickSnippet (strlen before) [formatted BOLD 0 7])).
Proof.
  assert (O : occursIn (withNoEndTruncation leftMarker rightMarker
                          truncationMarker quickSnippet) catBody).
  { exists (js "a "), (js " cat"). vm_compute. reflexivity. }
  split; [exact O|].
  exact (@processBodyRangesForSearchResult_match leftMarker rightMarker
           truncationMarker quickSnippet catBody Development
           [formatted BOLD 0 7] O).
Defined.

Lemma highlightStep_fold LEFT RIGHT TRUNCATION snippet ms :
  forall acc k,
    fst (fold_left (highlightStep LEFT RIGHT TRUNCATION snippet) ms (acc, k))
    = acc ++ fst (fold_left (highlightStep LEFT RIGHT TRUNCATION snippet) ms ([], k)).
Proof.
  induction ms as [|[[w gs] ge] ms IH]; intros acc k.
  - cbn. rewrite app_nil_r. reflexivity.
  - cbn [fold_left highlightStep]. rewrite IH. symmetry. rewrite IH.
    cbn [app]. rewrite <- app_assoc. reflexivity.
Qed.

Lemma rangesForSnippet_parts LEFT RIGHT TRUNCATION snippet startOfSnippet bodyRanges :
  rangesForSnippet LEFT RIGHT TRUNCATION snippet startOfSnippet bodyRanges
  = map (adjustRange LEFT RIGHT TRUNCATION snippet startOfSnippet)
      (filter (includesSnippet startOfSnippet
                 (startOfSnippet
                  + strlen (withNoEndTruncation LEFT RIGHT TRUNCATION snippet)))
         bodyRanges)
    ++ highlightRanges LEFT RIGHT TRUNCATION snippet.
Proof.
  unfold rangesForSnippet, highlightRanges. cbv zeta. apply highlightStep_fold.
Qed.

(** The group of a match does not end before it begins. *)
Lemma matchAll_from_groups left right s :
  forall pos skip,
    Forall (fun m => snd (fst m) <= snd m) (RegExp.matchAll_from left right pos skip s).
Proof.
  induction s as [|c s IH]; intros pos skip.
  - destruct skip; cbn [RegExp.matchAll_from]; [|constructor].
    destruct (RegExp.matchAt left right []) as [[gs ge]|] eqn:E; [|constructor].
    constructor; [|constructor]. cbn.
    unfold RegExp.matchAt in E. destruct (startsWith left []); [|discriminate].
    destruct (RegExp.lazyGroup _ _); [|discriminate]. injection E as <- <-. lia.
  - destruct skip; cbn [RegExp.matchAll_from]; [|apply IH].
    destruct (RegExp.matchAt left right (c :: s)) as [[gs ge]|] eqn:E; [|apply IH].
    constructor; [|apply IH]. cbn.
    unfold RegExp.matchAt in E. destruct (startsWith left (c :: s)); [|discriminate].
    destruct (RegExp.lazyGroup _ _); [|discriminate]. injection E as <- <-. lia.
Qed.

Lemma highlightRanges_highlights LEFT RIGHT TRUNCATION snippet :
  Forall (fun r => data r = IsDisplayOnly (mkDisplayOnly SearchKeywordHighlight)
                   /\ 0 <= length r)
    (highlightRanges LEFT RIGHT TRUNCATION snippet).
Proof.
  unfold highlightRanges, RegExp.matchAll.
  pose proof (matchAll_from_groups LEFT RIGHT snippet 0 0) as H.
  revert H. generalize (RegExp.matchAll_from LEFT RIGHT 0 0 snippet). intros ms.
  generalize 0 at 2.
  induction ms as [|[[w gs] ge] ms IH]; intros k H; [constructor|].
  inversion H as [|? ? Hm Hms]; subst. cbn in Hm.
  cbn [fold_left highlightStep]. rewrite highlightStep_fold. cbn [app].
  constructor; [cbn; split; [reflexivity | lia]|].
  apply IH. exact Hms.
Qed.

Lemma rangesForSnippet_clipped LEFT RIGHT TRUNCATION snippet startOfSnippet ranges :
  Clipped startOfSnippet
    (startOfSnippet + strlen (withNoEndTruncation LEFT RIGHT TRUNCATION snippet))
    (truncationDelta LEFT RIGHT TRUNCATION snippet)
    ranges
    (map (adjustRange LEFT RIGHT TRUNCATION snippet startOfSnippet)
       (filter (includesSnippet startOfSnippet
                  (startOfSnippet
                   + strlen (withNoEndTruncation LEFT RIGHT TRUNCATION snippet)))
          ranges)).
Proof.
  induction ranges as [|r rs IH]; [constructor|].
  cbn [filter]. unfold includesSnippet at 1.
  destruct (Z.gtb_spec (start r + length r) startOfSnippet) as [H1|H1];
    cbn [andb]; [|apply Clipped_out; [left; lia | exact IH]].
  destruct (Z.ltb_spec (start r)
              (startOfSnippet
               + strlen (withNoEndTruncation LEFT RIGHT TRUNCATION snippet)))
    as [H2|H2]; [|apply Clipped_out; [right; lia | exact IH]].
  cbn [map]. apply Clipped_in; [lia | exact H2 | | exact IH].
  unfold clippedTo, adjustRange. cbn [start length data].
  split; [reflexivity|]. lia.
Qed.

Lemma snippetStartsAt_exec stripped body :
  snippetStartsAt stripped body
    match RegExp.exec stripped body with Some index => index | None => 0 end.
Proof.
  destruct (RegExp.exec stripped body) as [i|] eqn:E.
  - left. destruct (exec_from_Some _ _ _ E) as (before & after & Hb & Hi & Hmin).
    exists before, after. split; [exact Hb|]. split; [lia | exact Hmin].
  - right. split; [apply exec_None; exact E | reflexivity].
Qed.

Lemma processBodyRangesForSearchResult_production LEFT RIGHT TRUNCATION
    snippet body ranges :
  exists logged,
    processBodyRangesForSearchResult LEFT RIGHT TRUNCATION Production
      snippet body ranges
    = Return (logged,
              mkSearchResult (finalSnippet LEFT RIGHT TRUNCATION snippet)
                (rangesForSnippet LEFT RIGHT TRUNCATION snippet
                   match RegExp.exec
                           (withNoEndTruncation LEFT RIGHT TRUNCATION snippet) body
                   with Some index => index | None => 0 end
                   ranges)).
Proof.
  unfold processBodyRangesForSearchResult, assertDev.
  destruct (RegExp.exec _ body); cbn [bind]; eexists; reflexivity.
Qed.

(** X24.  In production [processBodyRangesForSearchResult] returns whatever
    the snippet and the body.  The ranges it returns begin with one range
    for every range of the body that reaches into the window of the
    snippet, in the order of the body's ranges: the part of the range
    inside the window, with its data, in the positions of the snippet as
    shown.  The window starts at the first occurrence of the stripped
    snippet in the body, or at 0 when there is none, and is as long as the
    stripped snippet.  A range of the body that ends at or before the
    window or starts at or after its end leaves nothing.  What follows
    these ranges are keyword highlights only. *)
Theorem processBodyRangesForSearchResult_clips
    (LEFT RIGHT TRUNCATION snippet body : JSString)
    (ranges : list DisplayBodyRangeType) :
  exists logged result offset kept highlights,
    processBodyRangesForSearchResult LEFT RIGHT TRUNCATION Production
      snippet body ranges = Return (logged, result)
    /\ snippetStartsAt (withNoEndTruncation LEFT RIGHT TRUNCATION snippet) body offset
    /\ bodyRanges result = kept ++ highlights
    /\ Clipped offset
         (offset + strlen (withNoEndTruncation LEFT RIGHT TRUNCATION snippet))
         (truncationDelta LEFT RIGHT TRUNCATION snippet)
         ranges kept
    /\ Forall (fun r => data r = IsDisplayOnly (mkDisplayOnly SearchKeywordHighlight))
         highlights.
Proof.
  destruct (processBodyRangesForSearchResult_production LEFT RIGHT TRUNCATION
              snippet body ranges) as [logged E].
  do 5 eexists. split; [exact E|].
  split; [apply snippetStartsAt_exec|]. cbn [bodyRanges].
  split; [apply rangesForSnippet_parts|].
  split; [apply rangesForSnippet_clipped|].
  eapply Forall_impl; [|apply highlightRanges_highlights].
  intros r [Hr _]. exact Hr.
Qed.

Lemma spaced_weaken left right ms :
  forall from from', from' <= from -> spaced left right from ms ->
                     spaced left right from' ms.
Proof.
  destruct ms as [|[[w gs] ge] ms]; intros from from' Hle H; [exact I|].
  cbn [spaced] in *. destruct H as (H1 & H2 & H3 & H4).
  repeat split; try assumption; lia.
Qed.

Lemma matchAt_group left right s gs ge :
  RegExp.matchAt left right s = Some (gs, ge) ->
  gs = List.length left /\ (gs <= ge)%nat.
Proof.
  unfold RegExp.matchAt. destruct (startsWith left s); [|discriminate].
  destruct (RegExp.lazyGroup _ _); [|discriminate].
  intros H. injection H as <- <-. split; [reflexivity | lia].
Qed.

Lemma matchAll_from_spaced left right s :
  forall pos skip,
    spaced left right (pos + Z.of_nat skip)
      (RegExp.matchAll_from left right pos skip s).
Proof.
  induction s as [|c s IH]; intros pos skip.
  - destruct skip; cbn [RegExp.matchAll_from]; [|exact I].
    destruct (RegExp.matchAt left right []) as [[gs ge]|] eqn:E; [|exact I].
    apply matchAt_group in E. destruct E as [-> Hge].
    cbn [spaced]. unfold strlen. repeat split; try exact I; lia.
  - destruct skip; cbn [RegExp.matchAll_from].
    + destruct (RegExp.matchAt left right (c :: s)) as [[gs ge]|] eqn:E.
      * apply matchAt_group in E. destruct E as [-> Hge].
        cbn [spaced]. unfold strlen. repeat split; try lia.
        eapply spaced_weaken; [|apply IH]. unfold strlen. lia.
      * eapply spaced_weaken; [|apply IH]. lia.
    + eapply spaced_weaken; [|apply IH]. lia.
Qed.

(** The highlights of matches that follow one another are in ascending
    order and do not overlap. *)
Lemma highlightStep_ascending LEFT RIGHT TRUNCATION snippet ms :
  forall from k,
    spaced LEFT RIGHT from ms ->
    let highlights :=
      fst (fold_left (highlightStep LEFT RIGHT TRUNCATION snippet) ms ([], k)) in
    Forall2 highlightOf ms highlights
    /\ ascendingFrom (from - k + truncationShift LEFT RIGHT TRUNCATION snippet)
         highlights.
Proof.
  induction ms as [|[[w gs] ge] ms IH]; intros from k H; cbn zeta.
  - split; [constructor | exact I].
  - cbn [spaced] in H. destruct H as (H1 & H2 & H3 & H4).
    cbn [fold_left highlightStep]. rewrite highlightStep_fold. cbn [app].
    destruct (IH _ (k + (strlen LEFT + strlen RIGHT)) H4) as [F A].
    cbn zeta in F, A. split.
    + constructor; [|exact F]. split; reflexivity.
    + cbn [ascendingFrom start length]. fold (truncationShift LEFT RIGHT TRUNCATION snippet).
      split; [lia|].
      destruct ms as [|[[w' gs'] ge'] ms]; [exact I|].
      cbn [fold_left highlightStep] in A |- *.
      rewrite highlightStep_fold in A |- *. cbn [app ascendingFrom start length] in A |- *.
      destruct A as [A1 A2]. split; [lia | exact A2].
Qed.

(** X27.  The keyword highlights that [processBodyRangesForSearchResult]
    puts after the clipped ranges of the body are one for every match of
    the marker pattern in the snippet, each as long as the matched word;
    they are in ascending order and do not overlap: each starts at or
    after the end of the one before it, and the first at or after the
    shift that a truncation on the left brings. *)
Theorem processBodyRangesForSearchResult_highlights
    (LEFT RIGHT TRUNCATION snippet body : JSString)
    (ranges : list DisplayBodyRangeType) :
  exists logged result kept highlights,
    processBodyRangesForSearchResult LEFT RIGHT TRUNCATION Production
      snippet body ranges = Return (logged, result)
    /\ bodyRanges result = kept ++ highlights
    /\ Forall2 highlightOf (RegExp.matchAll LEFT RIGHT snippet) highlights
    /\ ascendingFrom (truncationShift LEFT RIGHT TRUNCATION snippet) highlights.
Proof.
  destruct (processBodyRangesForSearchResult_production LEFT RIGHT TRUNCATION
              snippet body ranges) as [logged E].
  do 4 eexists. split; [exact E|]. cbn [bodyRanges].
  split; [apply rangesForSnippet_parts|].
  pose proof (@highlightStep_ascending LEFT RIGHT TRUNCATION snippet
                (RegExp.matchAll LEFT RIGHT snippet) 0 0
                (matchAll_from_spaced LEFT RIGHT snippet 0 0)) as H.
  cbn zeta in H. exact H.
Qed.

(** *** The highlighted words *)

Lemma slice_infix a w b :
  slice (a ++ w ++ b) (strlen a) (strlen a + strlen w) = w.
Proof.
  pose proof (strlen_nonneg a). pose proof (strlen_nonneg w).
  rewrite slice_nonneg by lia.
  unfold strlen. rewrite !length_app.
  replace (Nat.min (Z.to_nat (Z.of_nat (List.length a)))
             (List.length a + (List.length w + List.length b)))
    with (List.length a) by lia.
  replace (Nat.min (Z.to_nat (Z.of_nat (List.length a) + Z.of_nat (List.length w)))
             (List.length a + (List.length w + List.length b)))
    with (List.length a + List.length w)%nat by lia.
  replace (List.length a + List.length w - List.length a)%nat
    with (List.length w) by lia.
  rewrite skipn_app, Nat.sub_diag, skipn_all. cbn [skipn app].
  rewrite firstn_app, Nat.sub_diag, firstn_all. cbn. apply app_nil_r.
Qed.

Lemma unmarked_app pieces tail post :
  unmarked pieces (tail ++ post) = unmarked pieces tail ++ post.
Proof.
  induction pieces as [|[text word] pieces IH]; cbn [unmarked]; [reflexivity|].
  rewrite IH, <- !app_assoc. reflexivity.
Qed.

(** The highlights of the marked words span these words in the text
    without the markers. *)
Lemma highlightStep_words LEFT RIGHT TRUNCATION snippet pieces :
  forall pre post pos k,
    strlen pre = pos - k + truncationShift LEFT RIGHT TRUNCATION snippet ->
    Forall2 (highlightsWord (pre ++ unmarked pieces post)) pieces
      (fst (fold_left (highlightStep LEFT RIGHT TRUNCATION snippet)
              (markedAt LEFT RIGHT pos pieces) ([], k))).
Proof.
  induction pieces as [|[text word] pieces IH]; intros pre post pos k Hpre.
  - constructor.
  - cbn [markedAt unmarked]. cbv zeta.
    cbn [fold_left highlightStep]. rewrite highlightStep_fold. cbn [app].
    fold (truncationShift LEFT RIGHT TRUNCATION snippet).
    constructor.
    + split; [reflexivity|]. cbn [start length snd].
      replace (pos + strlen text + - k + truncationShift LEFT RIGHT TRUNCATION snippet)
        with (strlen (pre ++ text)) by (rewrite strlen_app; lia).
      replace (pos + strlen text + strlen LEFT + strlen word
               - (pos + strlen text + strlen LEFT))
        with (strlen word) by lia.
      rewrite (app_assoc pre text). apply slice_infix.
    + replace (pre ++ text ++ word ++ unmarked pieces post)
        with ((pre ++ text ++ word) ++ unmarked pieces post)
        by (rewrite <- !app_assoc; reflexivity).
      apply IH. rewrite !strlen_app. lia.
Qed.

Lemma startsWith_app pat s : startsWith pat (pat ++ s) = true.
Proof. apply startsWith_prefix. exists s. reflexivity. Qed.

Lemma endsWith_app pat s : endsWith pat (s ++ pat) = true.
Proof. unfold endsWith. rewrite rev_app_distr. apply startsWith_app. Qed.

(** What is shown of a snippet whose truncation markers are where it is
    cut and nowhere else at its ends. *)
Lemma finalSnippet_cut LEFT RIGHT TRUNCATION snippet cutLeft cutRight inner :
  TRUNCATION <> [] ->
  cleanSnippet LEFT RIGHT snippet
  = cutMarker cutLeft TRUNCATION ++ inner ++ cutMarker cutRight TRUNCATION ->
  (cutLeft = false ->
   startsWith TRUNCATION (inner ++ cutMarker cutRight TRUNCATION) = false) ->
  (cutRight = false ->
   endsWith TRUNCATION (cutMarker cutLeft TRUNCATION_CHAR ++ inner) = false) ->
  finalSnippet LEFT RIGHT TRUNCATION snippet
  = cutMarker cutLeft TRUNCATION_CHAR ++ inner ++ cutMarker cutRight TRUNCATION_CHAR
  /\ truncationShift LEFT RIGHT TRUNCATION snippet
     = strlen (cutMarker cutLeft TRUNCATION_CHAR)
       - strlen (cutMarker cutLeft TRUNCATION).
Proof.
  intros HT Hclean Hleft Hright.
  assert (Hstart :
            RegExp.replaceStart TRUNCATION TRUNCATION_CHAR
              (cleanSnippet LEFT RIGHT snippet)
            = cutMarker cutLeft TRUNCATION_CHAR ++ inner
                ++ cutMarker cutRight TRUNCATION
            /\ truncationShift LEFT RIGHT TRUNCATION snippet
               = strlen (cutMarker cutLeft TRUNCATION_CHAR)
                 - strlen (cutMarker cutLeft TRUNCATION)).
  { unfold truncationShift, truncationDelta, withNoStartTruncation,
      RegExp.replaceStart.
    rewrite Hclean. destruct cutLeft; cbn [cutMarker].
    - rewrite startsWith_app.
      rewrite skipn_app, Nat.sub_diag, skipn_all. cbn [skipn app].
      split; [reflexivity|].
      assert (0 < strlen TRUNCATION)
        by (destruct TRUNCATION; [congruence | unfold strlen; cbn; lia]).
      rewrite !strlen_app.
      destruct (Z.eqb_spec (strlen inner + strlen (cutMarker cutRight TRUNCATION))
                  (strlen TRUNCATION
                   + (strlen inner + strlen (cutMarker cutRight TRUNCATION))));
        [lia|].
      cbn [negb]. reflexivity.
    - cbn [app]. rewrite (Hleft eq_refl). split; [reflexivity|].
      rewrite Z.eqb_refl. reflexivity. }
  destruct Hstart as [Hstart Hshift]. split; [|exact Hshift].
  unfold finalSnippet. rewrite Hstart. unfold RegExp.replaceEnd.
  destruct cutRight; cbn [cutMarker].
  - rewrite (app_assoc _ inner TRUNCATION), endsWith_app.
    rewrite length_app, Nat.add_sub, firstn_app, Nat.sub_diag, firstn_all.
    cbn [firstn]. rewrite app_nil_r, <- app_assoc. reflexivity.
  - rewrite !app_nil_r. rewrite (Hright eq_refl). reflexivity.
Qed.

(** X28.  The highlights are where the highlighted words are.  Take a
    snippet made of texts and highlighted words, each word between the two
    markers, cut on the left, on the right, on both sides or not at all,
    with a truncation marker where it is cut.  When the markers are found
    where they were put and nowhere else (the pattern matches exactly at
    the marked words, and stripping the markers leaves the texts and the
    words), then the snippet that [processBodyRangesForSearchResult]
    returns is the texts and words with [TRUNCATION_CHAR] where the snippet
    is cut, and the ranges it returns end with one keyword highlight for
    each marked word, in order, that spans exactly this word in the
    returned snippet. *)
Theorem processBodyRangesForSearchResult_highlighted_words
    (LEFT RIGHT TRUNCATION tail body : JSString) (cutLeft cutRight : bool)
    (pieces : list (JSString * JSString)) (ranges : list DisplayBodyRangeType) :
  TRUNCATION <> [] ->
  RegExp.matchAll LEFT RIGHT
    (markedSnippet LEFT RIGHT TRUNCATION cutLeft cutRight pieces tail)
  = markedAt LEFT RIGHT (strlen (cutMarker cutLeft TRUNCATION)) pieces ->
  cleanSnippet LEFT RIGHT
    (markedSnippet LEFT RIGHT TRUNCATION cutLeft cutRight pieces tail)
  = cutMarker cutLeft TRUNCATION ++ unmarked pieces tail
      ++ cutMarker cutRight TRUNCATION ->
  (cutLeft = false ->
   startsWith TRUNCATION (unmarked pieces tail ++ cutMarker cutRight TRUNCATION)
   = false) ->
  (cutRight = false ->
   endsWith TRUNCATION (cutMarker cutLeft TRUNCATION_CHAR ++ unmarked pieces tail)
   = false) ->
  exists logged result kept highlights,
    processBodyRangesForSearchResult LEFT RIGHT TRUNCATION Production
      (markedSnippet LEFT RIGHT TRUNCATION cutLeft cutRight pieces tail)
      body ranges
    = Return (logged, result)
    /\ cleanedSnippet result
       = cutMarker cutLeft TRUNCATION_CHAR ++ unmarked pieces tail
           ++ cutMarker cutRight TRUNCATION_CHAR
    /\ bodyRanges result = kept ++ highlights
    /\ Forall2 (highlightsWord (cleanedSnippet result)) pieces highlights.
Proof.
  intros HT Hmatch Hclean Hleft Hright.
  destruct (processBodyRangesForSearchResult_production LEFT RIGHT TRUNCATION
              (markedSnippet LEFT RIGHT TRUNCATION cutLeft cutRight pieces tail)
              body ranges) as [logged E].
  destruct (@finalSnippet_cut LEFT RIGHT TRUNCATION _ cutLeft cutRight
              (unmarked pieces tail) HT Hclean Hleft Hright) as [Hfinal Hshift].
  do 4 eexists. split; [exact E|]. cbn [cleanedSnippet bodyRanges].
  split; [exact Hfinal|].
  split; [apply rangesForSnippet_parts|].
  rewrite Hfinal. unfold highlightRanges. rewrite Hmatch.
  rewrite <- unmarked_app.
  apply highlightStep_words. rewrite Hshift. lia.
Qed.

Lemma processBodyRangesForSearchResult_highlighted_words_witness :
  truncationMarker <> []
  /\ exists logged result kept highlights,
       processBodyRangesForSearchResult leftMarker rightMarker truncationMarker
         Production
         (markedSnippet leftMarker rightMarker truncationMarker true false
            foxPieces (js " jumps"))
         catBody [formatted BOLD 0 7]
       = Return (logged, result)
       /\ cleanedSnippet result
          = cutMarker true TRUNCATION_CHAR ++ unmarked foxPieces (js " jumps")
              ++ cutMarker false TRUNCATION_CHAR
       /\ bodyRanges result = kept ++ highlights
       /\ Forall2 (highlightsWord (cleanedSnippet result)) foxPieces highlights.
Proof.
  assert (A : truncationMarker <> []) by discriminate.
  split; [exact A|].
  apply (@processBodyRangesForSearchResult_highlighted_words
           leftMarker rightMarker truncationMarker (js " jumps") catBody
           true false foxPieces [formatted BOLD 0 7] A).
  - vm_compute. reflexivity.
  - vm_compute. reflexivity.
  - discriminate.
  - intros _. vm_compute. reflexivity.
Defined.

(** The snippet of the lemma above and what is returned for it. *)
Example fox_snippet_highlights :
  markedSnippet leftMarker rightMarker truncationMarker true false
    foxPieces (js " jumps")
  = js "<<truncation>>the <<left>>quick<<right>> brown <<left>>fox<<right>> jumps"
  /\ processBodyRangesForSearchResult leftMarker rightMarker truncationMarker
       Production
       (markedSnippet leftMarker rightMarker truncationMarker true false
          foxPieces (js " jumps"))
       (js "see the quick brown fox jumps") []
     = Return ([],
               mkSearchResult (js "...the quick brown fox jumps")
                 [mkBodyRange 7 5 (IsDisplayOnly (mkDisplayOnly SearchKeywordHighlight));
                  mkBodyRange 19 3 (IsDisplayOnly (mkDisplayOnly SearchKeywordHighlight))]).
Proof. split; vm_compute; reflexivity. Qed.

Example quick_snippet_ranges :
  processBodyRangesForSearchResult leftMarker rightMarker truncationMarker
    Development quickSnippet catBody [formatted BOLD 0 7; formatted ITALIC 14 3]
  = Return ([],
            mkSearchResult (js "quick brown")
              [formatted BOLD 0 5;
               mkBodyRange 0 5 (IsDisplayOnly (mkDisplayOnly SearchKeywordHighlight))]).
Proof. vm_compute. reflexivity. Qed.

(** *** Where a mention ends up *)

Lemma mentionIn_node m s l n :
  mentionIn m s l n
  <-> (nodeData n = IsMention m /\ nodeStart n = s /\ nodeLength n = l)
      \/ (isMention (nodeData n) = false
          /\ mentioned m (s - nodeStart n) l (ranges n)).
Proof.
  destruct n as [r children]. cbn [mentionIn]. unfold mentioned.
  unfold nodeData, nodeStart, nodeLength. cbn [nodeRange ranges].
  assert (E : forall cs q,
             (fix any (cs : list RangeNode) : Prop :=
                match cs with
                | [] => False
                | c :: cs' => mentionIn m q l c \/ any cs'
                end) cs <-> Exists (mentionIn m q l) cs).
  { induction cs as [|c cs IH]; intros q.
    - split; [tauto | intros H; inversion H].
    - rewrite IH. split.
      + intros [?|?]; [left | right]; assumption.
      + intros H; inversion H; auto. }
  rewrite E. tauto.
Qed.

Lemma attachedTo_grows m l p (a b : list DisplayNode) :
  incl a b -> Exists (attachedTo m l p) a -> Exists (attachedTo m l p) b.
Proof.
  intros Hincl H. apply Exists_exists in H. destruct H as (n & Hn & Ha).
  apply Exists_exists. exists n. split; [apply Hincl; exact Hn | exact Ha].
Qed.

(** A pending mention goes with the next segment of plain text. *)
Lemma plainSegment_attaches pd po text st upto m s l :
  pendingIn m s l st -> s + l <= upto ->
  attachedTo m l (s + po) (plainSegment pd po text st upto).
Proof.
  intros (e & He & Hd & Hl & Hs & Ho) Hup.
  exists e. unfold plainSegment. cbn. repeat split; try assumption; lia.
Qed.

Lemma collapseLoop_keeps_mention tree :
  forall pd po text lo st st' m s l,
    0 < l -> sortedFrom lo tree -> s + l <= lo ->
    collapseLoop pd po text tree (Return st) = Return st' ->
    pendingIn m s l st ->
    Exists (attachedTo m l (s + po)) (collapsed st') \/ pendingIn m s l st'.
Proof.
  induction tree as [|n tree IH]; intros pd po text lo st st' m s l Hl Hsorted Hlo H Hp.
  - cbn in H. injection H as <-. right. exact Hp.
  - rewrite collapseLoop_cons in H.
    apply sortedFrom_cons in Hsorted. destruct Hsorted as (Hs1 & Hs2 & Hs3).
    destruct (isMention (nodeData n)) eqn:Em.
    + destruct (nodeData n) as [m0| | |] eqn:Ed; try discriminate.
      rewrite (collapseStep_mention _ _ _ _ _ _ Ed) in H.
      eapply (IH pd po text (nodeEnd n));
        [exact Hl | exact Hs3 | unfold nodeEnd; lia | exact H |].
      destruct Hp as (e & He & Hp).
      exists e. cbn [mentions offset]. split; [|exact Hp].
      apply in_or_app. left. exact He.
    + left.
      destruct (collapseStep_other (collapseChildren n) pd po text st n Em)
        as (own & _ & Es).
      rewrite Es in H.
      destruct (collapseChildren n (spread pd own) (nodeStart n + po)
                  (slice text (nodeStart n) (nodeStart n + nodeLength n)))
        as [inner|msg]; [|cbn in H; rewrite collapseLoop_Throw in H; discriminate].
      cbn [bind] in H.
      eapply attachedTo_grows; [apply (collapseLoop_grows _ _ _ _ _ H)|].
      cbn [collapsed]. apply Exists_app. left.
      unfold afterGap.
      assert (Hgap : nodeStart n > offset st).
      { destruct Hp as (e & _ & _ & _ & _ & Ho). lia. }
      destruct (Z.gtb_spec (nodeStart n) (offset st)); [|lia].
      cbn [collapsed]. apply Exists_app. right. apply Exists_cons_hd.
      apply plainSegment_attaches; [exact Hp | lia].
Qed.

Lemma collapseFinish_attaches pd po text st m s l :
  0 < l -> s + l <= strlen text -> pendingIn m s l st ->
  Exists (attachedTo m l (s + po)) (collapseFinish pd po text st).
Proof.
  intros Hl Hs Hp. unfold collapseFinish.
  assert (Ho : offset st <= s) by (destruct Hp as (e & _ & _ & _ & _ & Ho); exact Ho).
  destruct (Z.gtb_spec (strlen text) (offset st)); [|lia].
  apply Exists_app. right. apply Exists_cons_hd.
  apply plainSegment_attaches; assumption.
Qed.

Lemma collapseLoop_finds_mention tree :
  Forall (fun n0 =>
            wellFormedNode n0 ->
            forall pd po text nodes m s l,
              0 < l -> strlen text = nodeLength n0 ->
              collapseChildren n0 pd po text = Return nodes ->
              mentioned m s l (ranges n0) ->
              Exists (attachedTo m l (s + po)) nodes) tree ->
  forall pd po text lo st st' m s l,
    0 < l -> sortedFrom lo tree ->
    Forall (fun n => 0 <= nodeStart n /\ 0 <= nodeLength n
                     /\ nodeEnd n <= strlen text) tree ->
    Forall wellFormedNode tree -> offset st <= lo ->
    collapseLoop pd po text tree (Return st) = Return st' ->
    mentioned m s l tree ->
    Exists (attachedTo m l (s + po)) (collapsed st') \/ pendingIn m s l st'.
Proof.
  induction 1 as [|n0 tree Hn _ IH];
    intros pd po text lo st st' m s l Hl Hsorted Hbounds Hwf Hoff H Hm.
  - inversion Hm.
  - apply sortedFrom_cons in Hsorted. destruct Hsorted as (Hs1 & Hs2 & Hs3).
    inversion Hbounds as [|? ? (Hb1 & Hb2 & Hb3) Hbt]; subst.
    inversion Hwf as [|? ? Hwfn Hwft]; subst.
    unfold nodeEnd in Hb3.
    rewrite collapseLoop_cons in H.
    destruct (collapseStep (collapseChildren n0) pd po text st n0) as [st1|msg] eqn:Es;
      [|rewrite collapseLoop_Throw in H; discriminate].
    assert (Hoff1 : offset st1 <= nodeEnd n0).
    { unfold nodeEnd. destruct (isMention (nodeData n0)) eqn:Em.
      - destruct (nodeData n0) as [m0| | |] eqn:Ed; try discriminate.
        rewrite (collapseStep_mention _ _ _ _ _ _ Ed) in Es. injection Es as <-.
        cbn [offset]. lia.
      - destruct (collapseStep_other (collapseChildren n0) pd po text st n0 Em)
          as (own & _ & Es').
        rewrite Es' in Es. bind_inv Es. injection Es as <-. cbn [offset]. lia. }
    unfold mentioned in Hm. apply Exists_cons in Hm. destruct Hm as [Hm|Hm].
    + apply mentionIn_node in Hm. destruct Hm as [(Hd & Hs & Hln)|(Hnm & Hc)].
      * rewrite (collapseStep_mention _ _ _ _ _ _ Hd) in Es. injection Es as <-.
        eapply (@collapseLoop_keeps_mention tree pd po text (nodeEnd n0));
          [exact Hl | exact Hs3 | unfold nodeEnd; lia | exact H |].
        eexists. cbn [mentions offset]. split; [apply in_or_app; right; left; reflexivity|].
        cbn [data length start]. repeat split; try assumption; lia.
      * left.
        destruct (collapseStep_other (collapseChildren n0) pd po text st n0 Hnm)
          as (own & _ & Es').
        rewrite Es' in Es. bind_inv Es. injection Es as <-.
        assert (Hslice : strlen (slice text (nodeStart n0)
                                   (nodeStart n0 + nodeLength n0))
                         = nodeLength n0).
        { rewrite strlen_slice by lia. lia. }
        pose proof (Hn Hwfn (spread pd own) (nodeStart n0 + po) _ t m
                      (s - nodeStart n0) l Hl Hslice E Hc) as Hin.
        replace (s - nodeStart n0 + (nodeStart n0 + po)) with (s + po) in Hin by lia.
        eapply attachedTo_grows; [apply (collapseLoop_grows _ _ _ _ _ H)|].
        cbn [collapsed]. apply Exists_app. right. exact Hin.
    + eapply (IH pd po text (nodeEnd n0)); eauto.
Qed.

Lemma mentioned_bounds tree hi m s l :
  within hi tree -> Forall wellFormedNode tree -> 0 <= hi ->
  mentioned m s l tree -> 0 < l -> s + l <= hi.
Proof.
  revert hi s.
  induction tree as [|current rest IHc IHr] using forest_ind;
    intros hi s Hw Hwf Hhi Hm Hl.
  - inversion Hm.
  - apply within_cons in Hw. destruct Hw as [Hw1 Hw2].
    inversion Hwf as [|? ? Hwfc Hwfr]; subst.
    unfold mentioned in Hm. apply Exists_cons in Hm. destruct Hm as [Hm|Hm].
    + apply mentionIn_node in Hm. destruct Hm as [(Hd & Hs & Hln)|(Hnm & Hc)].
      * unfold nodeEnd in Hw1. lia.
      * apply wellFormedNode_children in Hwfc. destruct Hwfc as (Hc1 & Hc2 & Hc3).
        destruct (Z_lt_ge_dec (nodeLength current) 0) as [Hneg|Hpos].
        -- exfalso. destruct (ranges current) as [|c cs]; [inversion Hc|].
           apply sortedFrom_cons in Hc1. destruct Hc1 as (K1 & K2 & _).
           apply within_cons in Hc2. destruct Hc2 as [K3 _].
           unfold nodeEnd in *. lia.
        -- pose proof (IHc (nodeLength current) (s - nodeStart current)
                         Hc2 Hc3 ltac:(lia) Hc Hl).
           unfold nodeEnd in Hw1. lia.
    + apply (IHr hi s); assumption.
Qed.

Lemma collapseRangeTree_attaches_from tree :
  Forall (fun n0 =>
            wellFormedNode n0 ->
            forall pd po text nodes m s l,
              0 < l -> strlen text = nodeLength n0 ->
              collapseChildren n0 pd po text = Return nodes ->
              mentioned m s l (ranges n0) ->
              Exists (attachedTo m l (s + po)) nodes) tree ->
  forall pd po text nodes m s l,
    0 < l -> sortedFrom 0 tree -> within (strlen text) tree ->
    Forall wellFormedNode tree ->
    collapseRangeTree pd po text tree = Return nodes ->
    mentioned m s l tree ->
    Exists (attachedTo m l (s + po)) nodes.
Proof.
  intros Hall pd po text nodes m s l Hl Hsorted Hwithin Hwf H Hm.
  unfold collapseRangeTree in H. bind_inv H. injection H as <-.
  pose proof (@sortedFrom_bounds 0 tree (strlen text) ltac:(lia) Hsorted Hwithin)
    as Hbounds.
  assert (H0 : offset collapseInit <= 0) by (cbn; lia).
  destruct (@collapseLoop_finds_mention tree Hall pd po text 0 collapseInit t m s l
              Hl Hsorted Hbounds Hwf H0 E Hm) as [Ha|Hp].
  - eapply attachedTo_grows; [apply collapseFinish_incl | exact Ha].
  - apply collapseFinish_attaches; [exact Hl| |exact Hp].
    apply (@mentioned_bounds tree (strlen text) m s l); try assumption.
    apply strlen_nonneg.
Qed.

Lemma collapseChildren_attaches n0 :
  wellFormedNode n0 ->
  forall pd po text nodes m s l,
    0 < l -> strlen text = nodeLength n0 ->
    collapseChildren n0 pd po text = Return nodes ->
    mentioned m s l (ranges n0) ->
    Exists (attachedTo m l (s + po)) nodes.
Proof.
  induction n0 as [r children IH] using RangeNode_ind.
  intros Hwf pd po text nodes m s l Hl Hlen H Hm.
  apply wellFormedNode_unfold in Hwf. destruct Hwf as (Hsorted & Hwithin & Hwf).
  rewrite collapseChildren_eq in H. cbn [ranges] in *.
  unfold nodeLength in Hlen. cbn [nodeRange] in Hlen. rewrite <- Hlen in Hwithin.
  eapply (@collapseRangeTree_attaches_from children IH); eauto.
Qed.

(** X25.  A mention ends up in the segment it sits in: for a well-formed
    tree whose nodes end inside the text, every mention node of positive
    length that is not below another mention node is carried by a segment
    of the output of [collapseRangeTree] that contains its span, and the
    [start] it is given there is its distance from the start of that
    segment. *)
Theorem collapseRangeTree_attaches (text : JSString) (tree : list RangeNode)
    (m : HydratedMention) (s l : Z) :
  wellFormed tree -> within (strlen text) tree ->
  mentioned m s l tree -> 0 < l ->
  forall parentData parentOffset,
  exists nodes,
    collapseRangeTree parentData parentOffset text tree = Return nodes
    /\ Exists (attachedTo m l (s + parentOffset)) nodes.
Proof.
  intros [Hsorted Hwf] Hwithin Hm Hl parentData parentOffset.
  destruct (collapseRangeTree_returns_inheriting tree parentData parentOffset text)
    as (nodes & E & _).
  exists nodes. split; [exact E|].
  apply (@collapseRangeTree_attaches_from tree) with (pd := parentData) (text := text);
    try assumption.
  apply Forall_forall. intros n0 _. apply collapseChildren_attaches.
Qed.

Lemma collapseRangeTree_attaches_witness :
  wellFormed mentionTree /\ within (strlen (js "a bc d")) mentionTree
  /\ mentioned (data bobMention) 2 1 mentionTree /\ 0 < 1
  /\ exists nodes,
       collapseRangeTree emptyPartial 0 (js "a bc d") mentionTree = Return nodes
       /\ Exists (attachedTo (data bobMention) 1 (2 + 0)) nodes.
Proof.
  assert (H : wellFormed mentionTree)
    by (unfold wellFormed, mentionTree; wellFormed_tac).
  assert (W : within (strlen (js "a bc d")) mentionTree).
  { unfold mentionTree. repeat constructor; vm_compute; discriminate. }
  assert (M : mentioned (data bobMention) 2 1 mentionTree).
  { unfold mentioned, mentionTree. apply Exists_cons_hd. apply mentionIn_node. right.
    split; [reflexivity|]. apply Exists_cons_hd. apply mentionIn_node. left.
    repeat split. }
  assert (L : 0 < 1) by lia.
  split; [exact H|]. split; [exact W|]. split; [exact M|]. split; [exact L|].
  exact (@collapseRangeTree_attaches (js "a bc d") mentionTree (data bobMention)
           2 1 H W M L emptyPartial 0).
Defined.

Example mention_in_bold :
  collapseRangeTree emptyPartial 0 (js "a bc d") mentionTree
  = Return [segment "a " 0 (flags None None);
            Display.mkDisplayNode (flags (Some true) None) (js "bc") 2 2
              [mkBodyRange 0 1 (data bobMention)];
            segment " d" 4 (flags None None)].
Proof. vm_compute. reflexivity. Qed.
